(** * polyhedron_tools.misc: a shallow embedding

    The module [polyhedron_tools/misc.py] shapes the inputs and outputs of
    two external services of SageMath: the [Polyhedron] double-description
    engine and the [MixedIntegerLinearProgram] solver interface.

    - Sage's numbers are rationals [Q]; a double is a rational too, and the
      conversion [RDF(.)] of a rational to the nearest double is the
      parameter [RDF_round] of the embedding (infinities and NaN are not
      modelled).
    - The [Polyhedron] constructor is the parameter [Polyhedron]; a
      polyhedron object is the record of what the module reads from it.
    - Code that drives the LP solver is a program of type [prog]: the calls
      made on the [MixedIntegerLinearProgram] object in the order of the
      source, with the continuation after [solve()] a function of the
      solver's answer.  The relation [exec] runs such a program against an
      ideal solver (exact arithmetic over the reals).
    - An argument whose type the source probes at run time is a value of a
      sum type ([pyobj], [matrix_arg], [vector_arg], [box_arg]); an
      exception is a value of [exn].  Printing ([verbose]) is not modelled. *)

From Stdlib Require Import List String Bool Arith ZArith QArith Qabs Qminmax.
From Stdlib Require Import Reals Qreals Lra Lia Permutation.
Import ListNotations.

Local Open Scope string_scope.
Local Open Scope Q_scope.
Local Open Scope list_scope.

(** ** Rings, matrices and vectors *)

(** [QQ] and [RDF] are the two base rings the module imports; a polyhedron
    can live over others (ZZ, AA, a number field). *)
Inductive ring : Type :=
| QQ
| RDF
| OtherRing (name : string).

Definition ring_eqb (R S : ring) : bool :=
  match R, S with
  | QQ, QQ => true
  | RDF, RDF => true
  | OtherRing n, OtherRing m => String.eqb n m
  | _, _ => false
  end.

(** A dense Sage matrix: rows of length [ncols]. *)
Record matrix : Type := mk_matrix {
  base_ring : ring;
  ncols : nat;
  rows : list (list Q)
}.

Definition nrows (A : matrix) : nat := List.length (rows A).

(** [A.row(i)] *)
Definition row (A : matrix) (i : nat) : list Q := nth i (rows A) [].

Record vector : Type := mk_vector {
  vbase_ring : ring;
  entries : list Q
}.

(** [b.length()] *)
Definition length (b : vector) : nat := List.length (entries b).

(** [-v] on a list of coefficients. *)
Definition vneg (v : list Q) : list Q := map Qopp v.

(** [v.dot_product(w)] *)
Fixpoint dot_product (v w : list Q) : Q :=
  match v, w with
  | a :: v', b :: w' => a * b + dot_product v' w'
  | _, _ => 0
  end.

(** [zero_vector(R, n)] *)
Definition zero_vector (n : nat) : list Q := repeat 0 n.

(** [l[i] = v] on a list that is long enough (Python raises otherwise; every
    use below writes inside a container allocated with the right size). *)
Fixpoint set_nth {T : Type} (i : nat) (v : T) (l : list T) : list T :=
  match l, i with
  | [], _ => []
  | _ :: l', O => v :: l'
  | a :: l', S i' => a :: set_nth i' v l'
  end.

(** [A.set_row(i, v)] *)
Definition set_row (A : matrix) (i : nat) (v : list Q) : matrix :=
  {| base_ring := base_ring A; ncols := ncols A; rows := set_nth i v (rows A) |}.

(** [b[i] = v] *)
Definition set_entry (b : vector) (i : nat) (v : Q) : vector :=
  {| vbase_ring := vbase_ring b; entries := set_nth i v (entries b) |}.

(** ** Polyhedron objects *)

(** One element of [P.Hrep_generator()]: [vector()] is [[β, a_1, ..., a_n]]
    and stands for [a.x + β >= 0], or [a.x + β = 0] when [is_equation()]. *)
Record Hrep_gen : Type := mk_Hrep_gen {
  is_equation : bool;
  gen_b : Q;
  gen_A : list Q
}.

(** [pigen.vector()] *)
Definition gen_vector (g : Hrep_gen) : list Q := gen_b g :: gen_A g.

(** What the module reads from a [Polyhedron] object. *)
Record polyhedron : Type := mk_polyhedron {
  P_base_ring : ring;
  ambient_dim : nat;
  Hrepresentation : list Hrep_gen;
  is_empty : bool;
  vertices_list : list (list Q)
}.

(** ** Python values and exceptions *)

Inductive exn : Type :=
| ValueError (msg : string)
| NameError (name : string)
| AttributeError (attr : string)
| IndexError
| TypeError
| MIPSolverException.

Inductive result (T : Type) : Type :=
| Ok (v : T)
| Error (e : exn).
Arguments Ok {T} v.
Arguments Error {T} e.

(** ** Programs over the LP solver interface *)

(** [x[i]] and [r[i]]: the components of the variable families that
    [new_variable()] returns (real, unrestricted in sign). *)
Inductive mip_var : Type :=
| x_ (i : nat)
| r_ (i : nat).

(** A coefficient is a number of the base ring or the symbolic square root
    [sqrt(q)] that [sqrt(v.dot_product(v))] returns. *)
Inductive coefficient : Type :=
| Rational (q : Q)
| Sqrt (q : Q).

Definition linear_function : Type := list (coefficient * mip_var).

Inductive linear_constraint : Type :=
| Le (lhs : linear_function) (rhs : Q)   (* lhs <= rhs *)
| MatrixLe (A : matrix) (b : vector).     (* A * x <= b *)

(** The methods called on a [MixedIntegerLinearProgram] whose answer the
    module does not read. *)
Inductive mip_call : Type :=
| MixedIntegerLinearProgram (maximization : bool) (solver : option string)
| new_variable
| set_objective (obj : linear_function)
| add_constraint (c : linear_constraint).

(** What [solve()] and [get_values] answer. *)
Record solution : Type := mk_solution {
  objective_value : R;
  get_values : mip_var -> R
}.

Inductive prog (T : Type) : Type :=
| Return (v : T)
| Raise (e : exn)
| Call (c : mip_call) (k : prog T)
| Solve (k : solution -> prog T).
Arguments Return {T} v.
Arguments Raise {T} e.
Arguments Call {T} c k.
Arguments Solve {T} k.

Fixpoint bind {T U : Type} (p : prog T) (f : T -> prog U) : prog U :=
  match p with
  | Return v => f v
  | Raise e => Raise e
  | Call c k => Call c (bind k f)
  | Solve k => Solve (fun sol => bind (k sol) f)
  end.

(** The solver-side calls a program makes before it returns, raises or
    reaches [solve()], and whether it reaches [solve()]. *)
Fixpoint mip_calls {T : Type} (p : prog T) : list mip_call :=
  match p with
  | Call c k => c :: mip_calls k
  | _ => []
  end.

Fixpoint invokes_solver {T : Type} (p : prog T) : bool :=
  match p with
  | Call _ k => invokes_solver k
  | Solve _ => true
  | _ => false
  end.

Definition is_add_constraint (c : mip_call) : bool :=
  match c with
  | add_constraint _ => true
  | _ => false
  end.

(** The arguments that the functions probe at run time. *)
#[warnings="-register-all"]
Inductive pyobj : Type :=
| PyPolyhedron (P : polyhedron)
| PyMatrix (A : matrix)
| PyVector (b : vector)
| PyList (l : list pyobj)
| PyTuple (l : list pyobj).

(** [sum(c[j]*x[j] for j in range(n))] *)
Definition sum_x (c : list Q) (n : nat) : linear_function :=
  map (fun j => (Rational (nth j c 0), x_ j)) (seq 0 n).

Section Embedding.

(** [RDF(q)]: the double nearest to [q], as a rational. *)
Variable RDF_round : Q -> Q.

(** [Polyhedron(ieqs=..., base_ring=..., ambient_dim=..., backend=...)] *)
Variable Polyhedron : list (list Q) -> ring -> nat -> string -> polyhedron.

(** [R(q)]: conversion of a number into the ring [R]. *)
Definition cast (R : ring) (q : Q) : Q :=
  match R with
  | RDF => RDF_round q
  | _ => q
  end.

(** [matrix(R, A)] for a list of rows [A] *)
Definition matrix_of_rows (R : ring) (A : list (list Q)) : matrix :=
  {| base_ring := R;
     ncols := match A with [] => O | r :: _ => List.length r end;
     rows := map (map (cast R)) A |}.

(** [vector(R, b)] for a list [b] *)
Definition vector_of_list (R : ring) (b : list Q) : vector :=
  {| vbase_ring := R; entries := map (cast R) b |}.

(** [matrix(R, m, n)]: the zero matrix *)
Definition zero_matrix (R : ring) (m n : nat) : matrix :=
  {| base_ring := R; ncols := n; rows := repeat (zero_vector n) m |}.

(** [vector(R, m)]: the zero vector *)
Definition zero_vec (R : ring) (m : nat) : vector :=
  {| vbase_ring := R; entries := zero_vector m |}.

(** ** polyhedron_to_Hrep *)

(** What [polyhedron_to_Hrep] returns: the list [[A, b]] or the list
    [[A, b, Aeq, beq]]. *)
Inductive Hrep_lists : Type :=
| Hrep2 (A : matrix) (b : vector)
| Hrep4 (A : matrix) (b : vector) (Aeq : matrix) (beq : vector).

(** Body of the loop of the default branch (lines 156-168): the lists [A]
    and [b] grow by [append]. *)
Definition to_Hrep_step (Ab : list (list Q) * list Q) (pigen : Hrep_gen)
  : list (list Q) * list Q :=
  let (A, b) := Ab in
  let pi_vec := gen_vector pigen in
  if is_equation pigen then
    ((A ++ [vneg (skipn 1 pi_vec)]) ++ [skipn 1 pi_vec],
     (b ++ [nth 0 pi_vec 0]) ++ [nth 0 pi_vec 0])
  else
    (A ++ [vneg (skipn 1 pi_vec)], b ++ [nth 0 pi_vec 0]).

(** Body of the loop of the other branch (lines 177-186), on
    [((A, b), (Aeq, beq))]. *)
Definition to_Hrep_sep_step
  (acc : (list (list Q) * list Q) * (list (list Q) * list Q)) (pigen : Hrep_gen)
  : (list (list Q) * list Q) * (list (list Q) * list Q) :=
  let '((A, b), (Aeq, beq)) := acc in
  let pi_vec := gen_vector pigen in
  if is_equation pigen then
    ((A, b), (Aeq ++ [vneg (skipn 1 pi_vec)], beq ++ [nth 0 pi_vec 0]))
  else
    ((A ++ [vneg (skipn 1 pi_vec)], b ++ [nth 0 pi_vec 0]), (Aeq, beq)).

Definition polyhedron_to_Hrep (P : polyhedron) (separate_equality_constraints : bool)
  : Hrep_lists :=
  if negb separate_equality_constraints then
    let P_gen := Hrepresentation P in
    let (A, b) := fold_left to_Hrep_step P_gen ([], []) in
    Hrep2 (matrix_of_rows RDF A) (vector_of_list RDF b)
  else
    let P_gen := Hrepresentation P in
    let '((A, b), (Aeq, beq)) := fold_left to_Hrep_sep_step P_gen (([], []), ([], [])) in
    Hrep4 (matrix_of_rows RDF A) (vector_of_list RDF b)
          (matrix_of_rows RDF Aeq) (vector_of_list RDF beq).

(** ** polyhedron_from_Hrep *)

(** The second alternative of each argument is a [numpy.ndarray]: the test
    ['numpy.ndarray' in str(type(A))]. *)
Inductive matrix_arg : Type :=
| SageMatrix (A : matrix)
| NumpyMatrix (a : list (list Q)).

Inductive vector_arg : Type :=
| SageVector (b : vector)
| NumpyVector (a : list Q).

(** The elements of [b], by iteration or by index, for both kinds. *)
Definition items (b : vector_arg) : list Q :=
  match b with
  | SageVector b => entries b
  | NumpyVector a => a
  end.

(** [A.shape[0]] and [A.shape[1]] of a rectangular array *)
Definition shape0 (a : list (list Q)) : nat := List.length a.
Definition shape1 (a : list (list Q)) : nat :=
  match a with [] => O | r :: _ => List.length r end.

(** [ieqs_list]: lines 267-270 and 301-304.  Row [i] is [list(-A.row(i))]
    with [b[i]] inserted in front; [b[i]] raises past the end of [b]. *)
Fixpoint ieqs_loop (A : matrix) (b : list Q) (range : list nat) (ieqs_list : list (list Q))
  : result (list (list Q)) :=
  match range with
  | [] => Ok ieqs_list
  | i :: range' =>
      match nth_error b i with
      | Some bi => ieqs_loop A b range' (ieqs_list ++ [bi :: vneg (row A i)])
      | None => Error IndexError
      end
  end.

(** The part the two branches share, from [ambient_dim = A.ncols()] on.
    [A.change_ring(R)] and [b.change_ring(R)] return a new object that the
    source drops, so they leave [A] and [b] as they are; [b.base_ring()] is
    evaluated for the test and does not exist on an array. *)
Definition from_Hrep_build (R : ring) (backend : string) (A : matrix) (b : vector_arg)
  : result polyhedron :=
  match b with
  | NumpyVector _ => Error (AttributeError "base_ring")
  | SageVector bv =>
      match ieqs_loop A (entries bv) (seq 0 (nrows A)) [] with
      | Ok ieqs_list => Ok (Polyhedron ieqs_list R (ncols A) backend)
      | Error e => Error e
      end
  end.

(** [A_R.set_row(i, [R(A[i][j]) for j in range(n)])] for [i] in [range(m)] *)
Definition cast_rows (R : ring) (a : list (list Q)) (m n : nat) : matrix :=
  fold_left
    (fun A_R i => set_row A_R i (map (fun j => cast R (nth j (nth i a []) 0)) (seq 0 n)))
    (seq 0 m) (zero_matrix R m n).

(** [[QQ(b[i]) for i in range(m)]]: indexing raises past the end of [b]. *)
Fixpoint cast_by_index (R : ring) (b : list Q) (range : list nat) : result (list Q) :=
  match range with
  | [] => Ok []
  | i :: range' =>
      match nth_error b i with
      | Some bi =>
          match cast_by_index R b range' with
          | Ok l => Ok (cast R bi :: l)
          | Error e => Error e
          end
      | None => Error IndexError
      end
  end.

(** The names bound in the module's global scope: its imports (lines 29-41)
    and the functions it defines. *)
Definition module_globals : list string :=
  ["QQ"; "RDF"; "Polyhedron"; "matrix"; "vector"; "zero_vector";
   "identity_matrix"; "_make_listlist"; "sqrt"; "oo";
   "polyhedron_to_Hrep"; "polyhedron_from_Hrep"; "chebyshev_center"; "radius";
   "support_function"; "support_function_ellipsoid"; "BoxInfty";
   "opposite_polyhedron"; "diameter_vertex_enumeration";
   "diameter_support_function"].

(** The builtins of Python that the module calls ([copy] is a function of
    the standard module [copy], not a builtin). *)
Definition python_builtins : list string :=
  ["str"; "type"; "range"; "list"; "len"; "sum"; "abs"; "max"; "print"].

(** Name resolution inside a function of the module: a name that is not a
    local is looked up in the module's globals, then in the builtins;
    [NameError] otherwise. *)
Definition name_bound (name : string) : bool :=
  existsb (String.eqb name) (module_globals ++ python_builtins).

Definition polyhedron_from_Hrep (A : matrix_arg) (b : vector_arg) (base_ring : ring)
  : result polyhedron :=
  if ring_eqb base_ring RDF then
    match A with
    | NumpyMatrix a =>
        let m := shape0 a in
        let n := shape1 a in
        (* vector(RDF, m, l) checks that l has m entries *)
        if Nat.eqb (List.length (items b)) m then
          let b_RDF := vector_of_list RDF (items b) in
          let A_RDF := cast_rows RDF a m n in
          if name_bound "copy" then
            from_Hrep_build RDF "cdd" A_RDF (SageVector b_RDF)
          else Error (NameError "copy")
        else Error (ValueError "incompatible degrees in vector constructor")
    | SageMatrix A => from_Hrep_build RDF "cdd" A b
    end
  else if ring_eqb base_ring QQ then
    match A with
    | NumpyMatrix a =>
        let m := shape0 a in
        let n := shape1 a in
        match cast_by_index QQ (items b) (seq 0 m) with
        | Ok l =>
            let b_QQ := {| vbase_ring := QQ; entries := l |} in
            let A_QQ := cast_rows QQ a m n in
            if name_bound "copy" then
              from_Hrep_build QQ "ppl" A_QQ (SageVector b_QQ)
            else Error (NameError "copy")
        | Error e => Error e
        end
    | SageMatrix A => from_Hrep_build QQ "ppl" A b
    end
  else
    Error (ValueError "Base ring not supported. Try with RDF or QQ.").

(** ** BoxInfty *)

(** What the caller can pass for [lengths], [center] and [radius]: a number,
    a list of numbers, or a list of [(min, max)] tuples. *)
Inductive box_arg : Type :=
| Number (q : Q)
| NumberList (l : list Q)
| IntervalList (l : list (Q * Q)).

(** [[A, b]] or the polyhedron, by [return_HSpaceRep]. *)
Inductive box : Type :=
| BoxHrep (A : matrix) (b : vector)
| BoxPolyhedron (P : polyhedron).

(** One turn of the loop over [range(ndim)] (lines 598-610 and 625-637) on
    [(A, b, count)]: the external bound [hi] on row [count], the internal
    bound [-lo] on the next. *)
Definition box_step (ndim : nat) (bounds : nat -> Q * Q)
  (acc : matrix * vector * nat) (i : nat) : matrix * vector * nat :=
  let '(A, b, count) := acc in
  let diri := set_nth i 1 (zero_vector ndim) in
  let A := set_row A count diri in
  let b := set_entry b count (snd (bounds i)) in
  let count := S count in
  let A := set_row A count (vneg diri) in
  let b := set_entry b count (- fst (bounds i)) in
  let count := S count in
  (A, b, count).

Definition box_rows (base_ring : ring) (ndim : nat) (bounds : nat -> Q * Q)
  : matrix * vector :=
  let A := zero_matrix base_ring (2 * ndim) ndim in
  let b := zero_vec base_ring (2 * ndim) in
  let '(A, b, _) := fold_left (box_step ndim bounds) (seq 0 ndim) (A, b, O) in
  (A, b).

Definition BoxInfty (lengths center radius : option box_arg) (base_ring : ring)
  (return_HSpaceRep : bool) : result box :=
  (* Guess input *)
  let '(got_lengths, got_center_and_radius, lengths, center, radius) :=
    match lengths with
    | Some l =>
        match center, radius with
        | None, None => (true, false, lengths, center, radius)
        | Some c, None => (false, true, Some (NumberList []), lengths, center)
        | _, _ => (false, false, lengths, center, radius)
        end
    | None =>
        match center, radius with
        | Some _, Some _ => (false, true, lengths, center, radius)
        | _, _ => (false, false, lengths, center, radius)
        end
    end in
  let finish (Ab : matrix * vector) : result box :=
    let (A, b) := Ab in
    if negb return_HSpaceRep then
      match polyhedron_from_Hrep (SageMatrix A) (SageVector b) base_ring with
      | Ok P => Ok (BoxPolyhedron P)
      | Error e => Error e
      end
    else Ok (BoxHrep A b) in
  if got_center_and_radius then
    match center, radius with
    | Some (NumberList center), Some (Number radius) =>
        let center := map (cast base_ring) center in
        let radius := cast base_ring radius in
        let ndim := List.length center in
        finish (box_rows base_ring ndim
                  (fun i => (nth i center 0 - radius, nth i center 0 + radius)))
    | _, _ => Error TypeError
    end
  else if got_lengths then
    match lengths with
    | Some (IntervalList lengths) =>
        let lengths := map (fun l => (cast base_ring (fst l), cast base_ring (snd l))) lengths in
        let ndim := List.length lengths in
        finish (box_rows base_ring ndim (fun i => nth i lengths (0, 0)))
    | _ => Error TypeError
    end
  else
    Error (ValueError "You should specify either center and radius or length of the sides.").

(** ** chebyshev_center *)

(** [[]] or [vector(cheby_center)] *)
Inductive center : Type :=
| EmptyList
| CenterVector (base_ring : ring) (c : list R).

(** [p.add_constraint(...)] for [i] in [range(0, n)] (lines 355-358) *)
Fixpoint chebyshev_constraints {T : Type} (A : matrix) (b : vector) (m : nat)
  (range : list nat) (k : prog T) : prog T :=
  match range with
  | [] => k
  | i :: range' =>
      let v := row A i in
      let norm := Sqrt (dot_product v v) in
      Call (add_constraint (Le (sum_x v m ++ [(norm, r_ 0%nat)]) (nth i (entries b) 0)))
           (chebyshev_constraints A b m range' k)
  end.

(** Lines 347-363, once [A] and [b] are known. *)
Definition chebyshev_center_Ab (A b : pyobj) : prog center :=
  match A with
  | PyList _ | PyTuple _ => Raise (AttributeError "base_ring")
  | PyPolyhedron _ | PyVector _ =>
      Call (MixedIntegerLinearProgram true None)
        (Call new_variable (Call new_variable (Raise (AttributeError "nrows"))))
  | PyMatrix A =>
      let base_ring := base_ring A in
      Call (MixedIntegerLinearProgram true None)
        (Call new_variable
          (Call new_variable
            (let n := nrows A in
             let m := ncols A in
             match b with
             | PyVector b =>
                 if negb (Nat.eqb n (length b)) then Return EmptyList
                 else
                   chebyshev_constraints A b m (seq 0 n)
                     (let f := map (fun i => (Rational 0, x_ i)) (seq 0 m)
                               ++ [(Rational 1, r_ 0%nat)] in
                      Call (set_objective f)
                        (Solve (fun sol =>
                           let cheby_center :=
                             map (fun i => get_values sol (x_ i)) (seq 0 m) in
                           Return (CenterVector base_ring cheby_center))))
             | _ => Raise (AttributeError "length")
             end)))
  end.

Definition chebyshev_center (P A b : option pyobj) : prog center :=
  (* parse input *)
  let '(got_P, got_Ab, P, A, b) :=
    match P with
    | Some P0 =>
        match A, b with
        | None, None => (true, false, P, A, b)
        | Some A0, None => (false, true, Some (PyList []), P, A)
        | _, _ => (false, false, P, A, b)
        end
    | None =>
        match A, b with
        | Some _, Some _ => (false, true, P, A, b)
        | _, _ => (false, false, P, A, b)
        end
    end in
  if got_Ab || got_P then
    if got_P then
      match P with
      | Some (PyPolyhedron P) =>
          match polyhedron_to_Hrep P false with
          | Hrep2 A b => chebyshev_center_Ab (PyMatrix A) (PyVector b)
          | Hrep4 _ _ _ _ => Raise (ValueError "too many values to unpack")
          end
      | _ => Raise (AttributeError "Hrep_generator")
      end
    else
      match A, b with
      | Some A, Some b => chebyshev_center_Ab A b
      | _, _ => Raise TypeError
      end
  else
    Raise (ValueError
      "The input should be either as a Polyhedron, P, or as matrices, [A, b].").

(** ** support_function *)

(** [oval], or the tuple [(oval, xopt)] *)
Inductive sf_value : Type :=
| Value (oval : R)
| ValueAndOptimizer (oval : R) (xopt : list R).

(** Lines 472-476: row [i] of [A] and entry [i] of [b] are written for the
    [i]-th generator, equation or not. *)
Definition sf_fill (acc : matrix * vector * nat) (pigen : Hrep_gen)
  : matrix * vector * nat :=
  let '(A, b, i) := acc in
  let pi_vec := gen_vector pigen in
  (set_row A i (vneg (skipn 1 pi_vec)), set_entry b i (nth 0 pi_vec 0), S i).

(** Lines 478-503, without the printing under [verbose]. *)
Definition sf_solve (A : matrix) (b : vector) (d : list Q) (return_xopt : bool)
  (solver : string) : prog sf_value :=
  Call (MixedIntegerLinearProgram true (Some solver))
    (Call new_variable
      (let obj := sum_x d (List.length d) in
       Call (set_objective obj)
         (Call (add_constraint (MatrixLe A b))
           (Solve (fun sol =>
              let oval := objective_value sol in
              (* the components of x the program has used *)
              let xopt := map (fun i => get_values sol (x_ i))
                              (seq 0 (Nat.max (List.length d) (ncols A))) in
              if return_xopt then Return (ValueAndOptimizer oval xopt)
              else Return (Value oval)))))).

Definition support_function (P : pyobj) (d : list Q) (return_xopt : bool)
  (solver : string) : prog sf_value :=
  match P with
  | PyList l =>
      match nth_error l 0, nth_error l 1 with
      | Some A, Some b =>
          match A, b with
          | PyMatrix A, PyVector b => sf_solve A b d return_xopt solver
          | _, _ =>
              (* A * x <= b is not defined *)
              Call (MixedIntegerLinearProgram true (Some solver))
                (Call new_variable
                  (Call (set_objective (sum_x d (List.length d))) (Raise TypeError)))
          end
      | _, _ => Raise IndexError
      end
  | PyPolyhedron P =>
      if is_empty P then
        (* avoid formulating the LP if P = [] *)
        Return (Value 0%R)
      else
        let base_ring := P_base_ring P in
        let m := List.length (Hrepresentation P) in
        match Hrepresentation P with
        | [] => Raise IndexError
        | g0 :: _ =>
            let n := (List.length (gen_vector g0) - 1)%nat in
            let b := zero_vec base_ring m in
            let A := zero_matrix base_ring m n in
            let '(A, b, _) := fold_left sf_fill (Hrepresentation P) (A, b, O) in
            sf_solve A b d return_xopt solver
        end
  | _ => Raise (AttributeError "is_empty")
  end.

(** ** radius *)

(** [abs(support_function(...))] *)
Definition abs_sf (v : sf_value) : prog R :=
  match v with
  | Value oval => Return (Rabs oval)
  | ValueAndOptimizer _ _ => Raise TypeError
  end.

(** Lines 402-414, on the running maximum [r]. *)
Fixpoint radius_loop (A b : pyobj) (n : nat) (range : list nat) (r : R) : prog R :=
  match range with
  | [] => Return r
  | i :: range' =>
      (* generate canonical direction *)
      let d := set_nth i (cast RDF 1) (zero_vector n) in
      bind (bind (support_function (PyList [A; b]) d false "GLPK") abs_sf)
        (fun aux_sf =>
           let r := if Rle_dec r aux_sf then aux_sf else r in
           (* change sign *)
           let d := set_nth i (cast RDF (-1)) d in
           bind (bind (support_function (PyList [A; b]) d false "GLPK") abs_sf)
             (fun aux_sf =>
                let r := if Rle_dec r aux_sf then aux_sf else r in
                radius_loop A b n range' r))
  end.

(** [None] is Python's [None]: the function has no [return] outside the
    branch [type(P) == list]. *)
Definition radius (P : pyobj) : prog (option R) :=
  match P with
  | PyList l =>
      match nth_error l 0, nth_error l 1 with
      | Some A, Some b =>
          match A with
          | PyMatrix A0 =>
              let n := ncols A0 in
              bind (radius_loop A b n (seq 0 n) 0%R) (fun snorm => Return (Some snorm))
          | _ => Raise (AttributeError "ncols")
          end
      | _, _ => Raise IndexError
      end
  | _ => Return None
  end.

(** ** diameter_vertex_enumeration *)

(** The norms [v.norm(p=p)] of a vector: [p=oo] (the default), [p=1], [p=2]. *)
Inductive norm_p : Type :=
| oo
| p1
| p2.

(** [max(abs(x) for x in v)] and [sum(abs(x) for x in v)] *)
Definition sup_abs (v : list Q) : Q := fold_right (fun x m => Qmax (Qabs x) m) 0 v.
Definition sum_abs (v : list Q) : Q := fold_right (fun x s => Qabs x + s) 0 v.

Definition norm (p : norm_p) (v : list Q) : R :=
  match p with
  | oo => Q2R (sup_abs v)
  | p1 => Q2R (sum_abs v)
  | p2 => sqrt (Q2R (dot_product v v))
  end.

(** [vector(v) - vector(w)] *)
Fixpoint vsub (v w : list Q) : list Q :=
  match v, w with
  | a :: v', b :: w' => (a - b) :: vsub v' w'
  | _, _ => []
  end.

(** The loop over [j] in [range(i+1, num_vertices)]. *)
Fixpoint diameter_inner (p : norm_p) (vi : list Q) (vs : list (list Q)) (diam : R) : R :=
  match vs with
  | [] => diam
  | vj :: vs' =>
      let dist_vi_vj := norm p (vsub vi vj) in
      diameter_inner p vi vs' (Rmax diam dist_vi_vj)
  end.

(** The loop over [i] in [range(num_vertices)]. *)
Fixpoint diameter_outer (p : norm_p) (vlist : list (list Q)) (diam : R) : R :=
  match vlist with
  | [] => diam
  | vi :: vs => diameter_outer p vs (diameter_inner p vi vs diam)
  end.

Definition diameter_vertex_enumeration (P : polyhedron) (p : norm_p) : R :=
  let diam := 0%R in
  let vlist := vertices_list P in
  diameter_outer p vlist diam.

End Embedding.

(** ** The ideal solver *)

Local Open Scope R_scope.

(** A point of the ambient space, by its coordinates. *)
Definition point : Type := nat -> R.

(** [sum of a[k] * x[j + k]] *)
Fixpoint dot_at (x : point) (a : list Q) (j : nat) : R :=
  match a with
  | [] => 0
  | c :: a' => Q2R c * x j + dot_at x a' (S j)
  end.

Definition coefficient_value (c : coefficient) : R :=
  match c with
  | Rational q => Q2R q
  | Sqrt q => sqrt (Q2R q)
  end.

Fixpoint eval_linear (val : mip_var -> R) (f : linear_function) : R :=
  match f with
  | [] => 0
  | (c, v) :: f' => coefficient_value c * val v + eval_linear val f'
  end.

Definition holds (val : mip_var -> R) (c : linear_constraint) : Prop :=
  match c with
  | Le lhs rhs => eval_linear val lhs <= Q2R rhs
  | MatrixLe A b =>
      Forall2 (fun row bi => dot_at (fun j => val (x_ j)) row 0 <= Q2R bi)
              (rows A) (entries b)
  end.

(** The state of a [MixedIntegerLinearProgram] object. *)
Record lp : Type := mk_lp {
  maximization : bool;
  objective : linear_function;
  constraints : list linear_constraint
}.

Definition mip_step (c : mip_call) (s : option lp) : option lp :=
  match c, s with
  | MixedIntegerLinearProgram maximization _, _ =>
      Some {| maximization := maximization; objective := []; constraints := [] |}
  | new_variable, _ => s
  | set_objective obj, Some p =>
      Some {| maximization := maximization p; objective := obj;
              constraints := constraints p |}
  | add_constraint c, Some p =>
      Some {| maximization := maximization p; objective := objective p;
              constraints := constraints p ++ [c] |}
  | _, None => None
  end.

Definition feasible (p : lp) (val : mip_var -> R) : Prop :=
  Forall (holds val) (constraints p).

(** [sol] is an answer of [solve()] on [p]: a feasible assignment whose
    objective value no feasible assignment improves. *)
Definition optimal (p : lp) (sol : solution) : Prop :=
  feasible p (get_values sol) /\
  objective_value sol = eval_linear (get_values sol) (objective p) /\
  forall val, feasible p val ->
    if maximization p
    then eval_linear val (objective p) <= objective_value sol
    else objective_value sol <= eval_linear val (objective p).

Inductive outcome (T : Type) : Type :=
| Returned (v : T)
| Raised (e : exn).
Arguments Returned {T} v.
Arguments Raised {T} e.

(** Running a program from the solver state [s].  [solve()] answers with an
    optimum when there is one and raises [MIPSolverException] otherwise
    (infeasible or unbounded problem). *)
Inductive exec {T : Type} : option lp -> prog T -> outcome T -> Prop :=
| exec_Return s v :
    exec s (Return v) (Returned v)
| exec_Raise s e :
    exec s (Raise e) (Raised e)
| exec_Call s c k o :
    exec (mip_step c s) k o ->
    exec s (Call c k) o
| exec_Solve p k sol o :
    optimal p sol ->
    exec (Some p) (k sol) o ->
    exec (Some p) (Solve k) o
| exec_Solve_fails p k :
    (forall sol, ~ optimal p sol) ->
    exec (Some p) (Solve k) (Raised MIPSolverException).

Definition runs {T : Type} (p : prog T) (o : outcome T) : Prop := exec None p o.

(** ** The Polyhedron constructor *)

(** A generator [[β, a]] at a point: [a.x + β = 0] for an equation,
    [a.x + β >= 0] otherwise. *)
Definition gen_holds (x : point) (g : Hrep_gen) : Prop :=
  if is_equation g
  then dot_at x (gen_A g) 0 + Q2R (gen_b g) = 0
  else 0 <= dot_at x (gen_A g) 0 + Q2R (gen_b g).

(** A row [[β, a]] of [ieqs]: [a.x + β >= 0]. *)
Definition ieq_holds (x : point) (ieq : list Q) : Prop :=
  0 <= dot_at x (skipn 1 ieq) 0 + Q2R (nth 0 ieq 0%Q).

(** What the module relies on from [Polyhedron(ieqs=...)]: on rows of
    length [ambient_dim + 1], the object's generators have [ambient_dim]
    coefficients, they describe the set of the rows, and the object reports
    itself empty only when that set is. *)
Definition Polyhedron_spec
  (Polyhedron : list (list Q) -> ring -> nat -> string -> polyhedron) : Prop :=
  forall ieqs R n backend,
    Forall (fun ieq => List.length ieq = S n) ieqs ->
    let P := Polyhedron ieqs R n backend in
    Forall (fun g => List.length (gen_A g) = n) (Hrepresentation P) /\
    (forall x, Forall (gen_holds x) (Hrepresentation P) <-> Forall (ieq_holds x) ieqs) /\
    (is_empty P = true -> ~ exists x, Forall (ieq_holds x) ieqs).

(** The constructor that keeps every row as an inequality generator. *)
Definition Polyhedron_of_rows (ieqs : list (list Q)) (R : ring) (n : nat)
  (backend : string) : polyhedron :=
  {| P_base_ring := R;
     ambient_dim := n;
     Hrepresentation :=
       map (fun ieq => {| is_equation := false; gen_b := nth 0 ieq 0%Q;
                          gen_A := skipn 1 ieq |}) ieqs;
     is_empty := false;
     vertices_list := [] |}.

(** The points of [{x : A x <= b}]. *)
Definition Hrep_holds (A : matrix) (b : vector) (x : point) : Prop :=
  Forall2 (fun row bi => dot_at x row 0 <= Q2R bi) (rows A) (entries b).

(** ** The scaled hypercube *)

(** The vertices of Sage's [polytopes.hypercube(n)]: the points of
    [{1, -1}^n]. *)
Fixpoint hypercube_vertices (n : nat) : list (list Q) :=
  match n with
  | O => [[]]
  | S n' =>
      map (cons 1%Q) (hypercube_vertices n') ++ map (cons (-1)%Q) (hypercube_vertices n')
  end.

(** The vertices of [s * P]. *)
Definition dilation (s : Q) (vs : list (list Q)) : list (list Q) :=
  map (map (Qmult s)) vs.

(** ** Readers used in the statements *)

(** The base rings of the objects in a list returned by
    [polyhedron_to_Hrep], and the numbers they hold. *)
Definition Hrep_rings (h : Hrep_lists) : list ring :=
  match h with
  | Hrep2 A b => [base_ring A; vbase_ring b]
  | Hrep4 A b Aeq beq => [base_ring A; vbase_ring b; base_ring Aeq; vbase_ring beq]
  end.

Definition Hrep_numbers (h : Hrep_lists) : list Q :=
  match h with
  | Hrep2 A b => List.concat (rows A) ++ entries b
  | Hrep4 A b Aeq beq =>
      List.concat (rows A) ++ entries b ++ List.concat (rows Aeq) ++ entries beq
  end.

(** The point that an assignment of the solver gives to [x]. *)
Definition x_of (val : mip_var -> R) : point := fun j => val (x_ j).

Definition point_of (l : list R) : point := fun i => nth i l 0.

(** [λ * d] and [d1 + d2] on directions. *)
Definition vscale (l : Q) (d : list Q) : list Q := map (Qmult l) d.

Fixpoint vadd (d1 d2 : list Q) : list Q :=
  match d1, d2 with
  | a :: d1', b :: d2' => (a + b)%Q :: vadd d1' d2'
  | _, _ => []
  end.

(** The problem [s_LP] at the call of [solve()] in [sf_solve]. *)
Definition sf_lp (A : matrix) (b : vector) (d : list Q) : lp :=
  {| maximization := true;
     objective := sum_x d (List.length d);
     constraints := [MatrixLe A b] |}.

(** What [sf_solve] returns on the answer [sol] of the solver. *)
Definition sf_answer (A : matrix) (d : list Q) (return_xopt : bool) (sol : solution)
  : sf_value :=
  if return_xopt
  then ValueAndOptimizer (objective_value sol)
         (map (fun i => get_values sol (x_ i))
              (seq 0 (Nat.max (List.length d) (ncols A))))
  else Value (objective_value sol).

(** The matrix and the vector that lines 466-476 extract from a polytope
    object: row [-a] and bound [β] for every generator [[β, a]]. *)
Definition sf_matrix (P : polyhedron) : matrix :=
  {| base_ring := P_base_ring P;
     ncols := match Hrepresentation P with
              | [] => O
              | g0 :: _ => List.length (gen_A g0)
              end;
     rows := map (fun g => vneg (gen_A g)) (Hrepresentation P) |}.

Definition sf_vector (P : polyhedron) : vector :=
  {| vbase_ring := P_base_ring P; entries := map gen_b (Hrepresentation P) |}.

(** A check on all pairs of a concrete vertex list. *)
Definition all_pairs (check : list Q -> bool) (vertices : list (list Q)) : bool :=
  forallb (fun u => forallb (fun v => check (vsub u v)) vertices) vertices.

Ltac Q2R_consts := unfold Q2R; simpl Qnum; simpl Qden.

(** ** Polytopes of the examples *)

(** The polytope [{x : x = 1}] of the line: one equation, [x - 1 = 0]. *)
Definition P_point : polyhedron :=
  {| P_base_ring := QQ;
     ambient_dim := 1;
     Hrepresentation := [{| is_equation := true; gen_b := (-1)%Q; gen_A := [1%Q] |}];
     is_empty := false;
     vertices_list := [[1%Q]] |}.

(** An empty polytope of the line: [-1 >= 0]. *)
Definition P_empty : polyhedron :=
  {| P_base_ring := QQ;
     ambient_dim := 1;
     Hrepresentation := [{| is_equation := false; gen_b := (-1)%Q; gen_A := [0%Q] |}];
     is_empty := true;
     vertices_list := [] |}.

(** [7 * polytopes.hypercube(5)], with the vertices in the order of
    [hypercube_vertices]. *)
Definition P_hypercube5 : polyhedron :=
  {| P_base_ring := OtherRing "ZZ";
     ambient_dim := 5;
     Hrepresentation :=
       flat_map (fun i => [ {| is_equation := false; gen_b := 7%Q;
                               gen_A := vneg (set_nth i 1%Q (zero_vector 5)) |};
                            {| is_equation := false; gen_b := 7%Q;
                               gen_A := set_nth i 1%Q (zero_vector 5) |} ])
                (seq 0 5);
     is_empty := false;
     vertices_list := dilation 7 (hypercube_vertices 5) |}.

(** The rows that [BoxInfty([1,2,3], 1)] passes to [Polyhedron(ieqs=...)]. *)
Definition box_ieqs : list (list Q) :=
  [[2; -1; 0; 0]; [0; 1; 0; 0]; [3; 0; -1; 0];
   [-1; 0; 1; 0]; [4; 0; 0; -1]; [-2; 0; 0; 1]]%Q.

(** The box itself: [[0,2] x [1,3] x [2,4]]. *)
Definition in_box (x : point) : Prop :=
  (0 <= x 0%nat <= 2) /\ (1 <= x 1%nat <= 3) /\ (2 <= x 2%nat <= 4).

(** The polytope of [BoxInfty([1,2,3], 1)] as the constructor
    [Polyhedron_of_rows] builds it. *)
Definition P_box : polyhedron := Polyhedron_of_rows box_ieqs QQ 3%nat "ppl".

(** ** Fourier-Motzkin elimination *)

(** A constraint [(a, β)] over the reals, read from the coordinate [j] on:
    [sum of a[k] * x[j + k] <= β]. *)
Definition rconstraint : Type := (list R * R)%type.

Fixpoint rdot (x : point) (a : list R) (j : nat) : R :=
  match a with
  | [] => 0
  | c :: a' => c * x j + rdot x a' (S j)
  end.

Definition csat (x : point) (j : nat) (c : rconstraint) : Prop :=
  rdot x (fst c) j <= snd c.

(** The coefficient of the first coordinate a constraint reads. *)
Definition head (c : rconstraint) : R := hd 0 (fst c).

(** The point [x] with the coordinate [j] set to [t]. *)
Definition upd (x : point) (j : nat) (t : R) : point :=
  fun i => if Nat.eqb i j then t else x i.

(** [s * a + b], the shorter list padded with zeros. *)
Fixpoint vaxpy (s : R) (a b : list R) : list R :=
  match a, b with
  | [], _ => b
  | _, [] => map (Rmult s) a
  | u :: a', v :: b' => (s * u + v) :: vaxpy s a' b'
  end.

Definition is_pos (c : rconstraint) : bool := if Rlt_dec 0 (head c) then true else false.
Definition is_neg (c : rconstraint) : bool := if Rlt_dec (head c) 0 then true else false.
Definition is_zero (c : rconstraint) : bool := negb (is_pos c) && negb (is_neg c).

Definition drop_head (c : rconstraint) : rconstraint := (tl (fst c), snd c).

(** The constraint without [x j] that follows from an upper bound [p] and
    a lower bound [q] on [x j]. *)
Definition combine_bounds (p q : rconstraint) : rconstraint :=
  (vaxpy (- head q) (tl (fst p)) (map (Rmult (head p)) (tl (fst q))),
   - head q * snd p + head p * snd q).

(** One step of the elimination: the first coordinate leaves. *)
Definition fm (sys : list rconstraint) : list rconstraint :=
  map drop_head (filter is_zero sys)
  ++ flat_map (fun p => map (combine_bounds p) (filter is_neg sys)) (filter is_pos sys).

Fixpoint eliminate (k : nat) (sys : list rconstraint) : list rconstraint :=
  match k with
  | O => sys
  | S k' => eliminate k' (fm sys)
  end.

(** The LP of [support_function] as a system over the reals, with one more
    unknown [t = x n] under the objective: [A x <= b] and [t <= d.x]. *)
Definition lp_width (A : matrix) (d : list Q) : nat :=
  fold_right Nat.max (List.length d) (map (@List.length Q) (rows A)).

Definition lp_system (A : matrix) (b : vector) (d : list Q) : list rconstraint :=
  map (fun rb => (map Q2R (fst rb), Q2R (snd rb))) (combine (rows A) (entries b))
  ++ [(map Q2R (vneg d) ++ repeat 0 (lp_width A d - List.length d) ++ [1], 0)].

(** ** Readers for the further properties *)

(** The points of [{x : Aeq x = beq}]. *)
Definition Hrep_eq_holds (Aeq : matrix) (beq : vector) (x : point) : Prop :=
  Forall2 (fun row bi => dot_at x row 0 = Q2R bi) (rows Aeq) (entries beq).

(** The points of a polytope object, by its generators. *)
Definition in_polyhedron (P : polyhedron) (x : point) : Prop :=
  Forall (gen_holds x) (Hrepresentation P).

(** [q] and [-q] are doubles: the conversion leaves them as they are. *)
Definition is_double (RDF_round : Q -> Q) (q : Q) : Prop :=
  (RDF_round q == q)%Q /\ (RDF_round (- q) == - q)%Q.

(** The coefficients of the generators are doubles. *)
Definition doubles (RDF_round : Q -> Q) (gens : list Hrep_gen) : Prop :=
  Forall (fun g => is_double RDF_round (gen_b g) /\
                   Forall (is_double RDF_round) (gen_A g)) gens.

(** The rows and bounds that the default branch appends for a generator. *)
Definition default_rows (g : Hrep_gen) : list (list Q) :=
  if is_equation g then [vneg (gen_A g); gen_A g] else [vneg (gen_A g)].

Definition default_bounds (g : Hrep_gen) : list Q :=
  if is_equation g then [gen_b g; gen_b g] else [gen_b g].

Definition is_inequality (g : Hrep_gen) : bool := negb (is_equation g).
(** ** The LP of chebyshev_center *)

(** The constraint that line 358 adds for row [i]. *)
Definition chebyshev_constraint (A : matrix) (b : vector) (m i : nat) : linear_constraint :=
  Le (sum_x (row A i) m ++ [(Sqrt (dot_product (row A i) (row A i)), r_ 0%nat)])
     (nth i (entries b) 0%Q).

(** The objective of line 359. *)
Definition chebyshev_objective (m : nat) : linear_function :=
  map (fun i => (Rational 0, x_ i)) (seq 0 m) ++ [(Rational 1, r_ 0%nat)].

(** The LP at the call of [solve()]. *)
Definition chebyshev_lp (A : matrix) (b : vector) : lp :=
  {| maximization := true;
     objective := chebyshev_objective (ncols A);
     constraints := map (chebyshev_constraint A b (ncols A)) (seq 0 (nrows A)) |}.

(** The rows and bounds that [box_step] writes for the axis [i]. *)
Definition box_axis_rows (ndim i : nat) : list (list Q) :=
  [set_nth i 1%Q (zero_vector ndim); vneg (set_nth i 1%Q (zero_vector ndim))].

Definition box_axis_bounds (bounds : nat -> Q * Q) (i : nat) : list Q :=
  [snd (bounds i); (- fst (bounds i))%Q].

(** The box [lo_i <= x_i <= hi_i] for [i < ndim]. *)
Definition in_intervals (ndim : nat) (bounds : nat -> Q * Q) (x : point) : Prop :=
  forall i, (i < ndim)%nat -> Q2R (fst (bounds i)) <= x i <= Q2R (snd (bounds i)).

(** ** opposite_polyhedron *)

(** [Polyhedron_V] stands for [Polyhedron(vertices=..., base_ring=...)];
    [None] for the argument [base_ring] is Python's [None]. *)
Definition opposite_polyhedron
  (Polyhedron_V : list (list Q) -> ring -> polyhedron)
  (P : polyhedron) (base_ring : option ring) : polyhedron :=
  let base_ring :=
    match base_ring with
    | None => P_base_ring P
    | Some R => R
    end in
  Polyhedron_V (map (fun v => map (Qmult (-1)) v) (vertices_list P)) base_ring.

(** The constructor that keeps the points it is given as the vertex list. *)
Definition Polyhedron_of_vertices (vertices : list (list Q)) (R : ring) : polyhedron :=
  {| P_base_ring := R;
     ambient_dim := match vertices with [] => O | v :: _ => List.length v end;
     Hrepresentation := [];
     is_empty := match vertices with [] => true | _ => false end;
     vertices_list := vertices |}.

(** ** The directions of radius *)

(** The vector [d] of lines 404-405 ([s = 1]) and of line 411 ([s = -1])
    at the turn [i] of the loop, in dimension [n]. *)
Definition radius_direction (RDF_round : Q -> Q) (n i : nat) (s : Q) : list Q :=
  set_nth i (cast RDF_round RDF s) (zero_vector n).

(** ** diameter_support_function *)

(** [In.column(j)] for [In = identity_matrix(n)] *)
Definition identity_column (n j : nat) : list Q := set_nth j 1%Q (zero_vector n).

(** The number that [support_function] returns without [return_xopt]
    (a tuple has no opposite). *)
Definition sf_number (v : sf_value) : prog R :=
  match v with
  | Value oval => Return oval
  | ValueAndOptimizer _ _ => Raise TypeError
  end.

(** Lines 739-741. lower : min x_j *)
Fixpoint dsf_lower (A b : pyobj) (n : nat) (range : list nat) (l : list R)
  : prog (list R) :=
  match range with
  | [] => Return l
  | j :: range' =>
      bind (support_function (PyList [A; b]) (vneg (identity_column n j)) false "GLPK")
        (fun sf => bind (sf_number sf)
                     (fun oval => dsf_lower A b n range' (l ++ [- oval])))
  end.

(** Lines 745-747. upper : max x_j *)
Fixpoint dsf_upper (A b : pyobj) (n : nat) (range : list nat) (u : list R)
  : prog (list R) :=
  match range with
  | [] => Return u
  | j :: range' =>
      bind (support_function (PyList [A; b]) (identity_column n j) false "GLPK")
        (fun sf => bind (sf_number sf)
                     (fun oval => dsf_upper A b n range' (u ++ [oval])))
  end.

(** [u - l] on vectors of numbers *)
Definition vsub_R (u l : list R) : list R :=
  map (fun ul => fst ul - snd ul) (combine u l).

(** Python's [max] of a sequence: [ValueError] on an empty one. *)
Definition max_of (w : list R) : result R :=
  match w with
  | [] => Error (ValueError "max() arg is an empty sequence")
  | w0 :: ws => Ok (fold_left Rmax ws w0)
  end.

(** The tuple [(diam, u, l)]. *)
Definition diameter_support_function (A b : pyobj) : prog (R * list R * list R) :=
  match A with
  | PyMatrix A0 =>
      (* ambient dimension *)
      let n := ncols A0 in
      bind (dsf_lower A b n (seq 0 n) []) (fun l =>
      bind (dsf_upper A b n (seq 0 n) []) (fun u =>
        match max_of (vsub_R u l) with
        | Ok diam => Return (diam, u, l)
        | Error e => Raise e
        end))
  | _ => Raise (AttributeError "ncols")
  end.

(** [v] is the least value of the coordinate [x_j] on [{x : A x <= b}],
    and [v] is the greatest. *)
Definition coordinate_min (A : matrix) (b : vector) (j : nat) (v : R) : Prop :=
  (forall x, Hrep_holds A b x -> v <= x j) /\ (exists x, Hrep_holds A b x /\ x j = v).

Definition coordinate_max (A : matrix) (b : vector) (j : nat) (v : R) : Prop :=
  (forall x, Hrep_holds A b x -> x j <= v) /\ (exists x, Hrep_holds A b x /\ x j = v).

(** ** Sets of the examples *)

(** The segment [[-1, 1]] of the line: [x <= 1] and [-x <= 1]. *)
Definition A_segment : matrix :=
  {| base_ring := QQ; ncols := 1; rows := [[1%Q]; [(-1)%Q]] |}.

Definition b_segment : vector := {| vbase_ring := QQ; entries := [1%Q; 1%Q] |}.



(** ** Properties *)

Lemma ring_eqb_eq (R S : ring) : ring_eqb R S = true <-> R = S.
Proof.
  destruct R, S; simpl; split; intro H; try congruence; try reflexivity.
  - apply String.eqb_eq in H. now subst.
  - apply String.eqb_eq. congruence.
Qed.

Lemma ring_eqb_neq (R S : ring) : R <> S -> ring_eqb R S = false.
Proof.
  intro H. destruct (ring_eqb R S) eqn:E; [|reflexivity].
  apply ring_eqb_eq in E. contradiction.
Qed.

(** *** polyhedron_to_Hrep *)

Section ToHrep.

Variable RDF_round : Q -> Q.

Lemma matrix_of_rows_doubles (A : list (list Q)) :
  Forall (fun q => exists q0, q = RDF_round q0)
    (List.concat (rows (matrix_of_rows RDF_round RDF A))).
Proof.
  simpl. induction A as [|r A IH]; simpl; [constructor|].
  apply Forall_app. split; [|exact IH].
  apply Forall_forall. intros q Hq. apply in_map_iff in Hq.
  destruct Hq as [q0 [<- _]]. now exists q0.
Qed.

Lemma vector_of_list_doubles (b : list Q) :
  Forall (fun q => exists q0, q = RDF_round q0)
    (entries (vector_of_list RDF_round RDF b)).
Proof.
  simpl. apply Forall_forall. intros q Hq. apply in_map_iff in Hq.
  destruct Hq as [q0 [<- _]]. now exists q0.
Qed.

(** C9: in both modes every matrix and vector that [polyhedron_to_Hrep]
    returns has base ring [RDF], whatever the base ring of the polytope, and
    every number in them is the image of a coefficient under the conversion
    to a double. *)
Theorem polyhedron_to_Hrep_in_RDF (P : polyhedron) (separate_equality_constraints : bool) :
  Forall (eq RDF)
    (Hrep_rings (polyhedron_to_Hrep RDF_round P separate_equality_constraints)) /\
  Forall (fun q => exists q0, q = RDF_round q0)
    (Hrep_numbers (polyhedron_to_Hrep RDF_round P separate_equality_constraints)).
Proof.
  unfold polyhedron_to_Hrep.
  destruct separate_equality_constraints; simpl negb; cbv iota.
  - destruct (fold_left to_Hrep_sep_step (Hrepresentation P) ([], [], ([], [])))
      as [[A b] [Aeq beq]].
    split.
    + simpl. repeat constructor.
    + unfold Hrep_numbers.
      repeat (apply Forall_app; split);
        first [apply matrix_of_rows_doubles | apply vector_of_list_doubles].
  - destruct (fold_left to_Hrep_step (Hrepresentation P) ([], [])) as [A b].
    split.
    + simpl. repeat constructor.
    + unfold Hrep_numbers.
      repeat (apply Forall_app; split);
        first [apply matrix_of_rows_doubles | apply vector_of_list_doubles].
Qed.

End ToHrep.

Lemma to_Hrep_step_equation (A : list (list Q)) (b : list Q) (g : Hrep_gen) :
  is_equation g = true ->
  to_Hrep_step (A, b) g
  = (A ++ [vneg (gen_A g); gen_A g], b ++ [gen_b g; gen_b g]).
Proof.
  intro H. unfold to_Hrep_step. rewrite H. simpl.
  now rewrite <- !app_assoc.
Qed.

Lemma to_Hrep_step_inequality (A : list (list Q)) (b : list Q) (g : Hrep_gen) :
  is_equation g = false ->
  to_Hrep_step (A, b) g = (A ++ [vneg (gen_A g)], b ++ [gen_b g]).
Proof.
  intro H. unfold to_Hrep_step. now rewrite H.
Qed.

Lemma Q2R_one : Q2R 1 = 1.
Proof. unfold Q2R. simpl. lra. Qed.

Lemma Q2R_minus_one : Q2R (-1) = -1.
Proof. unfold Q2R. simpl. lra. Qed.

(** C1: on the polytope [{x : x = 1}], whose only generator is the equation
    [[-1, 1]], the default mode returns the rows [-1] and [+1] with the
    bound [-1] on both: the point [1] of the polytope violates the second
    row, [x <= -1].  (The conversion to doubles is only assumed exact on
    [1] and [-1].) *)
Theorem polyhedron_to_Hrep_equation_bound (RDF_round : Q -> Q) :
  (RDF_round 1 == 1)%Q ->
  (RDF_round (-1) == -1)%Q ->
  polyhedron_to_Hrep RDF_round P_point false
  = Hrep2 {| base_ring := RDF; ncols := 1;
             rows := [[RDF_round (-1)%Q]; [RDF_round 1%Q]] |}
          {| vbase_ring := RDF; entries := [RDF_round (-1)%Q; RDF_round (-1)%Q] |} /\
  Forall (gen_holds (fun _ => 1)) (Hrepresentation P_point) /\
  ~ Hrep_holds {| base_ring := RDF; ncols := 1;
                  rows := [[RDF_round (-1)%Q]; [RDF_round 1%Q]] |}
               {| vbase_ring := RDF; entries := [RDF_round (-1)%Q; RDF_round (-1)%Q] |}
               (fun _ => 1).
Proof.
  intros H1 Hm1. split; [reflexivity|]. split.
  - constructor; [|constructor].
    unfold gen_holds. simpl. rewrite Q2R_one, Q2R_minus_one. lra.
  - unfold Hrep_holds. simpl. intro H.
    inversion H as [|r1 b1 rs bs _ H2]; subst.
    inversion H2 as [|r2 b2 rs' bs' Hrow _]; subst.
    simpl in Hrow.
    rewrite (Qeq_eqR _ _ H1), (Qeq_eqR _ _ Hm1), Q2R_one, Q2R_minus_one in Hrow.
    lra.
Qed.

Lemma polyhedron_to_Hrep_equation_bound_witness :
  polyhedron_to_Hrep (fun q => q) P_point false
  = Hrep2 {| base_ring := RDF; ncols := 1; rows := [[(-1)%Q]; [1%Q]] |}
          {| vbase_ring := RDF; entries := [(-1)%Q; (-1)%Q] |} /\
  Forall (gen_holds (fun _ => 1)) (Hrepresentation P_point) /\
  ~ Hrep_holds {| base_ring := RDF; ncols := 1; rows := [[(-1)%Q]; [1%Q]] |}
               {| vbase_ring := RDF; entries := [(-1)%Q; (-1)%Q] |}
               (fun _ => 1).
Proof.
  apply (polyhedron_to_Hrep_equation_bound (fun q => q)); reflexivity.
Defined.

(** *** polyhedron_from_Hrep *)

Lemma copy_is_not_bound : name_bound "copy" = false.
Proof. reflexivity. Qed.

Lemma cast_by_index_total (R : ring) (RDF_round : Q -> Q) (b : list Q) (m : nat) :
  (m <= List.length b)%nat ->
  exists l, cast_by_index RDF_round R b (seq 0 m) = Ok l.
Proof.
  intro Hm.
  assert (H : forall range, Forall (fun i => (i < List.length b)%nat) range ->
            exists l, cast_by_index RDF_round R b range = Ok l).
  { induction range as [|i range IH]; intro HF.
    - now exists [].
    - inversion HF as [|? ? Hi HF']; subst. simpl.
      destruct (nth_error b i) as [bi|] eqn:E.
      + destruct (IH HF') as [l ->]. now eexists.
      + apply nth_error_None in E. lia. }
  apply H. apply Forall_forall. intros i Hi. apply in_seq in Hi. lia.
Qed.

(** C5: a raw array [A] with a raw array [b] of as many entries as [A] has
    rows, for the base ring [QQ] as for [RDF]: the entries are cast, then
    the call [copy(...)] of lines 255 and 286 raises [NameError], because
    the module binds no name [copy]; no polytope is built. *)
Theorem polyhedron_from_Hrep_numpy_NameError
  (RDF_round : Q -> Q)
  (Polyhedron : list (list Q) -> ring -> nat -> string -> polyhedron)
  (a : list (list Q)) (b : list Q) (base_ring : ring) :
  base_ring = QQ \/ base_ring = RDF ->
  List.length b = shape0 a ->
  polyhedron_from_Hrep RDF_round Polyhedron (NumpyMatrix a) (NumpyVector b) base_ring
  = Error (NameError "copy").
Proof.
  intros [-> | ->] Hb; unfold polyhedron_from_Hrep; simpl ring_eqb; cbv iota.
  - destruct (cast_by_index_total QQ RDF_round b (shape0 a)) as [l Hl]; [simpl; lia|].
    simpl items. rewrite Hl. now rewrite copy_is_not_bound.
  - simpl items. rewrite Hb, Nat.eqb_refl. now rewrite copy_is_not_bound.
Qed.

Lemma polyhedron_from_Hrep_numpy_NameError_witness :
  polyhedron_from_Hrep (fun q => q) Polyhedron_of_rows
    (NumpyMatrix [[1%Q; 0%Q]; [0%Q; 1%Q]]) (NumpyVector [1%Q; 1%Q]) QQ
  = Error (NameError "copy").
Proof.
  apply (polyhedron_from_Hrep_numpy_NameError (fun q => q) Polyhedron_of_rows
           [[1%Q; 0%Q]; [0%Q; 1%Q]] [1%Q; 1%Q] QQ).
  - left. reflexivity.
  - reflexivity.
Defined.

(** C7: for a base ring that is neither [RDF] nor [QQ], whatever [A] and
    [b] are, the constructor raises [ValueError] with the message that
    names the unsupported base ring, and returns no polytope. *)
Theorem polyhedron_from_Hrep_unsupported_ring
  (RDF_round : Q -> Q)
  (Polyhedron : list (list Q) -> ring -> nat -> string -> polyhedron)
  (A : matrix_arg) (b : vector_arg) (base_ring : ring) :
  base_ring <> RDF ->
  base_ring <> QQ ->
  polyhedron_from_Hrep RDF_round Polyhedron A b base_ring
  = Error (ValueError "Base ring not supported. Try with RDF or QQ.").
Proof.
  intros HR HQ. unfold polyhedron_from_Hrep.
  now rewrite (ring_eqb_neq _ _ HR), (ring_eqb_neq _ _ HQ).
Qed.

Lemma polyhedron_from_Hrep_unsupported_ring_witness :
  polyhedron_from_Hrep (fun q => q) Polyhedron_of_rows
    (SageMatrix {| base_ring := QQ; ncols := 1; rows := [[1%Q]] |})
    (SageVector {| vbase_ring := QQ; entries := [1%Q] |})
    (OtherRing "ZZ")
  = Error (ValueError "Base ring not supported. Try with RDF or QQ.").
Proof.
  apply (polyhedron_from_Hrep_unsupported_ring (fun q => q) Polyhedron_of_rows);
    discriminate.
Defined.

(** *** Running programs *)

Lemma exec_Return_iff {T : Type} (s : option lp) (v : T) (o : outcome T) :
  exec s (Return v) o <-> o = Returned v.
Proof.
  split.
  - intro H. now inversion H.
  - intros ->. constructor.
Qed.

Lemma exec_Raise_iff {T : Type} (s : option lp) (e : exn) (o : outcome T) :
  exec s (Raise e) o <-> o = Raised e.
Proof.
  split.
  - intro H. now inversion H.
  - intros ->. constructor.
Qed.

Lemma exec_Call_iff {T : Type} (s : option lp) (c : mip_call) (k : prog T) (o : outcome T) :
  exec s (Call c k) o <-> exec (mip_step c s) k o.
Proof.
  split.
  - intro H. now inversion H.
  - intro H. now constructor.
Qed.

(** After [solve()] on a problem with an optimum: the outcomes are those of
    the continuation on the optima. *)
Lemma exec_Solve_iff {T : Type} (p : lp) (k : solution -> prog T) (o : outcome T) :
  (exists sol, optimal p sol) ->
  exec (Some p) (Solve k) o <-> exists sol, optimal p sol /\ exec (Some p) (k sol) o.
Proof.
  intros [sol0 H0]. split.
  - intro H. inversion H; subst.
    + eauto.
    + exfalso.
      match goal with Hno : forall sol, ~ optimal p sol |- _ => exact (Hno sol0 H0) end.
  - intros [sol [Hs He]]. econstructor; eauto.
Qed.

(** *** support_function on an empty polytope *)

(** C6: for a polytope object that reports itself empty, whatever the
    direction and the options, [support_function] is the program that
    returns [0]: it makes no call on the solver interface and does not
    reach [solve()]. *)
Theorem support_function_empty
  (P : polyhedron) (d : list Q) (return_xopt : bool) (solver : string) :
  is_empty P = true ->
  support_function (PyPolyhedron P) d return_xopt solver = Return (Value 0) /\
  mip_calls (support_function (PyPolyhedron P) d return_xopt solver) = [] /\
  invokes_solver (support_function (PyPolyhedron P) d return_xopt solver) = false /\
  forall o, runs (support_function (PyPolyhedron P) d return_xopt solver) o
            <-> o = Returned (Value 0).
Proof.
  intro H. unfold runs. simpl. rewrite H. repeat split.
  - intro He. now apply exec_Return_iff in He.
  - intros ->. constructor.
Qed.

Lemma support_function_empty_witness :
  support_function (PyPolyhedron P_empty) [1%Q] true "GLPK" = Return (Value 0) /\
  mip_calls (support_function (PyPolyhedron P_empty) [1%Q] true "GLPK") = [] /\
  invokes_solver (support_function (PyPolyhedron P_empty) [1%Q] true "GLPK") = false /\
  forall o, runs (support_function (PyPolyhedron P_empty) [1%Q] true "GLPK") o
            <-> o = Returned (Value 0).
Proof.
  apply (support_function_empty P_empty [1%Q] true "GLPK"). reflexivity.
Defined.

(** *** radius *)

(** C10: on an argument that is not a list (a polytope object, a tuple, a
    matrix) [radius] is the program that returns [None]: no support function
    is evaluated and nothing is raised.  So a run of [radius] that returns a
    number was given a list. *)
Theorem radius_not_a_list (RDF_round : Q -> Q) (P : pyobj) :
  (forall l, P <> PyList l) ->
  radius RDF_round P = Return None /\
  invokes_solver (radius RDF_round P) = false /\
  forall o, runs (radius RDF_round P) o <-> o = Returned None.
Proof.
  intro H.
  assert (E : radius RDF_round P = Return None).
  { destruct P; try reflexivity. exfalso. now apply (H l). }
  rewrite E. repeat split.
  - intro He. now apply exec_Return_iff in He.
  - intros ->. constructor.
Qed.

Lemma radius_not_a_list_witness :
  radius (fun q => q) (PyPolyhedron P_point) = Return None /\
  invokes_solver (radius (fun q => q) (PyPolyhedron P_point)) = false /\
  forall o, runs (radius (fun q => q) (PyPolyhedron P_point)) o <-> o = Returned None.
Proof.
  apply (radius_not_a_list (fun q => q) (PyPolyhedron P_point)). discriminate.
Defined.

(** *** chebyshev_center *)

(** C4: for [A] and [b] given by keyword or as the first two positional
    arguments, with a row count of [A] other than the length of [b],
    [chebyshev_center] creates the LP and its two variable families and
    returns the empty list: it adds no constraint, does not reach [solve()]
    and raises nothing. *)
Theorem chebyshev_center_dimension_mismatch
  (RDF_round : Q -> Q) (P A b : option pyobj) (A0 : matrix) (b0 : vector) :
  (P = None /\ A = Some (PyMatrix A0) /\ b = Some (PyVector b0)) \/
  (P = Some (PyMatrix A0) /\ A = Some (PyVector b0) /\ b = None) ->
  nrows A0 <> length b0 ->
  chebyshev_center RDF_round P A b
  = Call (MixedIntegerLinearProgram true None)
      (Call new_variable (Call new_variable (Return EmptyList))) /\
  existsb is_add_constraint (mip_calls (chebyshev_center RDF_round P A b)) = false /\
  invokes_solver (chebyshev_center RDF_round P A b) = false /\
  forall o, runs (chebyshev_center RDF_round P A b) o <-> o = Returned EmptyList.
Proof.
  intros Hargs Hn.
  assert (E : chebyshev_center RDF_round P A b
              = Call (MixedIntegerLinearProgram true None)
                  (Call new_variable (Call new_variable (Return EmptyList)))).
  { apply Nat.eqb_neq in Hn.
    destruct Hargs as [(-> & -> & ->) | (-> & -> & ->)];
      unfold chebyshev_center, chebyshev_center_Ab; simpl; now rewrite Hn. }
  rewrite E. repeat split.
  - unfold runs. rewrite !exec_Call_iff. apply exec_Return_iff.
  - intros ->. unfold runs. rewrite !exec_Call_iff. constructor.
Qed.

Lemma chebyshev_center_dimension_mismatch_witness :
  let A0 := {| base_ring := QQ; ncols := 1; rows := [[1%Q]; [(-1)%Q]] |} in
  let b0 := {| vbase_ring := QQ; entries := [1%Q] |} in
  chebyshev_center (fun q => q) (Some (PyMatrix A0)) (Some (PyVector b0)) None
  = Call (MixedIntegerLinearProgram true None)
      (Call new_variable (Call new_variable (Return EmptyList))) /\
  existsb is_add_constraint
    (mip_calls (chebyshev_center (fun q => q) (Some (PyMatrix A0)) (Some (PyVector b0)) None))
  = false /\
  invokes_solver (chebyshev_center (fun q => q) (Some (PyMatrix A0)) (Some (PyVector b0)) None)
  = false /\
  forall o, runs (chebyshev_center (fun q => q) (Some (PyMatrix A0)) (Some (PyVector b0)) None) o
            <-> o = Returned EmptyList.
Proof.
  intros A0 b0.
  apply (chebyshev_center_dimension_mismatch (fun q => q) _ _ _ A0 b0).
  - right. repeat split.
  - simpl. discriminate.
Defined.

(** *** diameter_vertex_enumeration *)

Section DiameterBounds.

Variable p : norm_p.

Lemma diameter_inner_ge (vi : list Q) (vs : list (list Q)) (diam : R) :
  diam <= diameter_inner p vi vs diam.
Proof.
  revert diam. induction vs as [|vj vs IH]; intro diam; simpl.
  - lra.
  - eapply Rle_trans; [apply Rmax_l | apply IH].
Qed.

Lemma diameter_inner_In (vi vj : list Q) (vs : list (list Q)) (diam : R) :
  In vj vs -> norm p (vsub vi vj) <= diameter_inner p vi vs diam.
Proof.
  revert diam. induction vs as [|w vs IH]; intros diam Hin; simpl.
  - contradiction.
  - destruct Hin as [-> | Hin].
    + eapply Rle_trans; [apply Rmax_r | apply diameter_inner_ge].
    + now apply IH.
Qed.

Lemma diameter_inner_le (vi : list Q) (vs : list (list Q)) (diam M : R) :
  diam <= M ->
  (forall vj, In vj vs -> norm p (vsub vi vj) <= M) ->
  diameter_inner p vi vs diam <= M.
Proof.
  revert diam. induction vs as [|w vs IH]; intros diam Hd Hall; simpl.
  - exact Hd.
  - apply IH.
    + apply Rmax_lub; [exact Hd | apply Hall; now left].
    + intros vj Hj. apply Hall. now right.
Qed.

Lemma diameter_outer_ge (vlist : list (list Q)) (diam : R) :
  diam <= diameter_outer p vlist diam.
Proof.
  revert diam. induction vlist as [|vi vs IH]; intro diam; simpl.
  - lra.
  - eapply Rle_trans; [apply diameter_inner_ge | apply IH].
Qed.

(** The distance of a vertex to a later one is below the diameter. *)
Lemma diameter_outer_pair (l1 l2 : list (list Q)) (u v : list Q) (diam : R) :
  In v l2 ->
  norm p (vsub u v) <= diameter_outer p (l1 ++ u :: l2) diam.
Proof.
  intro Hin. revert diam. induction l1 as [|w l1 IH]; intro diam; simpl.
  - eapply Rle_trans; [apply diameter_inner_In; exact Hin | apply diameter_outer_ge].
  - apply IH.
Qed.

Lemma diameter_outer_le (vlist : list (list Q)) (diam M : R) :
  diam <= M ->
  (forall u v, In u vlist -> In v vlist -> norm p (vsub u v) <= M) ->
  diameter_outer p vlist diam <= M.
Proof.
  revert diam. induction vlist as [|vi vs IH]; intros diam Hd Hall; simpl.
  - exact Hd.
  - apply IH.
    + apply diameter_inner_le; [exact Hd|].
      intros vj Hj. apply Hall; [now left | now right].
    + intros u v Hu Hv. apply Hall; now right.
Qed.

(** The diameter of a vertex list, in whatever order the backend lists the
    vertices: a bound on all distances that two different vertices reach. *)
Lemma diameter_outer_max (vlist vertices : list (list Q)) (u0 v0 : list Q) (M : R) :
  Permutation vlist vertices ->
  0 <= M ->
  (forall u v, In u vertices -> In v vertices -> norm p (vsub u v) <= M) ->
  In u0 vertices -> In v0 vertices -> u0 <> v0 ->
  norm p (vsub u0 v0) = M ->
  norm p (vsub v0 u0) = M ->
  diameter_outer p vlist 0 = M.
Proof.
  intros Hperm HM Hall Hu Hv Hne Huv Hvu.
  apply Rle_antisym.
  - apply diameter_outer_le; [exact HM|].
    intros u v Hu' Hv'. apply Hall; eapply Permutation_in; eauto.
  - apply Permutation_sym in Hperm.
    pose proof (Permutation_in _ Hperm Hu) as Hu'.
    pose proof (Permutation_in _ Hperm Hv) as Hv'.
    destruct (in_split _ _ Hu') as [l1 [l2 E]]. subst vlist.
    apply in_app_or in Hv'. destruct Hv' as [Hv' | [Hv' | Hv']].
    + destruct (in_split _ _ Hv') as [l1a [l1b E]]. subst l1.
      rewrite <- app_assoc. simpl. rewrite <- Hvu.
      apply diameter_outer_pair. apply in_or_app. right. now left.
    + congruence.
    + rewrite <- Huv. now apply diameter_outer_pair.
Qed.

End DiameterBounds.

Lemma In_hypercube_ones (n : nat) : In (repeat 1%Q n) (hypercube_vertices n).
Proof.
  induction n as [|n IH]; simpl.
  - now left.
  - apply in_or_app. left. now apply in_map.
Qed.

Lemma In_hypercube_minus_ones (n : nat) : In (repeat (-1)%Q n) (hypercube_vertices n).
Proof.
  induction n as [|n IH]; simpl.
  - now left.
  - apply in_or_app. right. now apply in_map.
Qed.

Lemma all_pairs_spec (check : list Q -> bool) (vertices : list (list Q)) :
  all_pairs check vertices = true ->
  forall u v, In u vertices -> In v vertices -> check (vsub u v) = true.
Proof.
  unfold all_pairs. intros H u v Hu Hv.
  rewrite forallb_forall in H. specialize (H u Hu).
  rewrite forallb_forall in H. exact (H v Hv).
Qed.

Lemma sup_norm_le (w : list Q) (m : Q) :
  Qle_bool (sup_abs w) m = true -> norm oo w <= Q2R m.
Proof.
  intro H. apply Qle_bool_iff in H. simpl. now apply Qle_Rle.
Qed.

Lemma euclidean_norm_le (w : list Q) (m : Q) :
  Qle_bool (dot_product w w) m = true -> norm p2 w <= sqrt (Q2R m).
Proof.
  intro H. apply Qle_bool_iff in H. simpl.
  apply sqrt_le_1_alt. now apply Qle_Rle.
Qed.

Lemma Q2R_14 : Q2R 14 = 14.
Proof. unfold Q2R. simpl. lra. Qed.

Lemma sqrt_980 : sqrt (Q2R 980) = 14 * sqrt 5.
Proof.
  replace (Q2R 980) with ((14 * 14) * 5) by (unfold Q2R; simpl; lra).
  rewrite sqrt_mult by lra. rewrite sqrt_square by lra. reflexivity.
Qed.

Lemma sqrt_392 : sqrt (Q2R 392) = 14 * sqrt 2.
Proof.
  replace (Q2R 392) with ((14 * 14) * 2) by (unfold Q2R; simpl; lra).
  rewrite sqrt_mult by lra. rewrite sqrt_square by lra. reflexivity.
Qed.

Lemma seven_ones_neq (n : nat) :
  map (Qmult 7) (repeat 1%Q (S n)) <> map (Qmult 7) (repeat (-1)%Q (S n)).
Proof. simpl. discriminate. Qed.

(** The diameters of [7 * polytopes.hypercube(5)], for any order of its
    vertices. *)
Lemma diameter_hypercube5_oo (vlist : list (list Q)) :
  Permutation vlist (dilation 7 (hypercube_vertices 5)) ->
  diameter_outer oo vlist 0 = 14.
Proof.
  intro Hperm.
  apply (diameter_outer_max oo vlist _
           (map (Qmult 7) (repeat 1%Q 5)) (map (Qmult 7) (repeat (-1)%Q 5)) 14 Hperm).
  - lra.
  - intros u v Hu Hv. rewrite <- Q2R_14. apply sup_norm_le.
    revert u v Hu Hv.
    apply (all_pairs_spec (fun w => Qle_bool (sup_abs w) 14)).
    vm_compute. reflexivity.
  - apply in_map. apply In_hypercube_ones.
  - apply in_map. apply In_hypercube_minus_ones.
  - apply seven_ones_neq.
  - rewrite <- Q2R_14. reflexivity.
  - rewrite <- Q2R_14. reflexivity.
Qed.

Lemma diameter_hypercube5_p2 (vlist : list (list Q)) :
  Permutation vlist (dilation 7 (hypercube_vertices 5)) ->
  diameter_outer p2 vlist 0 = 14 * sqrt 5.
Proof.
  intro Hperm.
  apply (diameter_outer_max p2 vlist _
           (map (Qmult 7) (repeat 1%Q 5)) (map (Qmult 7) (repeat (-1)%Q 5))
           (14 * sqrt 5) Hperm).
  - pose proof (sqrt_pos 5). lra.
  - intros u v Hu Hv. rewrite <- sqrt_980. apply euclidean_norm_le.
    revert u v Hu Hv.
    apply (all_pairs_spec (fun w => Qle_bool (dot_product w w) 980)).
    vm_compute. reflexivity.
  - apply in_map. apply In_hypercube_ones.
  - apply in_map. apply In_hypercube_minus_ones.
  - apply seven_ones_neq.
  - rewrite <- sqrt_980. reflexivity.
  - rewrite <- sqrt_980. reflexivity.
Qed.

(** The example of the docstring for [p=2]: [7 * polytopes.hypercube(2)]. *)
Lemma diameter_hypercube2_p2 (vlist : list (list Q)) :
  Permutation vlist (dilation 7 (hypercube_vertices 2)) ->
  diameter_outer p2 vlist 0 = 14 * sqrt 2.
Proof.
  intro Hperm.
  apply (diameter_outer_max p2 vlist _
           (map (Qmult 7) (repeat 1%Q 2)) (map (Qmult 7) (repeat (-1)%Q 2))
           (14 * sqrt 2) Hperm).
  - pose proof (sqrt_pos 2). lra.
  - intros u v Hu Hv. rewrite <- sqrt_392. apply euclidean_norm_le.
    revert u v Hu Hv.
    apply (all_pairs_spec (fun w => Qle_bool (dot_product w w) 392)).
    vm_compute. reflexivity.
  - apply in_map. apply In_hypercube_ones.
  - apply in_map. apply In_hypercube_minus_ones.
  - apply seven_ones_neq.
  - rewrite <- sqrt_392. reflexivity.
  - rewrite <- sqrt_392. reflexivity.
Qed.

(** C3 (amended): for the unit hypercube in 5 dimensions scaled by 7,
    whatever the order in which the object lists its 32 vertices, the
    diameter by vertex enumeration is 14 under the supremum norm and
    14 * sqrt(5) under the Euclidean norm. *)
Theorem diameter_vertex_enumeration_hypercube5 (P : polyhedron) :
  Permutation (vertices_list P) (dilation 7 (hypercube_vertices 5)) ->
  diameter_vertex_enumeration P oo = 14 /\
  diameter_vertex_enumeration P p2 = 14 * sqrt 5.
Proof.
  intro Hperm. unfold diameter_vertex_enumeration. split.
  - now apply diameter_hypercube5_oo.
  - now apply diameter_hypercube5_p2.
Qed.

Lemma diameter_vertex_enumeration_hypercube5_witness :
  diameter_vertex_enumeration P_hypercube5 oo = 14 /\
  diameter_vertex_enumeration P_hypercube5 p2 = 14 * sqrt 5.
Proof.
  apply (diameter_vertex_enumeration_hypercube5 P_hypercube5).
  apply Permutation_refl.
Defined.

(** C3 as stated fails: the Euclidean diameter of the scaled hypercube in 5
    dimensions is not 14 * sqrt(2). *)
Lemma diameter_vertex_enumeration_hypercube5_not_sqrt2 :
  ~ (diameter_vertex_enumeration P_hypercube5 oo = 14 /\
     diameter_vertex_enumeration P_hypercube5 p2 = 14 * sqrt 2).
Proof.
  intros [_ H].
  pose proof (diameter_hypercube5_p2 (vertices_list P_hypercube5) (Permutation_refl _)) as H5.
  unfold diameter_vertex_enumeration in H.
  assert (E : sqrt 5 = sqrt 2) by lra.
  apply sqrt_inj in E; lra.
Qed.

(** *** support_function: the LP it formulates *)

Lemma set_nth_app {T : Type} (l1 l2 : list T) (a v : T) :
  set_nth (List.length l1) v (l1 ++ a :: l2) = l1 ++ v :: l2.
Proof.
  induction l1 as [|x l1 IH]; simpl.
  - reflexivity.
  - now rewrite IH.
Qed.

Lemma sf_fill_fold (R1 R2 : ring) (n : nat) (gens : list Hrep_gen) :
  forall (rows0 rowsR : list (list Q)) (ents0 entsR : list Q),
    List.length rowsR = List.length gens ->
    List.length entsR = List.length gens ->
    List.length ents0 = List.length rows0 ->
    fold_left sf_fill gens
      ({| base_ring := R1; ncols := n; rows := rows0 ++ rowsR |},
       {| vbase_ring := R2; entries := ents0 ++ entsR |},
       List.length rows0)
    = ({| base_ring := R1; ncols := n;
          rows := rows0 ++ map (fun g => vneg (gen_A g)) gens |},
       {| vbase_ring := R2; entries := ents0 ++ map gen_b gens |},
       (List.length rows0 + List.length gens)%nat).
Proof.
  induction gens as [|g gens IH]; intros rows0 rowsR ents0 entsR Hr He H0.
  - destruct rowsR; [|discriminate]. destruct entsR; [|discriminate].
    simpl. now rewrite Nat.add_0_r.
  - destruct rowsR as [|r rowsR]; [discriminate|].
    destruct entsR as [|e entsR]; [discriminate|].
    simpl fold_left. unfold sf_fill at 1. unfold set_row, set_entry. simpl.
    rewrite set_nth_app. rewrite <- H0, set_nth_app, H0.
    replace (rows0 ++ vneg (gen_A g) :: rowsR)
      with ((rows0 ++ [vneg (gen_A g)]) ++ rowsR) by now rewrite <- app_assoc.
    replace (ents0 ++ gen_b g :: entsR)
      with ((ents0 ++ [gen_b g]) ++ entsR) by now rewrite <- app_assoc.
    replace (S (List.length rows0)) with (List.length (rows0 ++ [vneg (gen_A g)]))
      by (rewrite length_app; simpl; lia).
    rewrite IH.
    + rewrite <- !app_assoc. simpl. rewrite length_app. simpl.
      f_equal. lia.
    + simpl in Hr. lia.
    + simpl in He. lia.
    + rewrite !length_app. simpl. lia.
Qed.

(** On a polytope object that does not report itself empty and has a
    generator, [support_function] hands [sf_matrix] and [sf_vector] to the
    solver. *)
Lemma support_function_polyhedron (P : polyhedron) (d : list Q) (return_xopt : bool)
  (solver : string) :
  is_empty P = false ->
  Hrepresentation P <> [] ->
  support_function (PyPolyhedron P) d return_xopt solver
  = sf_solve (sf_matrix P) (sf_vector P) d return_xopt solver.
Proof.
  intros He Hg. unfold support_function. rewrite He.
  unfold sf_matrix, sf_vector.
  destruct (Hrepresentation P) as [|g0 gens]; [contradiction|].
  assert (En : (List.length (gen_vector g0) - 1 = List.length (gen_A g0))%nat)
    by (simpl; lia).
  rewrite En. unfold zero_matrix, zero_vec.
  pose proof (sf_fill_fold (P_base_ring P) (P_base_ring P)
                (List.length (gen_A g0)) (g0 :: gens)
                [] (repeat (zero_vector (List.length (gen_A g0)))
                           (List.length (g0 :: gens)))
                [] (zero_vector (List.length (g0 :: gens)))) as H.
  change ([] ++ ?l) with l in H.
  change (@List.length (list Q) []) with O in H.
  rewrite H.
  - reflexivity.
  - apply repeat_length.
  - apply repeat_length.
  - reflexivity.
Qed.

Lemma runs_sf_solve (A : matrix) (b : vector) (d : list Q) (return_xopt : bool)
  (solver : string) (o : outcome sf_value) :
  (exists sol, optimal (sf_lp A b d) sol) ->
  runs (sf_solve A b d return_xopt solver) o <->
  exists sol, optimal (sf_lp A b d) sol /\ o = Returned (sf_answer A d return_xopt sol).
Proof.
  intro Hex. unfold runs, sf_solve. rewrite !exec_Call_iff. simpl mip_step.
  fold (sf_lp A b d). rewrite (exec_Solve_iff _ _ _ Hex).
  split; intros [sol [Hs Ho]]; exists sol; split; try exact Hs.
  - unfold sf_answer. destruct return_xopt; now apply exec_Return_iff in Ho.
  - subst o. unfold sf_answer. destruct return_xopt; constructor.
Qed.

Lemma eval_sum_x_from (val : mip_var -> R) (d pre : list Q) :
  eval_linear val
    (map (fun j => (Rational (nth j (pre ++ d) 0%Q), x_ j))
         (seq (List.length pre) (List.length d)))
  = dot_at (x_of val) d (List.length pre).
Proof.
  revert pre. induction d as [|a d IH]; intro pre.
  - reflexivity.
  - simpl. rewrite nth_middle. f_equal.
    specialize (IH (pre ++ [a])).
    rewrite <- app_assoc in IH. simpl in IH.
    rewrite length_app in IH. simpl in IH.
    rewrite Nat.add_1_r in IH. exact IH.
Qed.

Lemma eval_sum_x (val : mip_var -> R) (d : list Q) :
  eval_linear val (sum_x d (List.length d)) = dot_at (x_of val) d 0.
Proof. exact (eval_sum_x_from val d []). Qed.

Lemma feasible_sf_lp (A : matrix) (b : vector) (d : list Q) (val : mip_var -> R) :
  feasible (sf_lp A b d) val <-> Hrep_holds A b (x_of val).
Proof.
  unfold feasible, sf_lp, Hrep_holds. simpl. split.
  - intro H. inversion H. assumption.
  - intro H. constructor; [exact H | constructor].
Qed.

(** The answers of the solver on the LP of [support_function]: a point of
    [{x : A x <= b}] that maximises [d.x], with the maximum. *)
Lemma optimal_sf_lp (A : matrix) (b : vector) (d : list Q) (sol : solution) :
  optimal (sf_lp A b d) sol <->
  Hrep_holds A b (x_of (get_values sol)) /\
  objective_value sol = dot_at (x_of (get_values sol)) d 0 /\
  forall x : point, Hrep_holds A b x -> dot_at x d 0 <= objective_value sol.
Proof.
  unfold optimal. rewrite feasible_sf_lp.
  change (objective (sf_lp A b d)) with (sum_x d (List.length d)).
  change (maximization (sf_lp A b d)) with true. cbv iota.
  rewrite eval_sum_x.
  split; intros (Hf & Ho & Hmax); repeat split; try assumption.
  - intros x Hx.
    specialize (Hmax (fun v => match v with x_ j => x j | r_ _ => 0 end)).
    rewrite feasible_sf_lp, eval_sum_x in Hmax. apply Hmax. exact Hx.
  - intros val Hval. rewrite eval_sum_x. apply Hmax.
    now apply feasible_sf_lp in Hval.
Qed.

Lemma dot_at_vscale (x : point) (l : Q) (d : list Q) (j : nat) :
  dot_at x (vscale l d) j = Q2R l * dot_at x d j.
Proof.
  revert j. induction d as [|a d IH]; intro j; simpl.
  - lra.
  - rewrite IH, Q2R_mult. lra.
Qed.

Lemma dot_at_vadd (x : point) (d1 d2 : list Q) (j : nat) :
  List.length d1 = List.length d2 ->
  dot_at x (vadd d1 d2) j = dot_at x d1 j + dot_at x d2 j.
Proof.
  revert d2 j. induction d1 as [|a d1 IH]; intros [|b d2] j H; try discriminate; simpl.
  - lra.
  - rewrite IH by (simpl in H; lia). rewrite Q2R_plus. lra.
Qed.

Lemma dot_at_zero (x : point) (n j : nat) : dot_at x (zero_vector n) j = 0.
Proof.
  revert j. induction n as [|n IH]; intro j; simpl.
  - reflexivity.
  - rewrite IH. unfold Q2R. simpl. lra.
Qed.

Lemma dot_at_vneg (x : point) (a : list Q) (j : nat) :
  dot_at x (vneg a) j = - dot_at x a j.
Proof.
  revert j. induction a as [|c a IH]; intro j; simpl.
  - lra.
  - rewrite IH, Q2R_opp. lra.
Qed.

(** The maximum is the same for all answers of the solver. *)
Lemma optimal_value_unique (A : matrix) (b : vector) (d : list Q) (s1 s2 : solution) :
  optimal (sf_lp A b d) s1 -> optimal (sf_lp A b d) s2 ->
  objective_value s1 = objective_value s2.
Proof.
  rewrite !optimal_sf_lp. intros (F1 & V1 & M1) (F2 & V2 & M2).
  apply Rle_antisym.
  - rewrite V1. now apply M2.
  - rewrite V2. now apply M1.
Qed.

Lemma optimal_vscale (A : matrix) (b : vector) (d : list Q) (l : Q) (sol : solution) :
  0 <= Q2R l ->
  optimal (sf_lp A b d) sol ->
  optimal (sf_lp A b (vscale l d))
    {| objective_value := Q2R l * objective_value sol; get_values := get_values sol |}.
Proof.
  rewrite !optimal_sf_lp. intros Hl (F & V & M). simpl. repeat split.
  - exact F.
  - rewrite dot_at_vscale, V. reflexivity.
  - intros x Hx. rewrite dot_at_vscale.
    apply Rmult_le_compat_l; [exact Hl | now apply M].
Qed.

Lemma optimal_zero (A : matrix) (b : vector) (d : list Q) (n : nat) (sol : solution) :
  optimal (sf_lp A b d) sol ->
  optimal (sf_lp A b (zero_vector n))
    {| objective_value := 0; get_values := get_values sol |}.
Proof.
  rewrite !optimal_sf_lp. intros (F & V & M). simpl. repeat split.
  - exact F.
  - now rewrite dot_at_zero.
  - intros x Hx. rewrite dot_at_zero. lra.
Qed.

Lemma optimal_vadd (A : matrix) (b : vector) (d1 d2 : list Q) (s1 s2 s12 : solution) :
  List.length d1 = List.length d2 ->
  optimal (sf_lp A b d1) s1 ->
  optimal (sf_lp A b d2) s2 ->
  optimal (sf_lp A b (vadd d1 d2)) s12 ->
  objective_value s12 <= objective_value s1 + objective_value s2.
Proof.
  rewrite !optimal_sf_lp. intros Hlen (F1 & V1 & M1) (F2 & V2 & M2) (F & V & M).
  rewrite V, dot_at_vadd by exact Hlen.
  apply Rplus_le_compat; [now apply M1 | now apply M2].
Qed.

(** *** The box of the worked example *)

Lemma BoxInfty_example
  (RDF_round : Q -> Q)
  (Polyhedron : list (list Q) -> ring -> nat -> string -> polyhedron) :
  BoxInfty RDF_round Polyhedron (Some (NumberList [1; 2; 3]%Q)) (Some (Number 1%Q)) None
    QQ false
  = Ok (BoxPolyhedron (Polyhedron box_ieqs QQ 3%nat "ppl")).
Proof. reflexivity. Qed.

Lemma BoxInfty_example_keywords
  (RDF_round : Q -> Q)
  (Polyhedron : list (list Q) -> ring -> nat -> string -> polyhedron) :
  BoxInfty RDF_round Polyhedron None (Some (NumberList [1; 2; 3]%Q)) (Some (Number 1%Q))
    QQ false
  = Ok (BoxPolyhedron (Polyhedron box_ieqs QQ 3%nat "ppl")).
Proof. reflexivity. Qed.

Lemma box_ieqs_hold (x : point) : Forall (ieq_holds x) box_ieqs <-> in_box x.
Proof.
  unfold box_ieqs, in_box. rewrite !Forall_cons_iff.
  unfold ieq_holds. simpl. Q2R_consts. split.
  - intros (H1 & H2 & H3 & H4 & H5 & H6 & _). lra.
  - intros (H1 & H2 & H3). repeat split; try lra. constructor.
Qed.

Lemma Hrep_holds_sf (P : polyhedron) (x : point) :
  Hrep_holds (sf_matrix P) (sf_vector P) x <->
  Forall (fun g => 0 <= dot_at x (gen_A g) 0 + Q2R (gen_b g)) (Hrepresentation P).
Proof.
  unfold Hrep_holds, sf_matrix, sf_vector. simpl.
  induction (Hrepresentation P) as [|g gens IH]; simpl.
  - split; constructor.
  - split; intro H; inversion H; subst; constructor.
    + rewrite dot_at_vneg in *. lra.
    + now apply IH.
    + rewrite dot_at_vneg. lra.
    + now apply IH.
Qed.

Section BoxPolyhedron.

Variable P : polyhedron.

(** [P] is the answer of a constructor that meets [Polyhedron_spec] on the
    rows of the box. *)
Hypothesis P_width :
  Forall (fun g => List.length (gen_A g) = 3%nat) (Hrepresentation P).
Hypothesis P_sound :
  forall x, Forall (gen_holds x) (Hrepresentation P) <-> Forall (ieq_holds x) box_ieqs.
Hypothesis P_empty_sound :
  is_empty P = true -> ~ exists x, Forall (ieq_holds x) box_ieqs.

Lemma box_not_empty : is_empty P = false.
Proof.
  destruct (is_empty P) eqn:E; [|reflexivity].
  exfalso. apply (P_empty_sound eq_refl).
  exists (point_of [1; 2; 3]). apply box_ieqs_hold.
  unfold in_box, point_of. simpl. lra.
Qed.

Lemma box_has_generator : Hrepresentation P <> [].
Proof.
  intro E.
  assert (H : Forall (gen_holds (point_of [5; 2; 3])) (Hrepresentation P))
    by (rewrite E; constructor).
  apply P_sound, box_ieqs_hold in H.
  unfold in_box, point_of in H. simpl in H. lra.
Qed.

(** The box has interior points, so an equation among the generators of
    [P] is the trivial one. *)
Lemma box_equation_trivial (g : Hrep_gen) (x : point) :
  In g (Hrepresentation P) ->
  is_equation g = true ->
  dot_at x (gen_A g) 0 + Q2R (gen_b g) = 0.
Proof.
  intros Hin Heq.
  assert (Hpt : forall c, in_box (point_of c) ->
                  dot_at (point_of c) (gen_A g) 0 + Q2R (gen_b g) = 0).
  { intros c Hc. apply box_ieqs_hold, P_sound in Hc.
    rewrite Forall_forall in Hc. specialize (Hc g Hin).
    unfold gen_holds in Hc. now rewrite Heq in Hc. }
  pose proof P_width as W. rewrite Forall_forall in W. specialize (W g Hin).
  destruct (gen_A g) as [|a1 [|a2 [|a3 [|a4 rest]]]]; try discriminate.
  pose proof (Hpt [1; 2; 3]) as H0.
  pose proof (Hpt [2; 2; 3]) as H1.
  pose proof (Hpt [1; 3; 3]) as H2.
  pose proof (Hpt [1; 2; 4]) as H3.
  unfold in_box, point_of in H0, H1, H2, H3. simpl in H0, H1, H2, H3.
  assert (E0 : Q2R a1 * 1 + (Q2R a2 * 2 + (Q2R a3 * 3 + 0)) + Q2R (gen_b g) = 0)
    by (apply H0; lra).
  assert (E1 : Q2R a1 * 2 + (Q2R a2 * 2 + (Q2R a3 * 3 + 0)) + Q2R (gen_b g) = 0)
    by (apply H1; lra).
  assert (E2 : Q2R a1 * 1 + (Q2R a2 * 3 + (Q2R a3 * 3 + 0)) + Q2R (gen_b g) = 0)
    by (apply H2; lra).
  assert (E3 : Q2R a1 * 1 + (Q2R a2 * 2 + (Q2R a3 * 4 + 0)) + Q2R (gen_b g) = 0)
    by (apply H3; lra).
  assert (A1 : Q2R a1 = 0) by lra.
  assert (A2 : Q2R a2 = 0) by lra.
  assert (A3 : Q2R a3 = 0) by lra.
  assert (B : Q2R (gen_b g) = 0) by lra.
  simpl. rewrite A1, A2, A3, B. lra.
Qed.

(** The feasible set of the LP that [support_function] formulates on [P] is
    the box. *)
Lemma box_feasible (x : point) :
  Hrep_holds (sf_matrix P) (sf_vector P) x <-> in_box x.
Proof.
  rewrite Hrep_holds_sf, <- box_ieqs_hold, <- P_sound.
  rewrite !Forall_forall. split; intros H g Hin; specialize (H g Hin).
  - unfold gen_holds. destruct (is_equation g) eqn:E.
    + now apply box_equation_trivial.
    + exact H.
  - unfold gen_holds in H. destruct (is_equation g); lra.
Qed.

Lemma box_ncols : ncols (sf_matrix P) = 3%nat.
Proof.
  pose proof box_has_generator as Hg. pose proof P_width as W.
  unfold sf_matrix. simpl.
  destruct (Hrepresentation P) as [|g0 gens]; [contradiction|].
  now inversion W.
Qed.

(** The answers of the solver in direction [(1,1,1)]: the value [9] at the
    corner [(2,3,4)]. *)
Lemma box_optimal (sol : solution) :
  optimal (sf_lp (sf_matrix P) (sf_vector P) [1; 1; 1]%Q) sol <->
  objective_value sol = 9 /\
  get_values sol (x_ 0) = 2 /\ get_values sol (x_ 1) = 3 /\ get_values sol (x_ 2) = 4.
Proof.
  rewrite optimal_sf_lp. rewrite box_feasible. unfold in_box.
  simpl dot_at. rewrite Q2R_one. unfold x_of. split.
  - intros (F & V & M).
    specialize (M (point_of [2; 3; 4])).
    rewrite box_feasible in M. unfold in_box, point_of in M. simpl in M.
    assert (9 <= objective_value sol) by (lra).
    repeat split; lra.
  - intros (V & X0 & X1 & X2). rewrite V, X0, X1, X2. repeat split; try lra.
    intros x Hx. apply box_feasible in Hx. unfold in_box in Hx. lra.
Qed.

Lemma box_support_function (return_xopt : bool) (solver : string) (o : outcome sf_value) :
  runs (support_function (PyPolyhedron P) [1; 1; 1]%Q return_xopt solver) o <->
  o = Returned (if return_xopt then ValueAndOptimizer 9 [2; 3; 4] else Value 9).
Proof.
  rewrite (support_function_polyhedron P _ _ _ box_not_empty box_has_generator).
  assert (Hex : optimal (sf_lp (sf_matrix P) (sf_vector P) [1; 1; 1]%Q)
                  {| objective_value := 9;
                     get_values := fun v => match v with
                                            | x_ j => nth j [2; 3; 4] 0
                                            | r_ _ => 0
                                            end |}).
  { apply box_optimal. simpl. repeat split. }
  rewrite runs_sf_solve by (eexists; exact Hex).
  unfold sf_answer. rewrite box_ncols. simpl. split.
  - intros [sol [Hs ->]]. apply box_optimal in Hs.
    destruct Hs as (V & X0 & X1 & X2). now rewrite V, X0, X1, X2.
  - intros ->. eexists. split; [exact Hex|]. reflexivity.
Qed.

End BoxPolyhedron.

Lemma Polyhedron_of_rows_spec : Polyhedron_spec Polyhedron_of_rows.
Proof.
  intros ieqs R n backend Hlen P. subst P. simpl. repeat split.
  - rewrite Forall_map. simpl. eapply Forall_impl; [|exact Hlen].
    intros ieq H. simpl in H. destruct ieq; simpl in *; [discriminate | lia].
  - rewrite Forall_map. intro H. exact H.
  - rewrite Forall_map. intro H. exact H.
  - discriminate.
Qed.

Lemma box_ieqs_width : Forall (fun ieq : list Q => List.length ieq = 4%nat) box_ieqs.
Proof. repeat constructor. Qed.

(** C2 (amended): with a [Polyhedron] constructor that meets its
    specification, [BoxInfty([1,2,3], 1)], as [BoxInfty(center=[1,2,3],
    radius=1)], builds a polytope on which [support_function] in direction
    [(1,1,1)] returns [9], and returns [(9, (2,3,4))] when the optimizer is
    requested; no other outcome is possible. *)
Theorem support_function_box_example
  (RDF_round : Q -> Q)
  (Polyhedron : list (list Q) -> ring -> nat -> string -> polyhedron) :
  Polyhedron_spec Polyhedron ->
  exists P,
    BoxInfty RDF_round Polyhedron (Some (NumberList [1; 2; 3]%Q)) (Some (Number 1%Q)) None
      QQ false = Ok (BoxPolyhedron P) /\
    BoxInfty RDF_round Polyhedron None (Some (NumberList [1; 2; 3]%Q)) (Some (Number 1%Q))
      QQ false = Ok (BoxPolyhedron P) /\
    (forall o, runs (support_function (PyPolyhedron P) [1; 1; 1]%Q false "GLPK") o
               <-> o = Returned (Value 9)) /\
    (forall o, runs (support_function (PyPolyhedron P) [1; 1; 1]%Q true "GLPK") o
               <-> o = Returned (ValueAndOptimizer 9 [2; 3; 4])).
Proof.
  intro Hspec. exists (Polyhedron box_ieqs QQ 3%nat "ppl").
  destruct (Hspec box_ieqs QQ 3%nat "ppl" box_ieqs_width) as (W & S & E).
  split; [apply BoxInfty_example|].
  split; [apply BoxInfty_example_keywords|]. split; intro o.
  - exact (box_support_function _ W S E false "GLPK" o).
  - exact (box_support_function _ W S E true "GLPK" o).
Qed.

Lemma support_function_box_example_witness :
  exists P,
    BoxInfty (fun q => q) Polyhedron_of_rows
      (Some (NumberList [1; 2; 3]%Q)) (Some (Number 1%Q)) None QQ false
    = Ok (BoxPolyhedron P) /\
    BoxInfty (fun q => q) Polyhedron_of_rows
      None (Some (NumberList [1; 2; 3]%Q)) (Some (Number 1%Q)) QQ false
    = Ok (BoxPolyhedron P) /\
    (forall o, runs (support_function (PyPolyhedron P) [1; 1; 1]%Q false "GLPK") o
               <-> o = Returned (Value 9)) /\
    (forall o, runs (support_function (PyPolyhedron P) [1; 1; 1]%Q true "GLPK") o
               <-> o = Returned (ValueAndOptimizer 9 [2; 3; 4])).
Proof.
  apply (support_function_box_example (fun q => q) Polyhedron_of_rows).
  exact Polyhedron_of_rows_spec.
Defined.

(** C2 as stated fails: on the polytope of [BoxInfty([1,2,3], 1)] the
    optimizer that comes with the value [9] is never [(2,2,2)]. *)
Lemma support_function_box_example_not_222 :
  ~ exists P,
      BoxInfty (fun q => q) Polyhedron_of_rows
        (Some (NumberList [1; 2; 3]%Q)) (Some (Number 1%Q)) None QQ false
      = Ok (BoxPolyhedron P) /\
      runs (support_function (PyPolyhedron P) [1; 1; 1]%Q false "GLPK")
           (Returned (Value 9)) /\
      runs (support_function (PyPolyhedron P) [1; 1; 1]%Q true "GLPK")
           (Returned (ValueAndOptimizer 9 [2; 2; 2])).
Proof.
  intros [P (HP & _ & Hrun)].
  rewrite BoxInfty_example in HP. injection HP as <-.
  destruct (Polyhedron_of_rows_spec box_ieqs QQ 3%nat "ppl" box_ieqs_width)
    as (W & S & E).
  apply (box_support_function _ W S E true "GLPK") in Hrun.
  injection Hrun as H. lra.
Qed.

(** *** Linear programs attain their maximum *)

Lemma rdot_hd_tl (x : point) (a : list R) (j : nat) :
  rdot x a j = hd 0 a * x j + rdot x (tl a) (S j).
Proof. destruct a; simpl; lra. Qed.

Lemma rdot_ext (x y : point) (a : list R) (j : nat) :
  (forall i, (j <= i)%nat -> x i = y i) -> rdot x a j = rdot y a j.
Proof.
  revert j. induction a as [|c a IH]; intros j H; simpl.
  - reflexivity.
  - rewrite (H j) by lia. rewrite (IH (S j)); [reflexivity|].
    intros i Hi. apply H. lia.
Qed.

Lemma rdot_map_mult (x : point) (s : R) (a : list R) (j : nat) :
  rdot x (map (Rmult s) a) j = s * rdot x a j.
Proof.
  revert j. induction a as [|c a IH]; intro j; simpl.
  - lra.
  - rewrite IH. lra.
Qed.

Lemma rdot_vaxpy (x : point) (s : R) (a b : list R) (j : nat) :
  rdot x (vaxpy s a b) j = s * rdot x a j + rdot x b j.
Proof.
  revert b j. induction a as [|u a IH]; intros b j.
  - simpl. lra.
  - destruct b as [|v b].
    + change (vaxpy s (u :: a) []) with (map (Rmult s) (u :: a)).
      rewrite rdot_map_mult. simpl. lra.
    + simpl. rewrite IH. lra.
Qed.

Lemma upd_same (x : point) (j : nat) (t : R) : upd x j t j = t.
Proof. unfold upd. now rewrite Nat.eqb_refl. Qed.

Lemma upd_above (x : point) (j i : nat) (t : R) : (j < i)%nat -> upd x j t i = x i.
Proof.
  intro H. unfold upd. destruct (Nat.eqb i j) eqn:E; [|reflexivity].
  apply Nat.eqb_eq in E. lia.
Qed.

Lemma csat_upd (x : point) (j : nat) (t : R) (c : rconstraint) :
  csat (upd x j t) j c <-> head c * t + rdot x (tl (fst c)) (S j) <= snd c.
Proof.
  unfold csat. rewrite rdot_hd_tl, upd_same.
  rewrite (rdot_ext (upd x j t) x _ (S j)); [reflexivity|].
  intros i Hi. apply upd_above. lia.
Qed.

Lemma is_pos_spec (c : rconstraint) : is_pos c = true <-> 0 < head c.
Proof. unfold is_pos. destruct (Rlt_dec 0 (head c)); split; intro; try discriminate; tauto. Qed.

Lemma is_neg_spec (c : rconstraint) : is_neg c = true <-> head c < 0.
Proof. unfold is_neg. destruct (Rlt_dec (head c) 0); split; intro; try discriminate; tauto. Qed.

Lemma is_zero_spec (c : rconstraint) : is_zero c = true <-> head c = 0.
Proof.
  unfold is_zero, is_pos, is_neg.
  destruct (Rlt_dec 0 (head c)), (Rlt_dec (head c) 0); simpl; split; intro;
    try discriminate; try lra; reflexivity.
Qed.

(** A number between a list of lower bounds and a list of upper bounds. *)
Lemma between_bounds (L U : list R) :
  (forall l u, In l L -> In u U -> l <= u) ->
  exists t, (forall l, In l L -> l <= t) /\ (forall u, In u U -> t <= u).
Proof.
  intro H. induction U as [|u U IH].
  - clear H. induction L as [|l L IH].
    + exists 0. split; intros ? [].
    + destruct IH as [t [Ht _]]. exists (Rmax l t). split; [|intros ? []].
      intros l' [<- | Hl'].
      * apply Rmax_l.
      * eapply Rle_trans; [now apply Ht | apply Rmax_r].
  - destruct IH as [t [HL HU]].
    + intros l u' Hl Hu'. apply H; [exact Hl | now right].
    + exists (Rmin t u). split.
      * intros l Hl. apply Rmin_glb; [now apply HL | apply H; [exact Hl | now left]].
      * intros u' [<- | Hu'].
        -- apply Rmin_r.
        -- eapply Rle_trans; [apply Rmin_l | now apply HU].
Qed.

Lemma fm_bounds (ap aq bp bq Pp Pq : R) :
  0 < ap -> aq < 0 ->
  - aq * Pp + ap * Pq <= - aq * bp + ap * bq ->
  (bq - Pq) / aq <= (bp - Pp) / ap.
Proof.
  intros Hp Hq H.
  apply (Rmult_le_reg_l (ap * - aq)); [nra|].
  replace (ap * - aq * ((bq - Pq) / aq)) with (- ap * (bq - Pq)) by (field; lra).
  replace (ap * - aq * ((bp - Pp) / ap)) with (- aq * (bp - Pp)) by (field; lra).
  lra.
Qed.

Lemma fm_iff (x : point) (j : nat) (sys : list rconstraint) :
  Forall (csat x (S j)) (fm sys) <-> exists t, Forall (csat (upd x j t) j) sys.
Proof.
  unfold fm. rewrite Forall_app, !Forall_forall. split.
  - intros [Hz Hc].
    set (bound := fun c : rconstraint =>
                    (snd c - rdot x (tl (fst c)) (S j)) / head c).
    destruct (between_bounds (map bound (filter is_neg sys)) (map bound (filter is_pos sys)))
      as [t [HL HU]].
    { intros l u Hl Hu.
      apply in_map_iff in Hl. destruct Hl as [q [<- Hq]].
      apply in_map_iff in Hu. destruct Hu as [p [<- Hp]].
      pose proof Hq as Hq'. pose proof Hp as Hp'.
      apply filter_In in Hq'. destruct Hq' as [_ Hq']. apply is_neg_spec in Hq'.
      apply filter_In in Hp'. destruct Hp' as [_ Hp']. apply is_pos_spec in Hp'.
      unfold bound. apply fm_bounds; try assumption.
      assert (Hin : In (combine_bounds p q)
                      (flat_map (fun p => map (combine_bounds p) (filter is_neg sys))
                                (filter is_pos sys))).
      { apply in_flat_map. exists p. split; [exact Hp|]. now apply in_map. }
      specialize (Hc _ Hin). unfold csat, combine_bounds in Hc. simpl in Hc.
      rewrite rdot_vaxpy, rdot_map_mult in Hc. exact Hc. }
    exists t. apply Forall_forall. intros c Hin. apply csat_upd.
    destruct (Rlt_dec 0 (head c)) as [Hp | Hnp];
      [|destruct (Rlt_dec (head c) 0) as [Hn | Hnn]].
    + assert (Hu : t <= bound c).
      { apply HU. apply in_map. apply filter_In. split; [exact Hin|].
        now apply is_pos_spec. }
      unfold bound in Hu.
      apply (Rmult_le_compat_l (head c)) in Hu; [|lra].
      replace (head c * ((snd c - rdot x (tl (fst c)) (S j)) / head c))
        with (snd c - rdot x (tl (fst c)) (S j)) in Hu by (field; lra).
      lra.
    + assert (Hl : bound c <= t).
      { apply HL. apply in_map. apply filter_In. split; [exact Hin|].
        now apply is_neg_spec. }
      unfold bound in Hl.
      apply (Rmult_le_compat_neg_l (head c)) in Hl; [|lra].
      replace (head c * ((snd c - rdot x (tl (fst c)) (S j)) / head c))
        with (snd c - rdot x (tl (fst c)) (S j)) in Hl by (field; lra).
      lra.
    + assert (H0 : head c = 0) by lra.
      assert (Hd : In (drop_head c) (map drop_head (filter is_zero sys))).
      { apply in_map. apply filter_In. split; [exact Hin|]. now apply is_zero_spec. }
      specialize (Hz _ Hd). unfold csat, drop_head in Hz. simpl in Hz.
      rewrite H0. lra.
  - intros [t Ht]. rewrite Forall_forall in Ht. split.
    + intros c Hin. apply in_map_iff in Hin. destruct Hin as [c0 [<- Hc0]].
      apply filter_In in Hc0. destruct Hc0 as [Hc0 Hz]. apply is_zero_spec in Hz.
      specialize (Ht c0 Hc0). apply csat_upd in Ht. rewrite Hz in Ht.
      unfold csat, drop_head. simpl. lra.
    + intros c Hin. apply in_flat_map in Hin. destruct Hin as [p [Hp Hin]].
      apply in_map_iff in Hin. destruct Hin as [q [<- Hq]].
      apply filter_In in Hp. destruct Hp as [Hp Hpp]. apply is_pos_spec in Hpp.
      apply filter_In in Hq. destruct Hq as [Hq Hqn]. apply is_neg_spec in Hqn.
      pose proof (Ht p Hp) as Tp. pose proof (Ht q Hq) as Tq.
      apply csat_upd in Tp. apply csat_upd in Tq.
      unfold csat, combine_bounds. simpl.
      rewrite rdot_vaxpy, rdot_map_mult. nra.
Qed.

Lemma csat_ext (x y : point) (j : nat) (c : rconstraint) :
  (forall i, (j <= i)%nat -> x i = y i) -> csat x j c <-> csat y j c.
Proof. intro H. unfold csat. now rewrite (rdot_ext x y _ j H). Qed.

Lemma Forall_csat_ext (x y : point) (j : nat) (sys : list rconstraint) :
  (forall i, (j <= i)%nat -> x i = y i) ->
  Forall (csat x j) sys -> Forall (csat y j) sys.
Proof.
  intros H HF. eapply Forall_impl; [|exact HF].
  intros c Hc. now apply (csat_ext x y j c H).
Qed.

(** After [k] steps the system speaks of the coordinates from [j + k] on:
    it holds at [x] when the first system holds at a point that agrees with
    [x] there. *)
Lemma eliminate_iff (k : nat) :
  forall (j : nat) (sys : list rconstraint) (x : point),
    Forall (csat x (j + k)) (eliminate k sys) <->
    exists y, (forall i, (j + k <= i)%nat -> y i = x i) /\ Forall (csat y j) sys.
Proof.
  induction k as [|k IH]; intros j sys x.
  - rewrite Nat.add_0_r. simpl. split.
    + intro H. exists x. split; [reflexivity | exact H].
    + intros [y [Hy H]]. now apply (Forall_csat_ext y x j sys Hy).
  - simpl eliminate. replace (j + S k)%nat with (S j + k)%nat by lia.
    rewrite IH. split.
    + intros [y [Hy H]]. apply fm_iff in H. destruct H as [t Ht].
      exists (upd y j t). split; [|exact Ht].
      intros i Hi. rewrite upd_above by lia. apply Hy. exact Hi.
    + intros [y [Hy H]]. exists y. split; [exact Hy|].
      apply fm_iff. exists (y j).
      apply (Forall_csat_ext y (upd y j (y j)) j sys); [|exact H].
      intros i _. unfold upd. destruct (Nat.eqb i j) eqn:E; [|reflexivity].
      apply Nat.eqb_eq in E. now subst.
Qed.

Lemma list_min (U : list R) :
  U <> [] -> exists m, In m U /\ forall u, In u U -> m <= u.
Proof.
  induction U as [|u U IH]; [contradiction|]. intros _.
  destruct U as [|u' U].
  - exists u. split; [now left|]. intros ? [<- | []]. lra.
  - destruct IH as [m [Hm Hmin]]; [discriminate|].
    destruct (Rle_dec u m) as [Hle | Hgt].
    + exists u. split; [now left|]. intros w [<- | Hw]; [lra|].
      eapply Rle_trans; [exact Hle | now apply Hmin].
    + exists m. split; [now right|]. intros w [<- | Hw]; [lra | now apply Hmin].
Qed.

(** On a line: a system in one unknown that has a solution and whose
    solutions are bounded above has a greatest solution. *)
Lemma line_max (z : point) (n : nat) (sys : list rconstraint) (t0 M : R) :
  Forall (csat (upd z n t0) n) sys ->
  (forall t, Forall (csat (upd z n t) n) sys -> t <= M) ->
  exists t1, Forall (csat (upd z n t1) n) sys /\
             forall t, Forall (csat (upd z n t) n) sys -> t <= t1.
Proof.
  intros H0 HM.
  set (K := fun c : rconstraint => rdot z (tl (fst c)) (S n)).
  set (bound := fun c : rconstraint => (snd c - K c) / head c).
  assert (Hsat : forall t, Forall (csat (upd z n t) n) sys <->
                           forall c, In c sys -> head c * t + K c <= snd c).
  { intro t. rewrite Forall_forall. split; intros H c Hc.
    - now apply csat_upd, H.
    - now apply csat_upd, H. }
  assert (Hub : forall t c, In c sys -> 0 < head c ->
                  head c * t + K c <= snd c <-> t <= bound c).
  { intros t c Hc Hp. unfold bound. split; intro H.
    - apply (Rmult_le_reg_l (head c)); [exact Hp|].
      replace (head c * ((snd c - K c) / head c)) with (snd c - K c) by (field; lra).
      lra.
    - apply (Rmult_le_compat_l (head c)) in H; [|lra].
      replace (head c * ((snd c - K c) / head c)) with (snd c - K c) in H by (field; lra).
      lra. }
  destruct (filter is_pos sys) as [|p ps] eqn:E.
  - (* no upper bound: the solutions would not be bounded *)
    exfalso.
    assert (Hbig : Forall (csat (upd z n (Rmax t0 (M + 1))) n) sys).
    { apply Hsat. intros c Hc.
      pose proof (proj1 (Hsat t0) H0 c Hc) as Hc0.
      assert (Hnp : ~ 0 < head c).
      { intro Hp. assert (Hin : In c (filter is_pos sys))
          by (apply filter_In; split; [exact Hc | now apply is_pos_spec]).
        rewrite E in Hin. exact Hin. }
      pose proof (Rmax_l t0 (M + 1)). nra. }
    apply HM in Hbig. pose proof (Rmax_r t0 (M + 1)). lra.
  - destruct (list_min (map bound (filter is_pos sys))) as [m [Hm Hmin]].
    { rewrite E. discriminate. }
    apply in_map_iff in Hm. destruct Hm as [c1 [<- Hc1]].
    apply filter_In in Hc1. destruct Hc1 as [Hc1 Hp1]. apply is_pos_spec in Hp1.
    assert (Hle : forall t, Forall (csat (upd z n t) n) sys -> t <= bound c1).
    { intros t Ht. apply (Hub t c1 Hc1 Hp1). now apply (proj1 (Hsat t) Ht). }
    exists (bound c1). split; [|exact Hle].
    apply Hsat. intros c Hc.
    destruct (Rlt_dec 0 (head c)) as [Hp | Hnp].
    + apply (Hub _ c Hc Hp). apply Hmin. apply in_map. apply filter_In.
      split; [exact Hc | now apply is_pos_spec].
    + pose proof (proj1 (Hsat t0) H0 c Hc) as Hc0.
      pose proof (Hle t0 H0). nra.
Qed.

Lemma rdot_map_Q2R (x : point) (a : list Q) (j : nat) :
  rdot x (map Q2R a) j = dot_at x a j.
Proof.
  revert j. induction a as [|c a IH]; intro j; simpl.
  - reflexivity.
  - now rewrite IH.
Qed.

Lemma rdot_app (x : point) (a b : list R) (j : nat) :
  rdot x (a ++ b) j = rdot x a j + rdot x b (j + List.length a).
Proof.
  revert j. induction a as [|c a IH]; intro j; simpl.
  - rewrite Nat.add_0_r. lra.
  - rewrite IH. replace (S j + List.length a)%nat
      with (j + S (List.length a))%nat by lia. lra.
Qed.

Lemma rdot_repeat_0 (x : point) (k j : nat) : rdot x (repeat 0 k) j = 0.
Proof.
  revert j. induction k as [|k IH]; intro j; simpl.
  - reflexivity.
  - rewrite IH. lra.
Qed.

Lemma dot_at_ext_lt (x y : point) (a : list Q) (j : nat) :
  (forall i, (j <= i < j + List.length a)%nat -> x i = y i) ->
  dot_at x a j = dot_at y a j.
Proof.
  revert j. induction a as [|c a IH]; intros j H; simpl.
  - reflexivity.
  - rewrite (H j) by (simpl; lia). rewrite (IH (S j)); [reflexivity|].
    intros i Hi. apply H. simpl. lia.
Qed.

Lemma lp_width_d (A : matrix) (d : list Q) : (List.length d <= lp_width A d)%nat.
Proof.
  unfold lp_width. induction (rows A) as [|r rs IH]; simpl; lia.
Qed.

Lemma lp_width_row (A : matrix) (d : list Q) (r : list Q) :
  In r (rows A) -> (List.length r <= lp_width A d)%nat.
Proof.
  unfold lp_width. induction (rows A) as [|r0 rs IH]; simpl; [contradiction|].
  intros [-> | H]; [lia|]. specialize (IH H). lia.
Qed.

Lemma Forall2_combine {T U : Type} (R : T -> U -> Prop) (l1 : list T) (l2 : list U) :
  List.length l1 = List.length l2 ->
  Forall2 R l1 l2 <-> Forall (fun c => R (fst c) (snd c)) (combine l1 l2).
Proof.
  revert l2. induction l1 as [|a l1 IH]; intros [|b l2] H; try discriminate; simpl.
  - split; constructor.
  - split; intro HF; inversion HF; subst; constructor; try assumption;
      apply (IH l2); try assumption; simpl in H; lia.
Qed.

Lemma lp_system_iff (A : matrix) (b : vector) (d : list Q) (y : point) :
  List.length (rows A) = List.length (entries b) ->
  Forall (csat y 0) (lp_system A b d) <->
  Hrep_holds A b y /\ y (lp_width A d) <= dot_at y d 0.
Proof.
  intro Hlen. unfold lp_system, Hrep_holds.
  rewrite Forall_app, Forall_map, (Forall2_combine _ _ _ Hlen).
  assert (Hlast : csat y 0 (map Q2R (vneg d)
                              ++ repeat 0 (lp_width A d - List.length d) ++ [1], 0)
                  <-> y (lp_width A d) <= dot_at y d 0).
  { unfold csat. cbn [fst snd]. rewrite !rdot_app, rdot_map_Q2R, dot_at_vneg, rdot_repeat_0.
    simpl rdot. rewrite length_map, repeat_length.
    unfold vneg. rewrite length_map.
    replace (List.length d + (lp_width A d - List.length d))%nat
      with (lp_width A d) by (pose proof (lp_width_d A d); lia).
    split; intro; lra. }
  split.
  - intros [H1 H2]. split.
    + eapply Forall_impl; [|exact H1]. intros [r bi] H. unfold csat in H.
      cbn [fst snd] in *. now rewrite rdot_map_Q2R in H.
    + apply Hlast. now inversion H2.
  - intros [H1 H2]. split.
    + eapply Forall_impl; [|exact H1]. intros [r bi] H. unfold csat.
      cbn [fst snd] in *. now rewrite rdot_map_Q2R.
    + constructor; [now apply Hlast | constructor].
Qed.

(** A linear program that is feasible and bounded has an optimum: the
    solver cannot fail on it. *)
Theorem lp_attains (A : matrix) (b : vector) (d : list Q) :
  (exists x, Hrep_holds A b x) ->
  (exists M, forall x, Hrep_holds A b x -> dot_at x d 0 <= M) ->
  exists sol, optimal (sf_lp A b d) sol.
Proof.
  intros [x0 Hx0] [M HM].
  assert (Hlen : List.length (rows A) = List.length (entries b))
    by (eapply Forall2_length; exact Hx0).
  set (n := lp_width A d).
  set (z := fun _ : nat => 0).
  set (T := fun t => Forall (csat (upd z n t) n) (eliminate n (lp_system A b d))).
  assert (HT : forall t, T t <->
             exists y, (forall i, (n <= i)%nat -> y i = upd z n t i) /\
                       Hrep_holds A b y /\ y n <= dot_at y d 0).
  { intro t. unfold T. rewrite (eliminate_iff n 0 (lp_system A b d)).
    split; intros [y [Hy H]]; exists y; (split; [exact Hy|]);
      now apply (lp_system_iff A b d y Hlen). }
  (* the value of a feasible point is in T *)
  assert (Hval : forall x, Hrep_holds A b x -> T (dot_at x d 0)).
  { intros x Hx. apply HT.
    exists (fun i => if Nat.ltb i n then x i else upd z n (dot_at x d 0) i).
    assert (Hrow : forall (a : list Q), (List.length a <= n)%nat ->
              dot_at (fun i => if Nat.ltb i n then x i else upd z n (dot_at x d 0) i) a 0
              = dot_at x a 0).
    { intros a Ha. apply dot_at_ext_lt. intros i Hi.
      destruct (Nat.ltb i n) eqn:E; [reflexivity|].
      apply Nat.ltb_ge in E. lia. }
    split; [|split].
    - intros i Hi. destruct (Nat.ltb i n) eqn:E; [|reflexivity].
      apply Nat.ltb_lt in E. lia.
    - unfold Hrep_holds in *.
      assert (Hrows : Forall (fun r => (List.length r <= n)%nat) (rows A))
        by (apply Forall_forall; intros r Hr; now apply lp_width_row).
      revert Hrows. generalize (entries b) Hx. generalize (rows A).
      induction l as [|r rs IH]; intros bs H2 Hrows; inversion H2; subst; constructor.
      + inversion Hrows; subst. now rewrite Hrow.
      + inversion Hrows; subst. now apply IH.
    - rewrite Nat.ltb_irrefl, upd_same. rewrite Hrow by apply lp_width_d. lra. }
  assert (Hbound : forall t, T t -> t <= M).
  { intros t Ht. apply HT in Ht. destruct Ht as [y [Hy [Hf Hle]]].
    rewrite (Hy n) in Hle by lia. rewrite upd_same in Hle.
    specialize (HM y Hf). lra. }
  destruct (line_max z n _ (dot_at x0 d 0) M (Hval x0 Hx0) Hbound) as [t1 [Ht1 Hmax]].
  fold (T t1) in Ht1. apply HT in Ht1. destruct Ht1 as [y [Hy [Hf Hle]]].
  rewrite (Hy n) in Hle by lia. rewrite upd_same in Hle.
  exists {| objective_value := dot_at y d 0;
            get_values := fun v => match v with x_ j => y j | r_ _ => 0 end |}.
  apply optimal_sf_lp. simpl. split; [exact Hf|]. split; [reflexivity|].
  intros x Hx. specialize (Hmax _ (Hval x Hx)). lra.
Qed.

(** *** support_function: the answer of a run *)

Lemma runs_sf_solve_returned (A : matrix) (b : vector) (d : list Q) (return_xopt : bool)
  (solver : string) (r : sf_value) :
  runs (sf_solve A b d return_xopt solver) (Returned r) ->
  exists sol, optimal (sf_lp A b d) sol /\ r = sf_answer A d return_xopt sol.
Proof.
  unfold runs, sf_solve. rewrite !exec_Call_iff. simpl mip_step.
  fold (sf_lp A b d). intro H. inversion H; subst.
  exists sol. split; [assumption|].
  unfold sf_answer.
  destruct return_xopt;
    match goal with He : exec _ (Return _) _ |- _ =>
      apply exec_Return_iff in He; now injection He end.
Qed.

(** ** Further properties *)

(** *** The sets of the examples *)

Lemma segment_holds (x : point) :
  Hrep_holds A_segment b_segment x <-> -1 <= x 0%nat <= 1.
Proof.
  unfold Hrep_holds, A_segment, b_segment. cbn [rows entries]. split.
  - intro H. inversion H as [|? ? ? ? H1 H']; subst.
    inversion H' as [|? ? ? ? H2 _]; subst.
    simpl in H1, H2. rewrite Q2R_one in *. rewrite Q2R_minus_one in *. lra.
  - intro H. constructor; [|constructor; [|constructor]];
      simpl; rewrite ?Q2R_one, ?Q2R_minus_one; lra.
Qed.

Lemma segment_nonempty : exists x, Hrep_holds A_segment b_segment x.
Proof. exists (fun _ => 0). apply segment_holds. lra. Qed.

Lemma segment_bounded :
  exists M, forall x, Hrep_holds A_segment b_segment x ->
                      forall j, (j < ncols A_segment)%nat -> Rabs (x j) <= M.
Proof.
  exists 1. intros x Hx j Hj. apply segment_holds in Hx.
  destruct j as [|j]; [|simpl in Hj; lia]. apply Rabs_le. lra.
Qed.


Lemma doubles_exact (gens : list Hrep_gen) : doubles (fun q => q) gens.
Proof.
  unfold doubles, is_double. apply Forall_forall. intros g _.
  split; [split; reflexivity|]. apply Forall_forall. intros q _. split; reflexivity.
Qed.
(** *** polyhedron_to_Hrep: closed forms and the sets represented *)

Lemma to_Hrep_fold (gens : list Hrep_gen) (A : list (list Q)) (b : list Q) :
  fold_left to_Hrep_step gens (A, b)
  = (A ++ flat_map default_rows gens, b ++ flat_map default_bounds gens).
Proof.
  revert A b. induction gens as [|g gens IH]; intros A b; cbn [fold_left flat_map].
  - now rewrite !app_nil_r.
  - unfold default_rows, default_bounds.
    destruct (is_equation g) eqn:E.
    + rewrite (to_Hrep_step_equation A b g E), IH, <- !app_assoc. reflexivity.
    + rewrite (to_Hrep_step_inequality A b g E), IH, <- !app_assoc. reflexivity.
Qed.

Lemma to_Hrep_sep_fold (gens : list Hrep_gen)
  (A Aeq : list (list Q)) (b beq : list Q) :
  fold_left to_Hrep_sep_step gens ((A, b), (Aeq, beq))
  = ((A ++ map (fun g => vneg (gen_A g)) (filter is_inequality gens),
      b ++ map gen_b (filter is_inequality gens)),
     (Aeq ++ map (fun g => vneg (gen_A g)) (filter is_equation gens),
      beq ++ map gen_b (filter is_equation gens))).
Proof.
  revert A Aeq b beq.
  induction gens as [|g gens IH]; intros A Aeq b beq; cbn [fold_left filter].
  - now rewrite !app_nil_r.
  - assert (Ei : is_inequality g = negb (is_equation g)) by reflexivity.
    unfold to_Hrep_sep_step at 2. rewrite Ei.
    destruct (is_equation g) eqn:E; cbn [negb gen_vector skipn nth map];
      rewrite IH, <- !app_assoc; reflexivity.
Qed.

Lemma dot_at_Qeq (x : point) (a a' : list Q) (j : nat) :
  Forall2 Qeq a a' -> dot_at x a j = dot_at x a' j.
Proof.
  intro H. revert j. induction H as [|c c' a a' Hc _ IH]; intro j; simpl.
  - reflexivity.
  - now rewrite (Qeq_eqR _ _ Hc), IH.
Qed.

Lemma dot_at_cast_exact (RDF_round : Q -> Q) (a : list Q) (x : point) (j : nat) :
  Forall (is_double RDF_round) a ->
  dot_at x (map (cast RDF_round RDF) a) j = dot_at x a j /\
  dot_at x (map (cast RDF_round RDF) (vneg a)) j = - dot_at x a j.
Proof.
  intro H. revert j. induction H as [|c a [Hc Hc'] _ IH]; intro j; simpl.
  - split; lra.
  - destruct (IH (S j)) as [-> ->].
    rewrite (Qeq_eqR _ _ Hc), (Qeq_eqR _ _ Hc'), Q2R_opp. split; lra.
Qed.

(** A generator read as the inequality [a.x + β >= 0], and as the equation. *)
Lemma cast_row_le (RDF_round : Q -> Q) (g : Hrep_gen) (x : point) :
  is_double RDF_round (gen_b g) /\ Forall (is_double RDF_round) (gen_A g) ->
  (dot_at x (map (cast RDF_round RDF) (vneg (gen_A g))) 0
     <= Q2R (cast RDF_round RDF (gen_b g))
   <-> 0 <= dot_at x (gen_A g) 0 + Q2R (gen_b g)) /\
  (dot_at x (map (cast RDF_round RDF) (gen_A g)) 0
     <= Q2R (cast RDF_round RDF (gen_b g))
   <-> dot_at x (gen_A g) 0 <= Q2R (gen_b g)) /\
  (dot_at x (map (cast RDF_round RDF) (vneg (gen_A g))) 0
     = Q2R (cast RDF_round RDF (gen_b g))
   <-> dot_at x (gen_A g) 0 + Q2R (gen_b g) = 0).
Proof.
  intros [[Hb _] Ha].
  destruct (dot_at_cast_exact RDF_round (gen_A g) x 0 Ha) as [-> ->].
  simpl cast. rewrite (Qeq_eqR _ _ Hb). repeat split; intro; lra.
Qed.

Lemma sep_rows_hold (RDF_round : Q -> Q) (gs : list Hrep_gen) (x : point) :
  doubles RDF_round gs ->
  (Forall2 (fun row bi => dot_at x row 0 <= Q2R bi)
     (map (map (cast RDF_round RDF)) (map (fun g => vneg (gen_A g)) gs))
     (map (cast RDF_round RDF) (map gen_b gs))
   <-> Forall (fun g => 0 <= dot_at x (gen_A g) 0 + Q2R (gen_b g)) gs) /\
  (Forall2 (fun row bi => dot_at x row 0 = Q2R bi)
     (map (map (cast RDF_round RDF)) (map (fun g => vneg (gen_A g)) gs))
     (map (cast RDF_round RDF) (map gen_b gs))
   <-> Forall (fun g => dot_at x (gen_A g) 0 + Q2R (gen_b g) = 0) gs).
Proof.
  induction 1 as [|g gs Hg _ [IH1 IH2]]; simpl.
  - split; split; constructor.
  - destruct (cast_row_le RDF_round g x Hg) as (Hle & _ & Heq).
    split; split; intro H; inversion H; subst; constructor;
      first [now apply Hle | now apply Heq | now apply IH1 | now apply IH2].
Qed.

Lemma Forall_filter_split {T : Type} (f : T -> bool) (Pt Pf : T -> Prop) (l : list T) :
  Forall (fun a => if f a then Pt a else Pf a) l <->
  Forall Pt (filter f l) /\ Forall Pf (filter (fun a => negb (f a)) l).
Proof.
  induction l as [|a l IH]; simpl.
  - split; [split; constructor | constructor].
  - destruct (f a) eqn:E; simpl; split.
    + intro H. inversion H; subst. rewrite E in *.
      apply IH in H3. destruct H3. split; [constructor|]; assumption.
    + intros [H1 H2]. inversion H1; subst. constructor; [now rewrite E|].
      apply IH. now split.
    + intro H. inversion H; subst. rewrite E in *.
      apply IH in H3. destruct H3. split; [|constructor]; assumption.
    + intros [H1 H2]. inversion H2; subst. constructor; [now rewrite E|].
      apply IH. now split.
Qed.

Lemma doubles_filter (RDF_round : Q -> Q) (f : Hrep_gen -> bool) (gens : list Hrep_gen) :
  doubles RDF_round gens -> doubles RDF_round (filter f gens).
Proof.
  unfold doubles. rewrite !Forall_forall. intros H g Hg.
  apply filter_In in Hg. now apply H.
Qed.

Lemma to_Hrep_separate_points (RDF_round : Q -> Q) (P : polyhedron) :
  doubles RDF_round (Hrepresentation P) ->
  match polyhedron_to_Hrep RDF_round P true with
  | Hrep4 A b Aeq beq =>
      forall x, in_polyhedron P x <-> Hrep_holds A b x /\ Hrep_eq_holds Aeq beq x
  | Hrep2 _ _ => False
  end.
Proof.
  intro Hd. unfold polyhedron_to_Hrep. cbn [negb].
  rewrite to_Hrep_sep_fold. cbn [app]. intro x.
  unfold Hrep_holds, Hrep_eq_holds, matrix_of_rows, vector_of_list. cbn [rows entries].
  rewrite (proj1 (sep_rows_hold RDF_round _ x (doubles_filter _ is_inequality _ Hd))).
  rewrite (proj2 (sep_rows_hold RDF_round _ x (doubles_filter _ is_equation _ Hd))).
  unfold in_polyhedron, gen_holds.
  rewrite (Forall_filter_split is_equation
             (fun g => dot_at x (gen_A g) 0 + Q2R (gen_b g) = 0)
             (fun g => 0 <= dot_at x (gen_A g) 0 + Q2R (gen_b g))).
  tauto.
Qed.

(** X1: with [separate_equality_constraints], on a polytope whose
    coefficients are doubles, the four objects returned describe the
    polytope: [x] is a point of [P] exactly when [A x <= b] and
    [Aeq x = beq]. *)
Theorem polyhedron_to_Hrep_separate_exact (RDF_round : Q -> Q) (P : polyhedron) :
  doubles RDF_round (Hrepresentation P) ->
  match polyhedron_to_Hrep RDF_round P true with
  | Hrep4 A b Aeq beq =>
      forall x, in_polyhedron P x <-> Hrep_holds A b x /\ Hrep_eq_holds Aeq beq x
  | Hrep2 _ _ => False
  end.
Proof. exact (to_Hrep_separate_points RDF_round P). Qed.

Lemma polyhedron_to_Hrep_separate_exact_witness :
  match polyhedron_to_Hrep (fun q => q) P_point true with
  | Hrep4 A b Aeq beq =>
      forall x, in_polyhedron P_point x <-> Hrep_holds A b x /\ Hrep_eq_holds Aeq beq x
  | Hrep2 _ _ => False
  end.
Proof.
  exact (polyhedron_to_Hrep_separate_exact (fun q => q) P_point
           (doubles_exact (Hrepresentation P_point))).
Defined.

Lemma default_rows_hold (RDF_round : Q -> Q) (gens : list Hrep_gen) (x : point) :
  doubles RDF_round gens ->
  Forall2 (fun row bi => dot_at x row 0 <= Q2R bi)
    (map (map (cast RDF_round RDF)) (flat_map default_rows gens))
    (map (cast RDF_round RDF) (flat_map default_bounds gens))
  <-> Forall (fun g => 0 <= dot_at x (gen_A g) 0 + Q2R (gen_b g) /\
                       (is_equation g = true -> dot_at x (gen_A g) 0 <= Q2R (gen_b g)))
             gens.
Proof.
  induction 1 as [|g gs Hg _ IH]; cbn [flat_map].
  - simpl. split; constructor.
  - destruct (cast_row_le RDF_round g x Hg) as (Hle & Hle' & _).
    unfold default_rows at 1, default_bounds at 1.
    destruct (is_equation g) eqn:E; cbn [app map]; split; intro H.
    + inversion H as [|? ? ? ? H1 H']; subst.
      inversion H' as [|? ? ? ? H2 H'']; subst.
      constructor; [|now apply IH]. split; [now apply Hle|]. intros _. now apply Hle'.
    + inversion H as [|? ? [H1 H2] H']; subst.
      constructor; [now apply Hle|]. constructor; [apply Hle'; now apply H2|].
      now apply IH.
    + inversion H as [|? ? ? ? H1 H']; subst.
      constructor; [|now apply IH]. split; [now apply Hle | congruence].
    + inversion H as [|? ? [H1 H2] H']; subst.
      constructor; [now apply Hle | now apply IH].
Qed.

(** The system of the default mode, generator by generator. *)
Lemma to_Hrep_default_points (RDF_round : Q -> Q) (P : polyhedron) :
  doubles RDF_round (Hrepresentation P) ->
  match polyhedron_to_Hrep RDF_round P false with
  | Hrep2 A b =>
      forall x, Hrep_holds A b x <->
        Forall (fun g => 0 <= dot_at x (gen_A g) 0 + Q2R (gen_b g) /\
                         (is_equation g = true -> dot_at x (gen_A g) 0 <= Q2R (gen_b g)))
               (Hrepresentation P)
  | Hrep4 _ _ _ _ => False
  end.
Proof.
  intro Hd. unfold polyhedron_to_Hrep. cbn [negb].
  rewrite to_Hrep_fold. cbn [app]. intro x.
  unfold Hrep_holds, matrix_of_rows, vector_of_list. cbn [rows entries].
  now apply default_rows_hold.
Qed.

(** X2: in the default mode, on a polytope whose coefficients are doubles,
    the system [A x <= b] returned holds at [x] exactly when every
    generator [[β, a]] has [a.x + β >= 0] and every equation among them
    has, besides, [a.x <= β]: an equation [a.x + β = 0] is returned as
    [-β <= a.x <= β]. *)
Theorem polyhedron_to_Hrep_default_set (RDF_round : Q -> Q) (P : polyhedron) :
  doubles RDF_round (Hrepresentation P) ->
  match polyhedron_to_Hrep RDF_round P false with
  | Hrep2 A b =>
      forall x, Hrep_holds A b x <->
        Forall (fun g => 0 <= dot_at x (gen_A g) 0 + Q2R (gen_b g) /\
                         (is_equation g = true -> dot_at x (gen_A g) 0 <= Q2R (gen_b g)))
               (Hrepresentation P)
  | Hrep4 _ _ _ _ => False
  end.
Proof. exact (to_Hrep_default_points RDF_round P). Qed.

Lemma polyhedron_to_Hrep_default_set_witness :
  match polyhedron_to_Hrep (fun q => q) P_point false with
  | Hrep2 A b =>
      forall x, Hrep_holds A b x <->
        Forall (fun g => 0 <= dot_at x (gen_A g) 0 + Q2R (gen_b g) /\
                         (is_equation g = true -> dot_at x (gen_A g) 0 <= Q2R (gen_b g)))
               (Hrepresentation P_point)
  | Hrep4 _ _ _ _ => False
  end.
Proof.
  exact (polyhedron_to_Hrep_default_set (fun q => q) P_point
           (doubles_exact (Hrepresentation P_point))).
Defined.

(** X3: in the default mode the system returned describes the polytope
    itself when every equation among the generators has [β = 0], in
    particular when the polytope has no equation (it is full-dimensional). *)
Theorem polyhedron_to_Hrep_default_exact (RDF_round : Q -> Q) (P : polyhedron) :
  doubles RDF_round (Hrepresentation P) ->
  Forall (fun g => is_equation g = true -> (gen_b g == 0)%Q) (Hrepresentation P) ->
  match polyhedron_to_Hrep RDF_round P false with
  | Hrep2 A b => forall x, in_polyhedron P x <-> Hrep_holds A b x
  | Hrep4 _ _ _ _ => False
  end.
Proof.
  intros Hd H0. pose proof (to_Hrep_default_points RDF_round P Hd) as H.
  destruct (polyhedron_to_Hrep RDF_round P false) as [A b|]; [|exact H].
  intro x. rewrite H. unfold in_polyhedron, gen_holds.
  rewrite !Forall_forall. rewrite Forall_forall in H0.
  split; intros Hx g Hg; specialize (Hx g Hg); specialize (H0 g Hg).
  - destruct (is_equation g).
    + specialize (H0 eq_refl). apply Qeq_eqR in H0.
      replace (Q2R 0) with 0 in H0 by (unfold Q2R; simpl; lra).
      split; [lra | intros _; lra].
    + split; [exact Hx | discriminate].
  - destruct (is_equation g).
    + specialize (H0 eq_refl). apply Qeq_eqR in H0.
      replace (Q2R 0) with 0 in H0 by (unfold Q2R; simpl; lra).
      destruct Hx as [H1 H2]. specialize (H2 eq_refl). lra.
    + apply Hx.
Qed.

Lemma polyhedron_to_Hrep_default_exact_witness :
  match polyhedron_to_Hrep (fun q => q) P_box false with
  | Hrep2 A b => forall x, in_polyhedron P_box x <-> Hrep_holds A b x
  | Hrep4 _ _ _ _ => False
  end.
Proof.
  apply (polyhedron_to_Hrep_default_exact (fun q => q) P_box).
  - apply doubles_exact.
  - apply Forall_forall. intros g Hg He. exfalso.
    simpl in Hg. intuition (subst g; discriminate).
Defined.

(** *** polyhedron_from_Hrep on a Sage matrix and vector *)

Lemma ieqs_loop_Ok (A : matrix) (b : list Q) (range : list nat) (acc : list (list Q)) :
  Forall (fun i => (i < List.length b)%nat) range ->
  ieqs_loop A b range acc
  = Ok (acc ++ map (fun i => nth i b 0%Q :: vneg (row A i)) range).
Proof.
  revert acc. induction range as [|i range IH]; intros acc H; simpl.
  - now rewrite app_nil_r.
  - inversion H as [|? ? Hi H']; subst.
    destruct (nth_error b i) as [bi|] eqn:E.
    + rewrite (IH _ H'), <- app_assoc. simpl.
      now rewrite (nth_error_nth _ _ _ E).
    + apply nth_error_None in E. lia.
Qed.

Lemma ieqs_loop_Error (A : matrix) (b : list Q) (range : list nat) (acc : list (list Q)) :
  Exists (fun i => (List.length b <= i)%nat) range ->
  ieqs_loop A b range acc = Error IndexError.
Proof.
  revert acc. induction range as [|i range IH]; intros acc H; simpl.
  - inversion H.
  - destruct (nth_error b i) as [bi|] eqn:E; [|reflexivity].
    apply IH. inversion H as [? ? Hi|]; subst; [|assumption].
    exfalso. assert (nth_error b i <> None) by congruence.
    apply nth_error_Some in H0. lia.
Qed.

Lemma from_Hrep_Sage (RDF_round : Q -> Q)
  (Polyhedron : list (list Q) -> ring -> nat -> string -> polyhedron)
  (A : matrix) (b : vector) (R : ring) :
  R = QQ \/ R = RDF ->
  polyhedron_from_Hrep RDF_round Polyhedron (SageMatrix A) (SageVector b) R
  = match ieqs_loop A (entries b) (seq 0 (nrows A)) [] with
    | Ok ieqs_list =>
        Ok (Polyhedron ieqs_list R (ncols A) (if ring_eqb R RDF then "cdd" else "ppl"))
    | Error e => Error e
    end.
Proof. intros [-> | ->]; reflexivity. Qed.

(** The rows [[b_i, -A_i]] handed to the constructor. *)
Lemma ieqs_hold_iff (x : point) (rs : list (list Q)) (bs : list Q) :
  List.length rs = List.length bs ->
  Forall (ieq_holds x)
    (map (fun i => nth i bs 0%Q :: vneg (nth i rs [])) (seq 0 (List.length rs)))
  <-> Forall2 (fun row bi => dot_at x row 0 <= Q2R bi) rs bs.
Proof.
  revert bs. induction rs as [|r rs IH]; intros [|bi bs] H; try discriminate.
  - simpl. split; constructor.
  - cbn [List.length seq map]. rewrite <- seq_shift, map_map.
    cbn [nth]. split; intro HF; inversion HF; subst; constructor.
    + unfold ieq_holds in H2. simpl in H2. rewrite dot_at_vneg in H2. lra.
    + apply IH; [simpl in H; lia | assumption].
    + unfold ieq_holds. simpl. rewrite dot_at_vneg. lra.
    + apply IH; [simpl in H; lia | assumption].
Qed.

Lemma ieqs_width (A : matrix) (b : vector) :
  Forall (fun r => List.length r = ncols A) (rows A) ->
  Forall (fun ieq => List.length ieq = S (ncols A))
    (map (fun i => nth i (entries b) 0%Q :: vneg (row A i)) (seq 0 (nrows A))).
Proof.
  intro Hw. apply Forall_forall. intros ieq Hin.
  apply in_map_iff in Hin. destruct Hin as [i [<- Hi]]. apply in_seq in Hi.
  simpl. f_equal. unfold vneg, row. rewrite length_map.
  rewrite Forall_forall in Hw. apply Hw. apply nth_In. unfold nrows in Hi. lia.
Qed.

Lemma from_Hrep_points
  (RDF_round : Q -> Q)
  (Polyhedron : list (list Q) -> ring -> nat -> string -> polyhedron)
  (A : matrix) (b : vector) (R : ring) :
  Polyhedron_spec Polyhedron ->
  R = QQ \/ R = RDF ->
  nrows A = length b ->
  Forall (fun r => List.length r = ncols A) (rows A) ->
  exists P,
    polyhedron_from_Hrep RDF_round Polyhedron (SageMatrix A) (SageVector b) R = Ok P /\
    forall x, in_polyhedron P x <-> Hrep_holds A b x.
Proof.
  intros Hspec HR Hlen Hw.
  rewrite (from_Hrep_Sage _ _ _ _ _ HR).
  rewrite ieqs_loop_Ok.
  - eexists. split; [reflexivity|]. intro x. cbn [app].
    destruct (Hspec _ R (ncols A) (if ring_eqb R RDF then "cdd" else "ppl")
                (ieqs_width A b Hw)) as (_ & S & _).
    unfold in_polyhedron. rewrite S. unfold row, nrows, Hrep_holds.
    apply ieqs_hold_iff. exact Hlen.
  - apply Forall_forall. intros i Hi. apply in_seq in Hi.
    unfold length in Hlen. lia.
Qed.

(** X4: for a Sage matrix [A] with rows of [ncols] entries and a vector [b]
    with one bound for each row, over [QQ] or [RDF], and a constructor
    that meets its specification: the polytope built has exactly the
    points of [{x : A x <= b}] (the rows are handed over as
    [[b_i, -A_i]]). *)
Theorem polyhedron_from_Hrep_represents
  (RDF_round : Q -> Q)
  (Polyhedron : list (list Q) -> ring -> nat -> string -> polyhedron)
  (A : matrix) (b : vector) (R : ring) :
  Polyhedron_spec Polyhedron ->
  R = QQ \/ R = RDF ->
  nrows A = length b ->
  Forall (fun r => List.length r = ncols A) (rows A) ->
  exists P,
    polyhedron_from_Hrep RDF_round Polyhedron (SageMatrix A) (SageVector b) R = Ok P /\
    forall x, in_polyhedron P x <-> Hrep_holds A b x.
Proof. exact (from_Hrep_points RDF_round Polyhedron A b R). Qed.

Lemma polyhedron_from_Hrep_represents_witness :
  exists P,
    polyhedron_from_Hrep (fun q => q) Polyhedron_of_rows
      (SageMatrix A_segment) (SageVector b_segment) QQ = Ok P /\
    forall x, in_polyhedron P x <-> Hrep_holds A_segment b_segment x.
Proof.
  apply polyhedron_from_Hrep_represents.
  - exact Polyhedron_of_rows_spec.
  - now left.
  - reflexivity.
  - unfold A_segment. simpl. constructor; [reflexivity|]. constructor; [reflexivity|].
    constructor.
Defined.

(** X5: there is no check of the dimensions.  A vector [b] shorter than the
    row count of [A] raises [IndexError]; no polytope is built. *)
Theorem polyhedron_from_Hrep_short_b
  (RDF_round : Q -> Q)
  (Polyhedron : list (list Q) -> ring -> nat -> string -> polyhedron)
  (A : matrix) (b : vector) (R : ring) :
  R = QQ \/ R = RDF ->
  (length b < nrows A)%nat ->
  polyhedron_from_Hrep RDF_round Polyhedron (SageMatrix A) (SageVector b) R
  = Error IndexError.
Proof.
  intros HR Hlen. rewrite (from_Hrep_Sage _ _ _ _ _ HR).
  rewrite ieqs_loop_Error; [reflexivity|].
  apply Exists_exists. exists (length b). split.
  - apply in_seq. lia.
  - unfold length. lia.
Qed.

Lemma polyhedron_from_Hrep_short_b_witness :
  polyhedron_from_Hrep (fun q => q) Polyhedron_of_rows
    (SageMatrix A_segment) (SageVector {| vbase_ring := QQ; entries := [1%Q] |}) QQ
  = Error IndexError.
Proof.
  apply polyhedron_from_Hrep_short_b.
  - now left.
  - unfold nrows, length. simpl. lia.
Defined.

(** X6: the entries of [b] past the row count of [A] are ignored: the call
    is the one with [b] cut to the first [nrows A] entries, and no error
    is raised on the way to the constructor, whose object is returned. *)
Theorem polyhedron_from_Hrep_long_b
  (RDF_round : Q -> Q)
  (Polyhedron : list (list Q) -> ring -> nat -> string -> polyhedron)
  (A : matrix) (b : vector) (R : ring) :
  R = QQ \/ R = RDF ->
  (nrows A <= length b)%nat ->
  polyhedron_from_Hrep RDF_round Polyhedron (SageMatrix A) (SageVector b) R
  = polyhedron_from_Hrep RDF_round Polyhedron (SageMatrix A)
      (SageVector {| vbase_ring := vbase_ring b;
                     entries := firstn (nrows A) (entries b) |}) R /\
  exists P,
    polyhedron_from_Hrep RDF_round Polyhedron (SageMatrix A) (SageVector b) R = Ok P.
Proof.
  intros HR Hlen. unfold length in Hlen.
  rewrite !(from_Hrep_Sage _ _ _ _ _ HR). cbn [entries].
  rewrite !ieqs_loop_Ok.
  - split; [|eexists; reflexivity]. cbn [app]. do 2 f_equal.
    apply map_ext_in. intros i Hi. apply in_seq in Hi.
    f_equal. rewrite nth_firstn.
    destruct (Nat.ltb i (nrows A)) eqn:E; [reflexivity|].
    apply Nat.ltb_ge in E. lia.
  - apply Forall_forall. intros i Hi. apply in_seq in Hi.
    rewrite length_firstn. lia.
  - apply Forall_forall. intros i Hi. apply in_seq in Hi. lia.
Qed.

Lemma polyhedron_from_Hrep_long_b_witness :
  polyhedron_from_Hrep (fun q => q) Polyhedron_of_rows
    (SageMatrix A_segment) (SageVector {| vbase_ring := QQ; entries := [1; 1; 5]%Q |}) QQ
  = polyhedron_from_Hrep (fun q => q) Polyhedron_of_rows
      (SageMatrix A_segment)
      (SageVector {| vbase_ring := QQ;
                     entries := firstn (nrows A_segment) [1; 1; 5]%Q |}) QQ /\
  exists P,
    polyhedron_from_Hrep (fun q => q) Polyhedron_of_rows
      (SageMatrix A_segment) (SageVector {| vbase_ring := QQ; entries := [1; 1; 5]%Q |}) QQ
    = Ok P.
Proof.
  apply (polyhedron_from_Hrep_long_b (fun q => q) Polyhedron_of_rows A_segment
           {| vbase_ring := QQ; entries := [1; 1; 5]%Q |} QQ).
  - now left.
  - unfold nrows, length. simpl. lia.
Defined.

(** X7: round trip.  Building the polytope of [{x : A x <= b}] and
    extracting its constraints with [separate_equality_constraints] gives a
    system with the same points, when the coefficients of the polytope
    built are doubles. *)
Theorem Hrep_round_trip
  (RDF_round : Q -> Q)
  (Polyhedron : list (list Q) -> ring -> nat -> string -> polyhedron)
  (A : matrix) (b : vector) (R : ring) :
  Polyhedron_spec Polyhedron ->
  R = QQ \/ R = RDF ->
  nrows A = length b ->
  Forall (fun r => List.length r = ncols A) (rows A) ->
  exists P,
    polyhedron_from_Hrep RDF_round Polyhedron (SageMatrix A) (SageVector b) R = Ok P /\
    (doubles RDF_round (Hrepresentation P) ->
     match polyhedron_to_Hrep RDF_round P true with
     | Hrep4 A' b' Aeq' beq' =>
         forall x, Hrep_holds A' b' x /\ Hrep_eq_holds Aeq' beq' x <-> Hrep_holds A b x
     | Hrep2 _ _ => False
     end).
Proof.
  intros Hspec HR Hlen Hw.
  destruct (from_Hrep_points RDF_round Polyhedron A b R Hspec HR Hlen Hw)
    as [P [HP Hset]].
  exists P. split; [exact HP|]. intro Hd.
  pose proof (to_Hrep_separate_points RDF_round P Hd) as H.
  destruct (polyhedron_to_Hrep RDF_round P true) as [|A' b' Aeq' beq']; [exact H|].
  intro x. rewrite <- Hset. symmetry. apply H.
Qed.

Lemma Hrep_round_trip_witness :
  exists P,
    polyhedron_from_Hrep (fun q => q) Polyhedron_of_rows
      (SageMatrix A_segment) (SageVector b_segment) QQ = Ok P /\
    (doubles (fun q => q) (Hrepresentation P) ->
     match polyhedron_to_Hrep (fun q => q) P true with
     | Hrep4 A' b' Aeq' beq' =>
         forall x, Hrep_holds A' b' x /\ Hrep_eq_holds Aeq' beq' x
                   <-> Hrep_holds A_segment b_segment x
     | Hrep2 _ _ => False
     end).
Proof.
  apply Hrep_round_trip.
  - exact Polyhedron_of_rows_spec.
  - now left.
  - reflexivity.
  - unfold A_segment. simpl. constructor; [reflexivity|]. constructor; [reflexivity|].
    constructor.
Defined.
(** *** support_function: what is returned, and when *)


Lemma support_function_list (A : matrix) (b : vector) (d : list Q) (return_xopt : bool)
  (solver : string) :
  support_function (PyList [PyMatrix A; PyVector b]) d return_xopt solver
  = sf_solve A b d return_xopt solver.
Proof. reflexivity. Qed.

(** The maximum of [d.x] on [{x : A x <= b}]. *)
Lemma optimal_of_max (A : matrix) (b : vector) (d : list Q) (x : point) :
  Hrep_holds A b x ->
  (forall y, Hrep_holds A b y -> dot_at y d 0 <= dot_at x d 0) ->
  optimal (sf_lp A b d)
    {| objective_value := dot_at x d 0;
       get_values := fun v => match v with x_ j => x j | r_ _ => 0 end |}.
Proof.
  intros Hx Hmax. apply optimal_sf_lp. simpl. repeat split; assumption.
Qed.

Lemma sf_solve_value (A : matrix) (b : vector) (d : list Q) (solver : string) (v : R) :
  runs (sf_solve A b d false solver) (Returned (Value v)) <->
  (forall x, Hrep_holds A b x -> dot_at x d 0 <= v) /\
  (exists x, Hrep_holds A b x /\ dot_at x d 0 = v).
Proof.
  split.
  - intro H. apply runs_sf_solve_returned in H. destruct H as (sol & Hs & Hv).
    injection Hv as ->. apply optimal_sf_lp in Hs. destruct Hs as (F & V & M).
    split; [exact M|]. exists (x_of (get_values sol)). split; [exact F | now rewrite V].
  - intros [Hub [x [Hx Hv]]]. subst v.
    pose proof (optimal_of_max A b d x Hx Hub) as Hs.
    apply runs_sf_solve; [eexists; exact Hs|]. eexists. split; [exact Hs|]. reflexivity.
Qed.






(** X11: on a polytope object that does not report itself empty and has
    generators, [support_function] is the program it is on the list
    [[A, b]] with one row [-a] and one bound [β] for every generator
    [[β, a]], equation or not: the set of the LP posed is that of the
    generators read as inequalities [a.x + β >= 0], which contains the
    polytope. *)
Theorem support_function_object_lp (P : polyhedron) :
  is_empty P = false ->
  Hrepresentation P <> [] ->
  (forall d return_xopt solver,
     support_function (PyPolyhedron P) d return_xopt solver
     = support_function (PyList [PyMatrix (sf_matrix P); PyVector (sf_vector P)])
         d return_xopt solver) /\
  nrows (sf_matrix P) = length (sf_vector P) /\
  (forall x, Hrep_holds (sf_matrix P) (sf_vector P) x <->
             Forall (fun g => 0 <= dot_at x (gen_A g) 0 + Q2R (gen_b g))
                    (Hrepresentation P)) /\
  (forall x, in_polyhedron P x -> Hrep_holds (sf_matrix P) (sf_vector P) x).
Proof.
  intros He Hg. split; [|split; [|split]].
  - intros d rx solver. rewrite support_function_list.
    now apply support_function_polyhedron.
  - unfold nrows, length, sf_matrix, sf_vector. cbn [rows entries].
    now rewrite !length_map.
  - intro x. apply Hrep_holds_sf.
  - intros x Hx. apply Hrep_holds_sf. unfold in_polyhedron in Hx.
    eapply Forall_impl; [|exact Hx]. intros g H. unfold gen_holds in H.
    destruct (is_equation g); lra.
Qed.

Lemma support_function_object_lp_witness :
  (forall d return_xopt solver,
     support_function (PyPolyhedron P_point) d return_xopt solver
     = support_function
         (PyList [PyMatrix (sf_matrix P_point); PyVector (sf_vector P_point)])
         d return_xopt solver) /\
  nrows (sf_matrix P_point) = length (sf_vector P_point) /\
  (forall x, Hrep_holds (sf_matrix P_point) (sf_vector P_point) x <->
             Forall (fun g => 0 <= dot_at x (gen_A g) 0 + Q2R (gen_b g))
                    (Hrepresentation P_point)) /\
  (forall x, in_polyhedron P_point x ->
             Hrep_holds (sf_matrix P_point) (sf_vector P_point) x).
Proof.
  apply (support_function_object_lp P_point).
  - reflexivity.
  - discriminate.
Defined.
(** *** chebyshev_center *)

Lemma mip_calls_chebyshev_constraints {T : Type} (A : matrix) (b : vector) (m : nat)
  (range : list nat) (k : prog T) :
  mip_calls (chebyshev_constraints A b m range k)
  = map (fun i => add_constraint (chebyshev_constraint A b m i)) range ++ mip_calls k.
Proof.
  induction range as [|i range IH]; simpl; [reflexivity|]. now rewrite IH.
Qed.

Lemma invokes_solver_chebyshev_constraints {T : Type} (A : matrix) (b : vector) (m : nat)
  (range : list nat) (k : prog T) :
  invokes_solver (chebyshev_constraints A b m range k) = invokes_solver k.
Proof.
  induction range as [|i range IH]; simpl; [reflexivity | exact IH].
Qed.

Lemma exec_chebyshev_constraints {T : Type} (A : matrix) (b : vector) (m : nat)
  (range : list nat) (k : prog T) (p : lp) (o : outcome T) :
  exec (Some p) (chebyshev_constraints A b m range k) o <->
  exec (Some {| maximization := maximization p; objective := objective p;
                constraints := constraints p
                               ++ map (chebyshev_constraint A b m) range |}) k o.
Proof.
  revert p. induction range as [|i range IH]; intro p; simpl.
  - rewrite app_nil_r. now destruct p.
  - rewrite exec_Call_iff. simpl mip_step. rewrite IH. simpl.
    now rewrite <- app_assoc.
Qed.

(** [chebyshev_center] on a matrix and a vector of matching dimensions. *)
Lemma chebyshev_center_Ab_matching (A : matrix) (b : vector) :
  nrows A = length b ->
  chebyshev_center_Ab (PyMatrix A) (PyVector b)
  = Call (MixedIntegerLinearProgram true None)
      (Call new_variable
        (Call new_variable
          (chebyshev_constraints A b (ncols A) (seq 0 (nrows A))
            (Call (set_objective (chebyshev_objective (ncols A)))
              (Solve (fun sol =>
                 Return (CenterVector (base_ring A)
                           (map (fun i => get_values sol (x_ i)) (seq 0 (ncols A)))))))))).
Proof.
  intro H. unfold chebyshev_center_Ab. rewrite H, Nat.eqb_refl. reflexivity.
Qed.

Lemma runs_chebyshev_center_Ab (A : matrix) (b : vector) (o : outcome center) :
  nrows A = length b ->
  runs (chebyshev_center_Ab (PyMatrix A) (PyVector b)) o <->
  (exists sol, optimal (chebyshev_lp A b) sol /\
               o = Returned (CenterVector (base_ring A)
                               (map (fun i => get_values sol (x_ i)) (seq 0 (ncols A)))))
  \/ ((forall sol, ~ optimal (chebyshev_lp A b) sol) /\ o = Raised MIPSolverException).
Proof.
  intro H. rewrite (chebyshev_center_Ab_matching A b H). unfold runs.
  rewrite !exec_Call_iff. simpl mip_step.
  rewrite exec_chebyshev_constraints. rewrite exec_Call_iff. simpl.
  fold (chebyshev_lp A b). split.
  - intro He. inversion He; subst.
    + left. exists sol. split; [assumption|].
      match goal with Hr : exec _ (Return _) _ |- _ => now apply exec_Return_iff in Hr end.
    + right. split; [assumption | reflexivity].
  - intros [[sol [Hs ->]] | [Hno ->]].
    + eapply exec_Solve; [exact Hs | constructor].
    + now apply exec_Solve_fails.
Qed.

Lemma default_Hrep_matching (RDF_round : Q -> Q) (P : polyhedron) :
  exists A b, polyhedron_to_Hrep RDF_round P false = Hrep2 A b /\
              nrows A = length b /\
              nrows A = (List.length (filter is_inequality (Hrepresentation P))
                         + 2 * List.length (filter is_equation (Hrepresentation P)))%nat.
Proof.
  unfold polyhedron_to_Hrep. cbn [negb]. rewrite to_Hrep_fold. cbn [app].
  eexists. eexists. split; [reflexivity|].
  unfold nrows, length, matrix_of_rows, vector_of_list. cbn [rows entries].
  rewrite !length_map. split.
  - induction (Hrepresentation P) as [|g gs IH]; [reflexivity|].
    cbn [flat_map]. rewrite !length_app, IH.
    unfold default_rows, default_bounds. now destruct (is_equation g).
  - induction (Hrepresentation P) as [|g gs IH]; [reflexivity|].
    cbn [flat_map filter]. rewrite length_app, IH.
    unfold default_rows, is_inequality at 2.
    destruct (is_equation g); simpl; lia.
Qed.

(** X12: on a polytope object [chebyshev_center] never takes the branch
    that returns the empty list: it adds one constraint for each
    inequality and two for each equation among the generators, then calls
    the solver, and a run returns a vector or raises. *)
Theorem chebyshev_center_object (RDF_round : Q -> Q) (P : polyhedron) :
  invokes_solver (chebyshev_center RDF_round (Some (PyPolyhedron P)) None None) = true /\
  List.length
    (filter is_add_constraint
       (mip_calls (chebyshev_center RDF_round (Some (PyPolyhedron P)) None None)))
  = (List.length (filter is_inequality (Hrepresentation P))
     + 2 * List.length (filter is_equation (Hrepresentation P)))%nat /\
  forall o, runs (chebyshev_center RDF_round (Some (PyPolyhedron P)) None None) o ->
            o <> Returned EmptyList.
Proof.
  destruct (default_Hrep_matching RDF_round P) as (A & b & HAb & Hlen & Hn).
  assert (E : chebyshev_center RDF_round (Some (PyPolyhedron P)) None None
              = chebyshev_center_Ab (PyMatrix A) (PyVector b)).
  { unfold chebyshev_center. cbn [orb]. now rewrite HAb. }
  rewrite E. split; [|split].
  - rewrite (chebyshev_center_Ab_matching A b Hlen). cbn [invokes_solver].
    now rewrite invokes_solver_chebyshev_constraints.
  - rewrite (chebyshev_center_Ab_matching A b Hlen). cbn [mip_calls filter is_add_constraint].
    rewrite mip_calls_chebyshev_constraints, filter_app. cbn [mip_calls filter is_add_constraint].
    rewrite app_nil_r, <- Hn.
    rewrite forallb_filter_id.
    + now rewrite length_map, length_seq.
    + apply forallb_forall. intros c Hc. apply in_map_iff in Hc.
      destruct Hc as [i [<- _]]. reflexivity.
  - intros o Ho. apply (runs_chebyshev_center_Ab A b o Hlen) in Ho.
    destruct Ho as [[sol [_ ->]] | [_ ->]]; discriminate.
Qed.

(** X14: [chebyshev_center] raises the [ValueError] about its input exactly
    when [P] is missing together with [A] or [b], or [P] is given together
    with [b]: a polytope passed along with [A] and [b] is rejected. *)
Theorem chebyshev_center_input_error (RDF_round : Q -> Q) (P A b : option pyobj) :
  chebyshev_center RDF_round P A b
  = Raise (ValueError
      "The input should be either as a Polyhedron, P, or as matrices, [A, b].")
  <-> (P = None /\ (A = None \/ b = None)) \/ (P <> None /\ b <> None).
Proof.
  split.
  - intro H. destruct P as [P0|], A as [A0|], b as [b0|];
      try (left; split; [reflexivity | tauto]);
      try (right; split; discriminate); exfalso.
    + (* P and A *) unfold chebyshev_center in H. cbn [orb] in H.
      unfold chebyshev_center_Ab in H.
      destruct P0; discriminate.
    + (* P alone *) unfold chebyshev_center in H. cbn [orb] in H.
      destruct P0; try discriminate.
      destruct (default_Hrep_matching RDF_round P) as (A1 & b1 & E & L & _).
      rewrite E in H. unfold chebyshev_center_Ab in H. discriminate.
    + (* A and b *) unfold chebyshev_center in H. cbn [orb] in H.
      unfold chebyshev_center_Ab in H.
      destruct A0; discriminate.
  - intros [[-> [-> | ->]] | [HP Hb]].
    + now destruct b.
    + now destruct A.
    + destruct P as [P0|]; [|contradiction]. destruct b as [b0|]; [|contradiction].
      now destruct A.
Qed.
(** *** BoxInfty *)

Lemma box_fold (R1 R2 : ring) (ndim : nat) (bounds : nat -> Q * Q) (range : list nat) :
  forall (rows0 rowsR : list (list Q)) (ents0 entsR : list Q),
    List.length rowsR = (2 * List.length range)%nat ->
    List.length entsR = (2 * List.length range)%nat ->
    List.length ents0 = List.length rows0 ->
    fold_left (box_step ndim bounds) range
      ({| base_ring := R1; ncols := ndim; rows := rows0 ++ rowsR |},
       {| vbase_ring := R2; entries := ents0 ++ entsR |},
       List.length rows0)
    = ({| base_ring := R1; ncols := ndim;
          rows := rows0 ++ flat_map (box_axis_rows ndim) range |},
       {| vbase_ring := R2; entries := ents0 ++ flat_map (box_axis_bounds bounds) range |},
       (List.length rows0 + 2 * List.length range)%nat).
Proof.
  induction range as [|i range IH]; intros rows0 rowsR ents0 entsR Hr He H0.
  - destruct rowsR; [|discriminate]. destruct entsR; [|discriminate].
    simpl. now rewrite Nat.add_0_r.
  - destruct rowsR as [|r1 [|r2 rowsR]]; try (exfalso; simpl in Hr; lia).
    destruct entsR as [|e1 [|e2 entsR]]; try (exfalso; simpl in He; lia).
    cbn [fold_left]. unfold box_step at 2. unfold set_row, set_entry.
    cbn [base_ring ncols rows vbase_ring entries].
    rewrite set_nth_app.
    replace (rows0 ++ set_nth i 1%Q (zero_vector ndim) :: r2 :: rowsR)
      with ((rows0 ++ [set_nth i 1%Q (zero_vector ndim)]) ++ r2 :: rowsR)
      by now rewrite <- app_assoc.
    replace (S (List.length rows0))
      with (List.length (rows0 ++ [set_nth i 1%Q (zero_vector ndim)]))
      by (rewrite length_app; simpl; lia).
    rewrite set_nth_app.
    rewrite length_app. cbn [List.length]. rewrite Nat.add_1_r, <- H0.
    rewrite set_nth_app.
    replace (ents0 ++ snd (bounds i) :: e2 :: entsR)
      with ((ents0 ++ [snd (bounds i)]) ++ e2 :: entsR) by now rewrite <- app_assoc.
    replace (S (List.length ents0)) with (List.length (ents0 ++ [snd (bounds i)]))
      by (rewrite length_app; simpl; lia).
    rewrite set_nth_app.
    replace ((rows0 ++ [set_nth i 1%Q (zero_vector ndim)])
             ++ vneg (set_nth i 1%Q (zero_vector ndim)) :: rowsR)
      with ((rows0 ++ box_axis_rows ndim i) ++ rowsR)
      by (unfold box_axis_rows; now rewrite <- !app_assoc).
    replace ((ents0 ++ [snd (bounds i)]) ++ (- fst (bounds i))%Q :: entsR)
      with ((ents0 ++ box_axis_bounds bounds i) ++ entsR)
      by (unfold box_axis_bounds; now rewrite <- !app_assoc).
    replace (S (List.length (ents0 ++ [snd (bounds i)])))
      with (List.length (rows0 ++ box_axis_rows ndim i))
      by (rewrite !length_app; simpl; lia).
    rewrite IH.
    + rewrite <- !app_assoc. cbn [flat_map]. rewrite length_app.
      unfold box_axis_rows at 3. cbn [List.length]. f_equal. lia.
    + simpl in Hr. lia.
    + simpl in He. lia.
    + rewrite !length_app. simpl. lia.
Qed.

Lemma box_rows_closed (R : ring) (ndim : nat) (bounds : nat -> Q * Q) :
  box_rows R ndim bounds
  = ({| base_ring := R; ncols := ndim;
        rows := flat_map (box_axis_rows ndim) (seq 0 ndim) |},
     {| vbase_ring := R; entries := flat_map (box_axis_bounds bounds) (seq 0 ndim) |}).
Proof.
  unfold box_rows, zero_matrix, zero_vec.
  pose proof (box_fold R R ndim bounds (seq 0 ndim) []
                (repeat (zero_vector ndim) (2 * ndim)) []
                (zero_vector (2 * ndim))) as H.
  change ([] ++ ?l) with l in H.
  change (@List.length (list Q) []) with O in H.
  rewrite H.
  - reflexivity.
  - rewrite repeat_length, length_seq. reflexivity.
  - unfold zero_vector. rewrite repeat_length, length_seq. reflexivity.
  - reflexivity.
Qed.

Lemma dot_at_unit (x : point) (n i j : nat) :
  (i < n)%nat -> dot_at x (set_nth i 1%Q (zero_vector n)) j = x (j + i)%nat.
Proof.
  revert i j. induction n as [|n IH]; intros i j Hi; [lia|].
  destruct i as [|i]; simpl.
  - change (repeat 0%Q n) with (zero_vector n). rewrite dot_at_zero, Q2R_one.
    rewrite Nat.add_0_r. lra.
  - change (repeat 0%Q n) with (zero_vector n).
    rewrite IH by lia. replace (S j + i)%nat with (j + S i)%nat by lia.
    unfold Q2R. simpl. lra.
Qed.

Lemma box_axes_hold (ndim : nat) (bounds : nat -> Q * Q) (x : point) (range : list nat) :
  Forall (fun i => (i < ndim)%nat) range ->
  Forall2 (fun row bi => dot_at x row 0 <= Q2R bi)
    (flat_map (box_axis_rows ndim) range) (flat_map (box_axis_bounds bounds) range)
  <-> Forall (fun i => Q2R (fst (bounds i)) <= x i <= Q2R (snd (bounds i))) range.
Proof.
  induction 1 as [|i range Hi _ IH]; cbn [flat_map].
  - split; constructor.
  - unfold box_axis_rows at 1, box_axis_bounds at 1. cbn [app].
    split; intro H.
    + inversion H as [|? ? ? ? H1 H']; subst. inversion H' as [|? ? ? ? H2 H'']; subst.
      rewrite dot_at_vneg, Q2R_opp in H2. rewrite (dot_at_unit x ndim i 0 Hi) in H1, H2.
      constructor; [simpl in *; lra | now apply IH].
    + inversion H as [|? ? [H1 H2] H']; subst.
      constructor; [rewrite (dot_at_unit x ndim i 0 Hi); simpl; lra|].
      constructor; [|now apply IH].
      rewrite dot_at_vneg, Q2R_opp, (dot_at_unit x ndim i 0 Hi). simpl. lra.
Qed.

(** The pair that [box_rows] builds: its shape and its points. *)
Lemma box_rows_points (R : ring) (ndim : nat) (bounds : nat -> Q * Q) :
  nrows (fst (box_rows R ndim bounds)) = (2 * ndim)%nat /\
  ncols (fst (box_rows R ndim bounds)) = ndim /\
  length (snd (box_rows R ndim bounds)) = (2 * ndim)%nat /\
  Forall (fun r => List.length r = ndim) (rows (fst (box_rows R ndim bounds))) /\
  forall x, Hrep_holds (fst (box_rows R ndim bounds)) (snd (box_rows R ndim bounds)) x
            <-> in_intervals ndim bounds x.
Proof.
  rewrite box_rows_closed. unfold nrows, length, Hrep_holds.
  cbn [fst snd rows entries ncols].
  assert (Hlen : forall (T : Type) (f : nat -> list T) (l : list nat),
            (forall i, List.length (f i) = 2%nat) ->
            List.length (flat_map f l) = (2 * List.length l)%nat).
  { intros T f l Hf. induction l as [|i l IH]; [reflexivity|].
    cbn [flat_map]. rewrite length_app, Hf, IH. simpl. lia. }
  split; [|split; [|split; [|split]]].
  - rewrite Hlen by reflexivity. now rewrite length_seq.
  - reflexivity.
  - rewrite Hlen by reflexivity. now rewrite length_seq.
  - apply Forall_forall. intros r Hr. apply in_flat_map in Hr.
    destruct Hr as [i [Hi Hr]]. apply in_seq in Hi.
    assert (Hs : forall (l : list Q) k v, List.length (set_nth k v l) = List.length l).
    { induction l as [|a l IHl]; intros [|k] v; simpl; try reflexivity. now rewrite IHl. }
    unfold box_axis_rows in Hr. destruct Hr as [<- | [<- | []]].
    + rewrite Hs. apply repeat_length.
    + unfold vneg. rewrite length_map, Hs. apply repeat_length.
  - intro x. rewrite box_axes_hold.
    + unfold in_intervals. rewrite Forall_forall. split; intros H i Hi.
      * apply H. apply in_seq. lia.
      * apply in_seq in Hi. apply H. lia.
    + apply Forall_forall. intros i Hi. apply in_seq in Hi. lia.
Qed.

Lemma BoxInfty_center_radius_unfold
  (RDF_round : Q -> Q)
  (Polyhedron : list (list Q) -> ring -> nat -> string -> polyhedron)
  (center : list Q) (radius : Q) (K : ring) (return_HSpaceRep : bool) :
  let bounds := fun i => ((nth i (map (cast RDF_round K) center) 0 - cast RDF_round K radius)%Q,
                          (nth i (map (cast RDF_round K) center) 0 + cast RDF_round K radius)%Q) in
  let Ab := box_rows K (List.length center) bounds in
  BoxInfty RDF_round Polyhedron None (Some (NumberList center)) (Some (Number radius))
    K return_HSpaceRep
  = (if negb return_HSpaceRep
     then match polyhedron_from_Hrep RDF_round Polyhedron
                  (SageMatrix (fst Ab)) (SageVector (snd Ab)) K with
          | Ok P => Ok (BoxPolyhedron P)
          | Error e => Error e
          end
     else Ok (BoxHrep (fst Ab) (snd Ab))) /\
  BoxInfty RDF_round Polyhedron (Some (NumberList center)) (Some (Number radius)) None
    K return_HSpaceRep
  = BoxInfty RDF_round Polyhedron None (Some (NumberList center)) (Some (Number radius))
      K return_HSpaceRep.
Proof.
  intros bounds Ab. split; [|reflexivity].
  unfold BoxInfty. cbv iota. rewrite length_map.
  fold bounds. fold Ab. now destruct Ab.
Qed.

Lemma BoxInfty_lengths_unfold
  (RDF_round : Q -> Q)
  (Polyhedron : list (list Q) -> ring -> nat -> string -> polyhedron)
  (lengths : list (Q * Q)) (K : ring) (return_HSpaceRep : bool) :
  let bounds := fun i =>
    nth i (map (fun l => (cast RDF_round K (fst l), cast RDF_round K (snd l))) lengths)
        (0%Q, 0%Q) in
  let Ab := box_rows K (List.length lengths) bounds in
  BoxInfty RDF_round Polyhedron (Some (IntervalList lengths)) None None K return_HSpaceRep
  = (if negb return_HSpaceRep
     then match polyhedron_from_Hrep RDF_round Polyhedron
                  (SageMatrix (fst Ab)) (SageVector (snd Ab)) K with
          | Ok P => Ok (BoxPolyhedron P)
          | Error e => Error e
          end
     else Ok (BoxHrep (fst Ab) (snd Ab))).
Proof.
  intros bounds Ab.
  unfold BoxInfty. cbv iota. rewrite length_map.
  fold bounds. fold Ab. now destruct Ab.
Qed.

(** The pair [[A, b]] of a box by centre and radius. *)
Lemma BoxInfty_center_radius_points
  (RDF_round : Q -> Q)
  (Polyhedron : list (list Q) -> ring -> nat -> string -> polyhedron)
  (center : list Q) (radius : Q) (K : ring) :
  exists A b,
    BoxInfty RDF_round Polyhedron None (Some (NumberList center)) (Some (Number radius))
      K true = Ok (BoxHrep A b) /\
    BoxInfty RDF_round Polyhedron (Some (NumberList center)) (Some (Number radius)) None
      K true = Ok (BoxHrep A b) /\
    nrows A = (2 * List.length center)%nat /\
    ncols A = List.length center /\
    length b = (2 * List.length center)%nat /\
    forall x, Hrep_holds A b x <->
      forall i, (i < List.length center)%nat ->
        Q2R (cast RDF_round K (nth i center 0%Q)) - Q2R (cast RDF_round K radius)
        <= x i
        <= Q2R (cast RDF_round K (nth i center 0%Q)) + Q2R (cast RDF_round K radius).
Proof.
  destruct (BoxInfty_center_radius_unfold RDF_round Polyhedron center radius K true)
    as [E1 E2].
  cbv zeta in E1, E2. cbn [negb] in E1.
  eexists. eexists. split; [exact E1|]. split; [now rewrite E2|].
  match goal with |- context [box_rows K ?n ?f] =>
    destruct (box_rows_points K n f) as (H1 & H2 & H3 & _ & H5) end.
  split; [exact H1|]. split; [exact H2|]. split; [exact H3|].
  intro x. rewrite H5. unfold in_intervals. cbn [fst snd].
  split; intros H i Hi; specialize (H i Hi).
  - rewrite (nth_indep _ 0%Q (cast RDF_round K 0%Q)) in H by (now rewrite length_map).
    rewrite map_nth in H. rewrite Q2R_minus, Q2R_plus in H. exact H.
  - rewrite (nth_indep _ 0%Q (cast RDF_round K 0%Q)) by (now rewrite length_map).
    rewrite map_nth. rewrite Q2R_minus, Q2R_plus. exact H.
Qed.

(** X15: [BoxInfty] by centre and radius over [QQ], with
    [return_HSpaceRep], keyword or positional: [A] is [2n x n], [b] has
    [2n] entries, and [A x <= b] holds exactly on the box
    [c_i - r <= x_i <= c_i + r]. *)
Theorem BoxInfty_center_radius_Hrep
  (RDF_round : Q -> Q)
  (Polyhedron : list (list Q) -> ring -> nat -> string -> polyhedron)
  (center : list Q) (radius : Q) :
  exists A b,
    BoxInfty RDF_round Polyhedron None (Some (NumberList center)) (Some (Number radius))
      QQ true = Ok (BoxHrep A b) /\
    BoxInfty RDF_round Polyhedron (Some (NumberList center)) (Some (Number radius)) None
      QQ true = Ok (BoxHrep A b) /\
    nrows A = (2 * List.length center)%nat /\
    ncols A = List.length center /\
    length b = (2 * List.length center)%nat /\
    forall x, Hrep_holds A b x <->
      forall i, (i < List.length center)%nat ->
        Q2R (nth i center 0%Q) - Q2R radius <= x i <= Q2R (nth i center 0%Q) + Q2R radius.
Proof. exact (BoxInfty_center_radius_points RDF_round Polyhedron center radius QQ). Qed.

(** The pair [[A, b]] of a box by intervals. *)
Lemma BoxInfty_lengths_points
  (RDF_round : Q -> Q)
  (Polyhedron : list (list Q) -> ring -> nat -> string -> polyhedron)
  (lengths : list (Q * Q)) (K : ring) :
  exists A b,
    BoxInfty RDF_round Polyhedron (Some (IntervalList lengths)) None None K true
    = Ok (BoxHrep A b) /\
    nrows A = (2 * List.length lengths)%nat /\
    ncols A = List.length lengths /\
    length b = (2 * List.length lengths)%nat /\
    forall x, Hrep_holds A b x <->
      forall i, (i < List.length lengths)%nat ->
        Q2R (cast RDF_round K (fst (nth i lengths (0%Q, 0%Q))))
        <= x i
        <= Q2R (cast RDF_round K (snd (nth i lengths (0%Q, 0%Q)))).
Proof.
  pose proof (BoxInfty_lengths_unfold RDF_round Polyhedron lengths K true) as E1.
  cbv zeta in E1. cbn [negb] in E1.
  eexists. eexists. split; [exact E1|].
  match goal with |- context [box_rows K ?n ?f] =>
    destruct (box_rows_points K n f) as (H1 & H2 & H3 & _ & H5) end.
  split; [exact H1|]. split; [exact H2|]. split; [exact H3|].
  intro x. rewrite H5. unfold in_intervals.
  assert (Hn : forall i, (i < List.length lengths)%nat ->
            nth i (map (fun l => (cast RDF_round K (fst l), cast RDF_round K (snd l))) lengths)
                (0%Q, 0%Q)
            = (cast RDF_round K (fst (nth i lengths (0%Q, 0%Q))),
               cast RDF_round K (snd (nth i lengths (0%Q, 0%Q))))).
  { intros i Hi.
    rewrite (nth_indep _ (0%Q, 0%Q)
               ((fun l => (cast RDF_round K (fst l), cast RDF_round K (snd l))) (0%Q, 0%Q)))
      by (now rewrite length_map).
    now rewrite (map_nth (fun l => (cast RDF_round K (fst l), cast RDF_round K (snd l)))). }
  split; intros H i Hi; specialize (H i Hi).
  - rewrite (Hn i Hi) in H. exact H.
  - rewrite (Hn i Hi). exact H.
Qed.

(** X16: [BoxInfty] by the list of intervals over [QQ] or [RDF], with
    [return_HSpaceRep]: [A] is [2n x n], [b] has [2n] entries, and
    [A x <= b] holds exactly on the box [min_i <= x_i <= max_i], the ends
    converted into the ring. *)
Theorem BoxInfty_lengths_Hrep
  (RDF_round : Q -> Q)
  (Polyhedron : list (list Q) -> ring -> nat -> string -> polyhedron)
  (lengths : list (Q * Q)) (K : ring) :
  K = QQ \/ K = RDF ->
  exists A b,
    BoxInfty RDF_round Polyhedron (Some (IntervalList lengths)) None None K true
    = Ok (BoxHrep A b) /\
    nrows A = (2 * List.length lengths)%nat /\
    ncols A = List.length lengths /\
    length b = (2 * List.length lengths)%nat /\
    forall x, Hrep_holds A b x <->
      forall i, (i < List.length lengths)%nat ->
        Q2R (cast RDF_round K (fst (nth i lengths (0%Q, 0%Q))))
        <= x i
        <= Q2R (cast RDF_round K (snd (nth i lengths (0%Q, 0%Q)))).
Proof. intros _. exact (BoxInfty_lengths_points RDF_round Polyhedron lengths K). Qed.

Lemma BoxInfty_lengths_Hrep_witness :
  exists A b,
    BoxInfty (fun q => q) Polyhedron_of_rows
      (Some (IntervalList [(0, 2); (1, 3); (2, 4)]%Q)) None None QQ true
    = Ok (BoxHrep A b) /\
    nrows A = 6%nat /\
    ncols A = 3%nat /\
    length b = 6%nat /\
    forall x, Hrep_holds A b x <->
      forall i, (i < 3)%nat ->
        Q2R (fst (nth i [(0, 2); (1, 3); (2, 4)]%Q (0%Q, 0%Q)))
        <= x i
        <= Q2R (snd (nth i [(0, 2); (1, 3); (2, 4)]%Q (0%Q, 0%Q))).
Proof.
  exact (BoxInfty_lengths_Hrep (fun q => q) Polyhedron_of_rows
           [(0, 2); (1, 3); (2, 4)]%Q QQ (or_introl eq_refl)).
Defined.

(** The polytope of a box by centre and radius. *)
Lemma BoxInfty_center_radius_polytope_points
  (RDF_round : Q -> Q)
  (Polyhedron : list (list Q) -> ring -> nat -> string -> polyhedron)
  (center : list Q) (radius : Q) (K : ring) :
  Polyhedron_spec Polyhedron ->
  K = QQ \/ K = RDF ->
  exists P,
    BoxInfty RDF_round Polyhedron None (Some (NumberList center)) (Some (Number radius))
      K false = Ok (BoxPolyhedron P) /\
    forall x, in_polyhedron P x <->
      forall i, (i < List.length center)%nat ->
        Q2R (cast RDF_round K (nth i center 0%Q)) - Q2R (cast RDF_round K radius)
        <= x i
        <= Q2R (cast RDF_round K (nth i center 0%Q)) + Q2R (cast RDF_round K radius).
Proof.
  intros Hspec HK.
  destruct (BoxInfty_center_radius_unfold RDF_round Polyhedron center radius K false)
    as [E1 _].
  cbv zeta in E1. cbn [negb] in E1. rewrite E1. clear E1.
  match goal with |- context [box_rows K ?n ?f] =>
    destruct (box_rows_points K n f) as (H1 & H2 & H3 & H4 & H5);
    set (Ab := box_rows K n f) in * end.
  destruct (from_Hrep_points RDF_round Polyhedron (fst Ab) (snd Ab) K Hspec HK)
    as [P [HP Hset]].
  - now rewrite H1, H3.
  - now rewrite H2.
  - exists P. rewrite HP. split; [reflexivity|].
    intro x. rewrite Hset, H5. unfold in_intervals. cbn [fst snd].
    split; intros H i Hi; specialize (H i Hi).
    + rewrite (nth_indep _ 0%Q (cast RDF_round K 0%Q)) in H by (now rewrite length_map).
      rewrite map_nth in H. rewrite Q2R_minus, Q2R_plus in H. exact H.
    + rewrite (nth_indep _ 0%Q (cast RDF_round K 0%Q)) by (now rewrite length_map).
      rewrite map_nth. rewrite Q2R_minus, Q2R_plus. exact H.
Qed.

(** X17: [BoxInfty] by centre and radius over [QQ], with a constructor
    that meets its specification, returns a polytope whose points are
    those of the box [c_i - r <= x_i <= c_i + r]. *)
Theorem BoxInfty_center_radius_polytope
  (RDF_round : Q -> Q)
  (Polyhedron : list (list Q) -> ring -> nat -> string -> polyhedron)
  (center : list Q) (radius : Q) :
  Polyhedron_spec Polyhedron ->
  exists P,
    BoxInfty RDF_round Polyhedron None (Some (NumberList center)) (Some (Number radius))
      QQ false = Ok (BoxPolyhedron P) /\
    forall x, in_polyhedron P x <->
      forall i, (i < List.length center)%nat ->
        Q2R (nth i center 0%Q) - Q2R radius <= x i <= Q2R (nth i center 0%Q) + Q2R radius.
Proof.
  intro Hspec.
  exact (BoxInfty_center_radius_polytope_points RDF_round Polyhedron center radius QQ
           Hspec (or_introl eq_refl)).
Qed.

Lemma BoxInfty_center_radius_polytope_witness :
  exists P,
    BoxInfty (fun q => q) Polyhedron_of_rows None (Some (NumberList [1; 2; 3]%Q))
      (Some (Number 1%Q)) QQ false = Ok (BoxPolyhedron P) /\
    forall x, in_polyhedron P x <->
      forall i, (i < 3)%nat ->
        Q2R (nth i [1; 2; 3]%Q 0%Q) - Q2R 1 <= x i <= Q2R (nth i [1; 2; 3]%Q 0%Q) + Q2R 1.
Proof.
  exact (BoxInfty_center_radius_polytope (fun q => q) Polyhedron_of_rows
           [1; 2; 3]%Q 1%Q Polyhedron_of_rows_spec).
Defined.

Lemma box_rows_ext (K : ring) (ndim : nat) (f g : nat -> Q * Q) :
  (forall i, (i < ndim)%nat -> f i = g i) ->
  box_rows K ndim f = box_rows K ndim g.
Proof.
  intro H. rewrite !box_rows_closed. do 2 f_equal.
  assert (E : forall l, Forall (fun i => (i < ndim)%nat) l ->
            flat_map (box_axis_bounds f) l = flat_map (box_axis_bounds g) l).
  { induction 1 as [|i l Hi _ IH]; [reflexivity|].
    cbn [flat_map]. unfold box_axis_bounds at 1 3. now rewrite (H i Hi), IH. }
  apply E. apply Forall_forall. intros i Hi. apply in_seq in Hi. lia.
Qed.

(** Without rounding, centre and radius give the box of the intervals. *)
Lemma BoxInfty_as_lengths_exact
  (RDF_round : Q -> Q)
  (Polyhedron : list (list Q) -> ring -> nat -> string -> polyhedron)
  (center : list Q) (radius : Q) (K : ring) (return_HSpaceRep : bool) :
  K <> RDF ->
  BoxInfty RDF_round Polyhedron None (Some (NumberList center)) (Some (Number radius))
    K return_HSpaceRep
  = BoxInfty RDF_round Polyhedron
      (Some (IntervalList (map (fun c => ((c - radius)%Q, (c + radius)%Q)) center)))
      None None K return_HSpaceRep.
Proof.
  intro HK.
  assert (Hcast : forall q, cast RDF_round K q = q) by (intro q; destruct K; try reflexivity; exfalso; now apply HK).
  destruct (BoxInfty_center_radius_unfold RDF_round Polyhedron center radius K
              return_HSpaceRep) as [E1 _].
  pose proof (BoxInfty_lengths_unfold RDF_round Polyhedron
                (map (fun c => ((c - radius)%Q, (c + radius)%Q)) center) K
                return_HSpaceRep) as E2.
  cbv zeta in E1, E2. rewrite E1, E2. rewrite length_map.
  rewrite (box_rows_ext K (List.length center)
             (fun i => ((nth i (map (cast RDF_round K) center) 0 - cast RDF_round K radius)%Q,
                        (nth i (map (cast RDF_round K) center) 0 + cast RDF_round K radius)%Q))
             (fun i => nth i (map (fun l => (cast RDF_round K (fst l), cast RDF_round K (snd l)))
                                  (map (fun c => ((c - radius)%Q, (c + radius)%Q)) center))
                           (0%Q, 0%Q))); [reflexivity|].
  intros i Hi. rewrite !map_map. cbn [fst snd]. rewrite Hcast.
  rewrite (map_ext _ (fun c => c) Hcast), map_id.
  rewrite (map_ext (fun c => (cast RDF_round K (c - radius), cast RDF_round K (c + radius)))
             (fun c => ((c - radius)%Q, (c + radius)%Q)))
    by (intro c; now rewrite !Hcast).
  rewrite (nth_indep _ (0%Q, 0%Q) ((fun c => ((c - radius)%Q, (c + radius)%Q)) 0%Q))
    by (now rewrite length_map).
  now rewrite (map_nth (fun c => ((c - radius)%Q, (c + radius)%Q))).
Qed.

(** X18: over [QQ], the box by centre [c] and radius [r] is the box by
    the intervals [(c_i - r, c_i + r)]: the two calls return the same
    result, as [[A, b]] and as a polytope. *)
Theorem BoxInfty_center_radius_as_lengths
  (RDF_round : Q -> Q)
  (Polyhedron : list (list Q) -> ring -> nat -> string -> polyhedron)
  (center : list Q) (radius : Q) (return_HSpaceRep : bool) :
  BoxInfty RDF_round Polyhedron None (Some (NumberList center)) (Some (Number radius))
    QQ return_HSpaceRep
  = BoxInfty RDF_round Polyhedron
      (Some (IntervalList (map (fun c => ((c - radius)%Q, (c + radius)%Q)) center)))
      None None QQ return_HSpaceRep.
Proof.
  apply BoxInfty_as_lengths_exact. discriminate.
Qed.

(** *** diameter_vertex_enumeration: the maximum over the pairs *)

Lemma Q2R_Qmax (a b : Q) : Q2R (Qmax a b) = Rmax (Q2R a) (Q2R b).
Proof.
  destruct (Qlt_le_dec a b) as [H | H].
  - rewrite (Qeq_eqR _ _ (Q.max_r a b (Qlt_le_weak _ _ H))).
    symmetry. apply Rmax_right. apply Qle_Rle. now apply Qlt_le_weak.
  - rewrite (Qeq_eqR _ _ (Q.max_l a b H)).
    symmetry. apply Rmax_left. now apply Qle_Rle.
Qed.

Lemma Q2R_Qabs (a : Q) : Q2R (Qabs a) = Rabs (Q2R a).
Proof.
  destruct (Qlt_le_dec a 0) as [H | H].
  - rewrite (Qeq_eqR _ _ (Qabs_neg a (Qlt_le_weak _ _ H))), Q2R_opp.
    apply Qlt_Rlt in H. replace (Q2R 0) with 0 in H by (unfold Q2R; simpl; lra).
    rewrite Rabs_left by exact H. reflexivity.
  - rewrite (Qeq_eqR _ _ (Qabs_pos a H)).
    apply Qle_Rle in H. replace (Q2R 0) with 0 in H by (unfold Q2R; simpl; lra).
    rewrite Rabs_right by lra. reflexivity.
Qed.

Lemma Q2R_zero : Q2R 0 = 0.
Proof. unfold Q2R. simpl. lra. Qed.

(** The three norms read over the reals. *)
Lemma Q2R_sup_abs_cons (a : Q) (w : list Q) :
  Q2R (sup_abs (a :: w)) = Rmax (Rabs (Q2R a)) (Q2R (sup_abs w)).
Proof. simpl. now rewrite Q2R_Qmax, Q2R_Qabs. Qed.

Lemma Q2R_sum_abs_cons (a : Q) (w : list Q) :
  Q2R (sum_abs (a :: w)) = Rabs (Q2R a) + Q2R (sum_abs w).
Proof. simpl. now rewrite Q2R_plus, Q2R_Qabs. Qed.

Lemma Q2R_dot_self_cons (a : Q) (w : list Q) :
  Q2R (dot_product (a :: w) (a :: w)) = Q2R a * Q2R a + Q2R (dot_product w w).
Proof. simpl. now rewrite Q2R_plus, Q2R_mult. Qed.

Lemma norm_parts_sym (u v : list Q) :
  Q2R (sup_abs (vsub v u)) = Q2R (sup_abs (vsub u v)) /\
  Q2R (sum_abs (vsub v u)) = Q2R (sum_abs (vsub u v)) /\
  Q2R (dot_product (vsub v u) (vsub v u)) = Q2R (dot_product (vsub u v) (vsub u v)).
Proof.
  revert v. induction u as [|a u IH]; intros [|b v]; try (repeat split; reflexivity).
  destruct (IH v) as (H1 & H2 & H3).
  cbn [vsub]. rewrite !Q2R_sup_abs_cons, !Q2R_sum_abs_cons, !Q2R_dot_self_cons.
  rewrite H1, H2, H3, !Q2R_minus, (Rabs_minus_sym (Q2R b) (Q2R a)).
  repeat split; lra.
Qed.

Lemma norm_vsub_sym (p : norm_p) (u v : list Q) :
  norm p (vsub v u) = norm p (vsub u v).
Proof.
  destruct (norm_parts_sym u v) as (H1 & H2 & H3).
  destruct p; simpl; congruence.
Qed.

Lemma norm_vsub_self (p : norm_p) (u : list Q) : norm p (vsub u u) = 0.
Proof.
  assert (H : Q2R (sup_abs (vsub u u)) = 0 /\ Q2R (sum_abs (vsub u u)) = 0 /\
              Q2R (dot_product (vsub u u) (vsub u u)) = 0).
  { induction u as [|a u (H1 & H2 & H3)].
    - simpl. rewrite Q2R_zero. auto.
    - cbn [vsub]. rewrite Q2R_sup_abs_cons, Q2R_sum_abs_cons, Q2R_dot_self_cons.
      rewrite H1, H2, H3, Q2R_minus.
      replace (Q2R a - Q2R a) with 0 by lra. rewrite Rabs_R0.
      repeat split; try lra. apply Rmax_left. lra. }
  destruct H as (H1 & H2 & H3). destruct p; simpl; try assumption.
  rewrite H3. apply sqrt_0.
Qed.

Section DiameterMax.

Variable p : norm_p.

Lemma diameter_inner_attained (vi : list Q) (vs : list (list Q)) (diam : R) :
  diameter_inner p vi vs diam = diam \/
  exists vj, In vj vs /\ diameter_inner p vi vs diam = norm p (vsub vi vj).
Proof.
  revert diam. induction vs as [|w vs IH]; intro diam; simpl.
  - now left.
  - destruct (IH (Rmax diam (norm p (vsub vi w)))) as [E | [vj [Hj E]]].
    + rewrite E. apply Rmax_case; [now left|]. right. exists w. split; [now left | reflexivity].
    + right. exists vj. split; [now right | exact E].
Qed.

Lemma diameter_outer_attained (vlist : list (list Q)) (diam : R) :
  diameter_outer p vlist diam = diam \/
  exists u v, In u vlist /\ In v vlist /\ diameter_outer p vlist diam = norm p (vsub u v).
Proof.
  revert diam. induction vlist as [|vi vs IH]; intro diam; simpl.
  - now left.
  - destruct (IH (diameter_inner p vi vs diam)) as [E | (u & v & Hu & Hv & E)].
    + rewrite E. destruct (diameter_inner_attained vi vs diam) as [E' | [vj [Hj E']]].
      * now left.
      * right. exists vi, vj. split; [now left|]. split; [now right | exact E'].
    + right. exists u, v. split; [now right|]. split; [now right | exact E].
Qed.

(** Every two listed vertices, in either order, are within the diameter. *)
Lemma diameter_outer_bound (vlist : list (list Q)) (u v : list Q) :
  In u vlist -> In v vlist -> norm p (vsub u v) <= diameter_outer p vlist 0.
Proof.
  intros Hu Hv.
  destruct (in_split _ _ Hu) as [l1 [l2 E]]. subst vlist.
  apply in_app_or in Hv. destruct Hv as [Hv | [Hv | Hv]].
  - destruct (in_split _ _ Hv) as [l1a [l1b E]]. subst l1.
    rewrite <- app_assoc. simpl. rewrite <- norm_vsub_sym.
    apply diameter_outer_pair. apply in_or_app. right. now left.
  - subst v. rewrite norm_vsub_self. apply diameter_outer_ge.
  - now apply diameter_outer_pair.
Qed.

(** The diameter is determined by the set of the vertices listed. *)
Lemma diameter_outer_same_set (l1 l2 : list (list Q)) :
  (forall v, In v l1 <-> In v l2) ->
  diameter_outer p l1 0 = diameter_outer p l2 0.
Proof.
  assert (H : forall l l', (forall v, In v l -> In v l') ->
            diameter_outer p l 0 <= diameter_outer p l' 0).
  { intros l l' Hsub.
    destruct (diameter_outer_attained l 0) as [E | (u & v & Hu & Hv & E)]; rewrite E.
    - apply diameter_outer_ge.
    - apply diameter_outer_bound; now apply Hsub. }
  intro Hset. apply Rle_antisym; apply H; intros v Hv; now apply Hset.
Qed.

End DiameterMax.

(** X19: on a polytope over [QQ], [diameter_vertex_enumeration] returns
    the greatest distance between two listed vertices: it is not
    negative, no two vertices are further apart, and unless it is [0] it
    is the distance of two of them. *)
Theorem diameter_vertex_enumeration_max (P : polyhedron) (p : norm_p) :
  P_base_ring P = QQ ->
  0 <= diameter_vertex_enumeration P p /\
  (forall u v, In u (vertices_list P) -> In v (vertices_list P) ->
     norm p (vsub u v) <= diameter_vertex_enumeration P p) /\
  (diameter_vertex_enumeration P p = 0 \/
   exists u v, In u (vertices_list P) /\ In v (vertices_list P) /\
               diameter_vertex_enumeration P p = norm p (vsub u v)).
Proof.
  intros _. unfold diameter_vertex_enumeration. split; [|split].
  - apply diameter_outer_ge.
  - intros u v. apply diameter_outer_bound.
  - apply diameter_outer_attained.
Qed.

Lemma diameter_vertex_enumeration_max_witness :
  0 <= diameter_vertex_enumeration (Polyhedron_of_vertices (hypercube_vertices 2) QQ) p2 /\
  (forall u v,
     In u (vertices_list (Polyhedron_of_vertices (hypercube_vertices 2) QQ)) ->
     In v (vertices_list (Polyhedron_of_vertices (hypercube_vertices 2) QQ)) ->
     norm p2 (vsub u v)
     <= diameter_vertex_enumeration (Polyhedron_of_vertices (hypercube_vertices 2) QQ) p2) /\
  (diameter_vertex_enumeration (Polyhedron_of_vertices (hypercube_vertices 2) QQ) p2 = 0 \/
   exists u v,
     In u (vertices_list (Polyhedron_of_vertices (hypercube_vertices 2) QQ)) /\
     In v (vertices_list (Polyhedron_of_vertices (hypercube_vertices 2) QQ)) /\
     diameter_vertex_enumeration (Polyhedron_of_vertices (hypercube_vertices 2) QQ) p2
     = norm p2 (vsub u v)).
Proof.
  exact (diameter_vertex_enumeration_max
           (Polyhedron_of_vertices (hypercube_vertices 2) QQ) p2 eq_refl).
Defined.

(** X20: the diameter depends on the set of vertices only: two polytope
    objects over [QQ] that list the same vertices, in any order and any
    number of times, have the same diameter. *)
Theorem diameter_vertex_enumeration_same_vertices (P P' : polyhedron) (p : norm_p) :
  P_base_ring P = QQ ->
  P_base_ring P' = QQ ->
  (forall v, In v (vertices_list P) <-> In v (vertices_list P')) ->
  diameter_vertex_enumeration P p = diameter_vertex_enumeration P' p.
Proof.
  intros _ _ H. unfold diameter_vertex_enumeration. now apply diameter_outer_same_set.
Qed.

Lemma diameter_vertex_enumeration_same_vertices_witness :
  diameter_vertex_enumeration (Polyhedron_of_vertices [[1%Q]; [1%Q]] QQ) p2
  = diameter_vertex_enumeration P_point p2.
Proof.
  apply diameter_vertex_enumeration_same_vertices.
  - reflexivity.
  - reflexivity.
  - intro v. simpl. tauto.
Defined.

(** *** opposite_polyhedron *)

Lemma norm_parts_opposite (u v : list Q) :
  Q2R (sup_abs (vsub (map (Qmult (-1)) u) (map (Qmult (-1)) v))) = Q2R (sup_abs (vsub u v)) /\
  Q2R (sum_abs (vsub (map (Qmult (-1)) u) (map (Qmult (-1)) v))) = Q2R (sum_abs (vsub u v)) /\
  Q2R (dot_product (vsub (map (Qmult (-1)) u) (map (Qmult (-1)) v))
                   (vsub (map (Qmult (-1)) u) (map (Qmult (-1)) v)))
  = Q2R (dot_product (vsub u v) (vsub u v)).
Proof.
  revert v. induction u as [|a u IH]; intros [|b v]; try (repeat split; reflexivity).
  destruct (IH v) as (H1 & H2 & H3).
  cbn [vsub map]. rewrite !Q2R_sup_abs_cons, !Q2R_sum_abs_cons, !Q2R_dot_self_cons.
  rewrite H1, H2, H3, !Q2R_minus, !Q2R_mult, Q2R_minus_one.
  replace (-1 * Q2R a - -1 * Q2R b) with (- (Q2R a - Q2R b)) by lra.
  rewrite Rabs_Ropp. repeat split; lra.
Qed.

Lemma norm_vsub_opposite (p : norm_p) (u v : list Q) :
  norm p (vsub (map (Qmult (-1)) u) (map (Qmult (-1)) v)) = norm p (vsub u v).
Proof.
  destruct (norm_parts_opposite u v) as (H1 & H2 & H3).
  destruct p; simpl; congruence.
Qed.

Lemma diameter_outer_opposite (p : norm_p) (vl : list (list Q)) (diam : R) :
  diameter_outer p (map (fun v => map (Qmult (-1)) v) vl) diam = diameter_outer p vl diam.
Proof.
  assert (Hin : forall vi vs d,
            diameter_inner p (map (Qmult (-1)) vi) (map (fun v => map (Qmult (-1)) v) vs) d
            = diameter_inner p vi vs d).
  { intros vi vs. induction vs as [|w vs IH]; intro d; simpl; [reflexivity|].
    now rewrite norm_vsub_opposite, IH. }
  revert diam. induction vl as [|vi vs IH]; intro diam; simpl; [reflexivity|].
  now rewrite Hin, IH.
Qed.

(** X21: for a polytope over [QQ], with [base_ring] left out or given as
    [QQ], the opposite polytope has the diameter of the polytope, for
    every norm, when the object built lists as vertices the negated
    vertices it was given. *)
Theorem opposite_polyhedron_diameter
  (Polyhedron_V : list (list Q) -> ring -> polyhedron)
  (P : polyhedron) (base_ring : option ring) (p : norm_p) :
  P_base_ring P = QQ ->
  base_ring = None \/ base_ring = Some QQ ->
  P_base_ring (opposite_polyhedron Polyhedron_V P base_ring) = QQ ->
  (forall v, In v (vertices_list (opposite_polyhedron Polyhedron_V P base_ring)) <->
             In v (map (fun v => map (Qmult (-1)) v) (vertices_list P))) ->
  diameter_vertex_enumeration (opposite_polyhedron Polyhedron_V P base_ring) p
  = diameter_vertex_enumeration P p.
Proof.
  intros _ _ _ H. unfold diameter_vertex_enumeration.
  rewrite (diameter_outer_same_set p _ _ H). apply diameter_outer_opposite.
Qed.

Lemma opposite_polyhedron_diameter_witness :
  diameter_vertex_enumeration
    (opposite_polyhedron Polyhedron_of_vertices
       (Polyhedron_of_vertices (hypercube_vertices 2) QQ) None) p2
  = diameter_vertex_enumeration (Polyhedron_of_vertices (hypercube_vertices 2) QQ) p2.
Proof.
  apply opposite_polyhedron_diameter.
  - reflexivity.
  - now left.
  - reflexivity.
  - intro v. split; intro H; exact H.
Defined.

(** *** radius *)

Lemma exec_sf_abs_bind {U : Type} (s : option lp) (A : matrix) (b : vector) (d : list Q)
  (solver : string) (f : R -> prog U) (o : outcome U) :
  exec s (bind (bind (support_function (PyList [PyMatrix A; PyVector b]) d false solver)
                     abs_sf) f) o <->
  (exists sol, optimal (sf_lp A b d) sol /\
               exec (Some (sf_lp A b d)) (f (Rabs (objective_value sol))) o) \/
  ((forall sol, ~ optimal (sf_lp A b d) sol) /\ o = Raised MIPSolverException).
Proof.
  cbn [support_function nth_error]. unfold sf_solve. cbn [bind].
  rewrite !exec_Call_iff. simpl mip_step. fold (sf_lp A b d). split.
  - intro H. inversion H; subst.
    + left. eexists. split; [eassumption|]. assumption.
    + right. split; [assumption | reflexivity].
  - intros [[sol [Hs He]] | [Hno ->]].
    + eapply exec_Solve; [exact Hs | exact He].
    + now apply exec_Solve_fails.
Qed.

Lemma Rabs_le_both (a b : R) : Rabs a <= b -> - b <= a <= b.
Proof.
  intro H. pose proof (Rle_abs a). pose proof (Rle_abs (- a)) as H'.
  rewrite Rabs_Ropp in H'. lra.
Qed.

Lemma set_nth_twice {T : Type} (i : nat) (u v : T) (l : list T) :
  set_nth i v (set_nth i u l) = set_nth i v l.
Proof.
  revert i. induction l as [|a l IH]; intros [|i]; simpl; try reflexivity.
  now rewrite IH.
Qed.

Lemma dot_at_axis (x : point) (c : Q) (n i j : nat) :
  (i < n)%nat -> dot_at x (set_nth i c (zero_vector n)) j = Q2R c * x (j + i)%nat.
Proof.
  revert i j. induction n as [|n IH]; intros i j Hi; [lia|].
  destruct i as [|i]; simpl.
  - change (repeat 0%Q n) with (zero_vector n). rewrite dot_at_zero.
    rewrite Nat.add_0_r. lra.
  - change (repeat 0%Q n) with (zero_vector n).
    rewrite IH by lia. replace (S j + i)%nat with (j + S i)%nat by lia.
    unfold Q2R at 1. simpl. lra.
Qed.

Lemma radius_update_max (r aux_sf : R) :
  (if Rle_dec r aux_sf then aux_sf else r) = Rmax r aux_sf.
Proof. unfold Rmax. destruct (Rle_dec r aux_sf); reflexivity. Qed.

Lemma runs_support_function_optimal (A : matrix) (b : vector) (d : list Q)
  (solver : string) (sol : solution) :
  optimal (sf_lp A b d) sol ->
  runs (support_function (PyList [PyMatrix A; PyVector b]) d false solver)
       (Returned (Value (objective_value sol))).
Proof.
  intro Hs. cbn [support_function nth_error].
  apply runs_sf_solve; [eexists; exact Hs|]. eexists. split; [exact Hs | reflexivity].
Qed.

(** The running maximum against the values of [support_function]. *)
Lemma radius_loop_values (RDF_round : Q -> Q) (A : matrix) (b : vector) (n : nat)
  (range : list nat) (s : option lp) (r0 r : R) :
  exec s (radius_loop RDF_round (PyMatrix A) (PyVector b) n range r0) (Returned r) ->
  r0 <= r /\
  (forall i, In i range ->
     exists v w,
       runs (support_function (PyList [PyMatrix A; PyVector b])
               (radius_direction RDF_round n i 1) false "GLPK")
            (Returned (Value v)) /\
       runs (support_function (PyList [PyMatrix A; PyVector b])
               (radius_direction RDF_round n i (-1)) false "GLPK")
            (Returned (Value w)) /\
       Rabs v <= r /\ Rabs w <= r) /\
  (r = r0 \/
   exists i q v,
     In i range /\ (q = 1%Q \/ q = (-1)%Q) /\
     runs (support_function (PyList [PyMatrix A; PyVector b])
             (radius_direction RDF_round n i q) false "GLPK")
          (Returned (Value v)) /\
     r = Rabs v).
Proof.
  revert s r0. induction range as [|i range IH]; intros s r0 H.
  - apply exec_Return_iff in H. injection H as <-.
    split; [lra|]. split; [intros i []|]. now left.
  - cbn [radius_loop] in H.
    apply exec_sf_abs_bind in H. destruct H as [(s1 & O1 & H) | [_ H]]; [|discriminate].
    apply exec_sf_abs_bind in H. destruct H as [(s2 & O2 & H) | [_ H]]; [|discriminate].
    rewrite !radius_update_max in H.
    apply IH in H. destruct H as (Hle & Hub & Hat).
    rewrite set_nth_twice in O2.
    fold (radius_direction RDF_round n i 1) in O1.
    fold (radius_direction RDF_round n i (-1)) in O2.
    pose proof (runs_support_function_optimal A b _ "GLPK" s1 O1) as R1.
    pose proof (runs_support_function_optimal A b _ "GLPK" s2 O2) as R2.
    set (m1 := Rabs (objective_value s1)) in *.
    set (m2 := Rabs (objective_value s2)) in *.
    pose proof (Rmax_l r0 m1). pose proof (Rmax_r r0 m1).
    pose proof (Rmax_l (Rmax r0 m1) m2). pose proof (Rmax_r (Rmax r0 m1) m2).
    split; [lra|]. split.
    + intros j [<- | Hj].
      * exists (objective_value s1), (objective_value s2).
        split; [exact R1|]. split; [exact R2|]. fold m1 m2. split; lra.
      * destruct (Hub j Hj) as (v & w & Hv & Hw & Bv & Bw).
        exists v, w. repeat split; assumption.
    + destruct Hat as [Hr | (j & q & v & Hj & Hq & Hv & Hr)].
      * destruct (Rle_dec (Rmax r0 m1) m2) as [L2 | L2].
        -- right. exists i, (-1)%Q, (objective_value s2).
           split; [now left|]. split; [now right|]. split; [exact R2|].
           rewrite Hr. now apply Rmax_right.
        -- rewrite Rmax_left in Hr by lra.
           destruct (Rle_dec r0 m1) as [L1 | L1].
           ++ right. exists i, 1%Q, (objective_value s1).
              split; [now left|]. split; [now left|]. split; [exact R1|].
              rewrite Hr. now apply Rmax_right.
           ++ left. rewrite Hr. apply Rmax_left. lra.
      * right. exists j, q, v. split; [now right|]. repeat split; assumption.
Qed.

Section Radius.

Variable RDF_round : Q -> Q.
Hypothesis RDF_one : (RDF_round 1 == 1)%Q.
Hypothesis RDF_minus_one : (RDF_round (-1) == -1)%Q.

Variables (A : matrix) (b : vector).

Lemma radius_direction_plus (x : point) (n i : nat) :
  (i < n)%nat ->
  dot_at x (set_nth i (cast RDF_round RDF 1) (zero_vector n)) 0 = x i.
Proof.
  intro Hi. rewrite dot_at_axis by exact Hi. simpl.
  rewrite (Qeq_eqR _ _ RDF_one), Q2R_one. lra.
Qed.

Lemma radius_direction_minus (x : point) (n i : nat) :
  (i < n)%nat ->
  dot_at x (set_nth i (cast RDF_round RDF (-1))
              (set_nth i (cast RDF_round RDF 1) (zero_vector n))) 0 = - x i.
Proof.
  intro Hi. rewrite set_nth_twice, dot_at_axis by exact Hi. simpl.
  rewrite (Qeq_eqR _ _ RDF_minus_one), Q2R_minus_one. lra.
Qed.

Lemma radius_loop_returned (n : nat) (range : list nat) (s : option lp) (r0 r : R) :
  Forall (fun i => (i < n)%nat) range ->
  exec s (radius_loop RDF_round (PyMatrix A) (PyVector b) n range r0) (Returned r) ->
  r0 <= r /\
  (forall x, Hrep_holds A b x -> forall i, In i range -> Rabs (x i) <= r) /\
  (r = r0 \/ exists x i, Hrep_holds A b x /\ In i range /\ r = Rabs (x i)).
Proof.
  intro Hr. revert s r0. induction Hr as [|i range Hi _ IH]; intros s r0 H.
  - apply exec_Return_iff in H. injection H as <-.
    split; [lra|]. split; [intros x _ i []|]. now left.
  - cbn [radius_loop] in H.
    apply exec_sf_abs_bind in H. destruct H as [(s1 & O1 & H) | [_ H]]; [|discriminate].
    apply exec_sf_abs_bind in H. destruct H as [(s2 & O2 & H) | [_ H]]; [|discriminate].
    rewrite !radius_update_max in H.
    apply IH in H. destruct H as (Hle & Hub & Hat).
    apply optimal_sf_lp in O1. destruct O1 as (F1 & V1 & M1).
    apply optimal_sf_lp in O2. destruct O2 as (F2 & V2 & M2).
    rewrite radius_direction_plus in V1 by exact Hi.
    rewrite radius_direction_minus in V2 by exact Hi.
    set (m1 := Rabs (objective_value s1)) in *.
    set (m2 := Rabs (objective_value s2)) in *.
    pose proof (Rmax_l r0 m1). pose proof (Rmax_r r0 m1).
    pose proof (Rmax_l (Rmax r0 m1) m2). pose proof (Rmax_r (Rmax r0 m1) m2).
    split; [lra|]. split.
    + intros x Hx j [<- | Hj]. 2: { now apply Hub. }
      specialize (M1 x Hx). specialize (M2 x Hx).
      rewrite radius_direction_plus in M1 by exact Hi.
      rewrite radius_direction_minus in M2 by exact Hi.
      pose proof (Rle_abs (objective_value s1)).
      pose proof (Rle_abs (objective_value s2)).
      fold m1 in H3. fold m2 in H4.
      apply Rabs_le. lra.
    + destruct Hat as [Hr | (x & j & Hx & Hj & Hr)].
      * destruct (Rle_dec (Rmax r0 m1) m2) as [L2 | L2].
        -- right. exists (x_of (get_values s2)), i. repeat split; [exact F2 | now left |].
           rewrite Hr, (Rmax_right _ _ L2). unfold m2. now rewrite V2, Rabs_Ropp.
        -- rewrite Rmax_left in Hr by lra.
           destruct (Rle_dec r0 m1) as [L1 | L1].
           ++ right. exists (x_of (get_values s1)), i.
              repeat split; [exact F1 | now left |].
              rewrite Hr, (Rmax_right _ _ L1). unfold m1. now rewrite V1.
           ++ left. rewrite Hr. apply Rmax_left. lra.
      * right. exists x, j. repeat split; [exact Hx | now right | exact Hr].
Qed.

Lemma radius_loop_runs (n : nat) (range : list nat) (s : option lp) (r0 : R) :
  Forall (fun i => (i < n)%nat) range ->
  (exists x, Hrep_holds A b x) ->
  (exists M, forall x, Hrep_holds A b x -> forall i, (i < n)%nat -> Rabs (x i) <= M) ->
  exists r, forall o,
    exec s (radius_loop RDF_round (PyMatrix A) (PyVector b) n range r0) o
    <-> o = Returned r.
Proof.
  intros Hr Hne [M HM]. revert s r0.
  induction Hr as [|i range Hi _ IH]; intros s r0.
  - exists r0. intro o. apply exec_Return_iff.
  - destruct (lp_attains A b (set_nth i (cast RDF_round RDF 1) (zero_vector n)) Hne)
      as [s1 O1].
    { exists M. intros x Hx. rewrite radius_direction_plus by exact Hi.
      specialize (HM x Hx i Hi). pose proof (Rle_abs (x i)). lra. }
    destruct (lp_attains A b
                (set_nth i (cast RDF_round RDF (-1))
                   (set_nth i (cast RDF_round RDF 1) (zero_vector n))) Hne)
      as [s2 O2].
    { exists M. intros x Hx. rewrite radius_direction_minus by exact Hi.
      specialize (HM x Hx i Hi). pose proof (Rle_abs (- x i)).
      rewrite Rabs_Ropp in H. lra. }
    set (d1 := set_nth i (cast RDF_round RDF 1) (zero_vector n)) in *.
    set (d2 := set_nth i (cast RDF_round RDF (-1)) d1) in *.
    set (r1 := if Rle_dec r0 (Rabs (objective_value s1))
               then Rabs (objective_value s1) else r0).
    set (r2 := if Rle_dec r1 (Rabs (objective_value s2))
               then Rabs (objective_value s2) else r1).
    destruct (IH (Some (sf_lp A b d2)) r2) as [r Hrun].
    exists r. intro o. cbn [radius_loop]. fold d1. fold d2.
    rewrite exec_sf_abs_bind. split.
    + intros [(t1 & T1 & H) | [Hno _]]; [|now elim (Hno s1)].
      rewrite (optimal_value_unique A b d1 t1 s1 T1 O1) in H. fold r1 in H.
      apply exec_sf_abs_bind in H.
      destruct H as [(t2 & T2 & H) | [Hno _]]; [|now elim (Hno s2)].
      rewrite (optimal_value_unique A b d2 t2 s2 T2 O2) in H. fold r2 in H.
      now apply Hrun.
    + intros ->. left. exists s1. split; [exact O1|]. fold r1.
      apply exec_sf_abs_bind. left. exists s2. split; [exact O2|]. fold r2.
      now apply Hrun.
Qed.

Lemma radius_list (l : matrix) (v : vector) :
  radius RDF_round (PyList [PyMatrix l; PyVector v])
  = bind (radius_loop RDF_round (PyMatrix l) (PyVector v) (ncols l) (seq 0 (ncols l)) 0)
         (fun snorm => Return (Some snorm)).
Proof. reflexivity. Qed.

Lemma seq_below (n : nat) : Forall (fun i => (i < n)%nat) (seq 0 n).
Proof. apply Forall_forall. intros i Hi. apply in_seq in Hi. lia. Qed.

End Radius.

(** A program followed by a pure step. *)
Lemma exec_bind_Return {T U : Type} (g : T -> U) (p : prog T) (s : option lp)
  (o : outcome U) :
  exec s (bind p (fun v => Return (g v))) o <->
  (exists v, exec s p (Returned v) /\ o = Returned (g v)) \/
  (exists e, exec s p (Raised e) /\ o = Raised e).
Proof.
  revert s. induction p as [v | e | c k IH | k IH]; intro s; cbn [bind].
  - rewrite exec_Return_iff. split.
    + intros ->. left. exists v. split; [constructor | reflexivity].
    + intros [(w & H & ->) | (e & H & ->)]; apply exec_Return_iff in H;
        [now injection H as -> | discriminate].
  - rewrite exec_Raise_iff. split.
    + intros ->. right. exists e. split; [constructor | reflexivity].
    + intros [(w & H & ->) | (e' & H & ->)]; apply exec_Raise_iff in H;
        [discriminate | now injection H as ->].
  - rewrite exec_Call_iff, IH.
    split; (intros [(w & H & ->) | (e & H & ->)];
            [left; exists w | right; exists e]; (split; [|reflexivity]));
      now apply exec_Call_iff.
  - split.
    + intro H. inversion H; subst.
      * match goal with He : exec _ (bind _ _) _ |- _ => apply IH in He;
          destruct He as [(w & He & ->) | (e & He & ->)] end.
        -- left. exists w. split; [|reflexivity]. eapply exec_Solve; eassumption.
        -- right. exists e. split; [|reflexivity]. eapply exec_Solve; eassumption.
      * right. exists MIPSolverException. split; [|reflexivity].
        now apply exec_Solve_fails.
    + intros [(w & H & ->) | (e & H & ->)]; inversion H; subst.
      * eapply exec_Solve; [eassumption|]. apply IH. left. eauto.
      * eapply exec_Solve; [eassumption|]. apply IH. right. eauto.
      * now apply exec_Solve_fails.
Qed.

(** When the set has a point and is bounded: one outcome, a number. *)
Lemma radius_runs (RDF_round : Q -> Q) (A : matrix) (b : vector) :
  (RDF_round 1 == 1)%Q -> (RDF_round (-1) == -1)%Q ->
  (exists x, Hrep_holds A b x) ->
  (exists M, forall x, Hrep_holds A b x ->
                       forall i, (i < ncols A)%nat -> Rabs (x i) <= M) ->
  exists snorm, forall o,
    runs (radius RDF_round (PyList [PyMatrix A; PyVector b])) o
    <-> o = Returned (Some snorm).
Proof.
  intros H1 Hm1 Hne Hb.
  destruct (radius_loop_runs RDF_round H1 Hm1 A b (ncols A) (seq 0 (ncols A)) None 0
              (seq_below _) Hne Hb) as [r Hr].
  exists r. intro o. unfold runs. rewrite radius_list, exec_bind_Return. split.
  - intros [(v & H & ->) | (e & H & ->)]; apply Hr in H; [now injection H as -> | discriminate].
  - intros ->. left. exists r. split; [now apply Hr | reflexivity].
Qed.

(** What a returned radius holds. *)
Lemma radius_returned (RDF_round : Q -> Q) (A : matrix) (b : vector) (r : option R) :
  (RDF_round 1 == 1)%Q -> (RDF_round (-1) == -1)%Q ->
  runs (radius RDF_round (PyList [PyMatrix A; PyVector b])) (Returned r) ->
  exists snorm,
    r = Some snorm /\ 0 <= snorm /\
    (forall x, Hrep_holds A b x -> forall i, (i < ncols A)%nat -> Rabs (x i) <= snorm) /\
    (snorm = 0 \/
     exists x i, Hrep_holds A b x /\ (i < ncols A)%nat /\ snorm = Rabs (x i)).
Proof.
  intros H1 Hm1 H. unfold runs in H. rewrite radius_list in H.
  apply exec_bind_Return in H. destruct H as [(v & H & E) | (e & _ & E)]; [|discriminate].
  injection E as ->. exists v. split; [reflexivity|].
  apply (radius_loop_returned RDF_round H1 Hm1 A b _ _ _ _ _ (seq_below _)) in H.
  destruct H as (H0 & Hub & Hat). split; [exact H0|]. split.
  - intros x Hx i Hi. apply Hub; [exact Hx|]. apply in_seq. lia.
  - destruct Hat as [-> | (x & i & Hx & Hi & ->)]; [now left|].
    right. exists x, i. apply in_seq in Hi. repeat split; [exact Hx | lia].
Qed.

(** X22: when [radius] returns on a list [[A, b]], the number is the
    greatest absolute value among [0] and the values that
    [support_function] returns on [[A, b]] in the directions [e_i] and
    [-e_i], [i < A.ncols()]: it is not negative, it bounds each of them,
    and it is [0] or the absolute value of one of them. *)
Theorem radius_max_of_support_values
  (RDF_round : Q -> Q) (A : matrix) (b : vector) (r : option R) :
  runs (radius RDF_round (PyList [PyMatrix A; PyVector b])) (Returned r) ->
  exists snorm,
    r = Some snorm /\ 0 <= snorm /\
    (forall i, (i < ncols A)%nat ->
       exists v w,
         runs (support_function (PyList [PyMatrix A; PyVector b])
                 (radius_direction RDF_round (ncols A) i 1) false "GLPK")
              (Returned (Value v)) /\
         runs (support_function (PyList [PyMatrix A; PyVector b])
                 (radius_direction RDF_round (ncols A) i (-1)) false "GLPK")
              (Returned (Value w)) /\
         Rabs v <= snorm /\ Rabs w <= snorm) /\
    (snorm = 0 \/
     exists i s v,
       (i < ncols A)%nat /\ (s = 1%Q \/ s = (-1)%Q) /\
       runs (support_function (PyList [PyMatrix A; PyVector b])
               (radius_direction RDF_round (ncols A) i s) false "GLPK")
            (Returned (Value v)) /\
       snorm = Rabs v).
Proof.
  intro H. unfold runs in H. rewrite radius_list in H.
  apply exec_bind_Return in H. destruct H as [(v & H & E) | (e & _ & E)]; [|discriminate].
  injection E as ->. exists v. split; [reflexivity|].
  apply (radius_loop_values RDF_round A b) in H.
  destruct H as (H0 & Hub & Hat). split; [exact H0|]. split.
  - intros i Hi. apply Hub. apply in_seq. lia.
  - destruct Hat as [-> | (i & s & w & Hi & Hs & Hw & ->)]; [now left|].
    right. exists i, s, w. apply in_seq in Hi. repeat split; try assumption. lia.
Qed.

Lemma radius_max_of_support_values_witness :
  exists r,
    runs (radius (fun q => q) (PyList [PyMatrix A_segment; PyVector b_segment]))
         (Returned r) /\
    exists snorm,
      r = Some snorm /\ 0 <= snorm /\
      (forall i, (i < ncols A_segment)%nat ->
         exists v w,
           runs (support_function (PyList [PyMatrix A_segment; PyVector b_segment])
                   (radius_direction (fun q => q) (ncols A_segment) i 1) false "GLPK")
                (Returned (Value v)) /\
           runs (support_function (PyList [PyMatrix A_segment; PyVector b_segment])
                   (radius_direction (fun q => q) (ncols A_segment) i (-1)) false "GLPK")
                (Returned (Value w)) /\
           Rabs v <= snorm /\ Rabs w <= snorm) /\
      (snorm = 0 \/
       exists i s v,
         (i < ncols A_segment)%nat /\ (s = 1%Q \/ s = (-1)%Q) /\
         runs (support_function (PyList [PyMatrix A_segment; PyVector b_segment])
                 (radius_direction (fun q => q) (ncols A_segment) i s) false "GLPK")
              (Returned (Value v)) /\
         snorm = Rabs v).
Proof.
  destruct (radius_runs (fun q => q) A_segment b_segment (Qeq_refl 1) (Qeq_refl (-1))
              segment_nonempty segment_bounded) as [snorm Hrun].
  exists (Some snorm).
  assert (H : runs (radius (fun q => q) (PyList [PyMatrix A_segment; PyVector b_segment]))
                   (Returned (Some snorm))) by (apply Hrun; reflexivity).
  split; [exact H|].
  exact (radius_max_of_support_values (fun q => q) A_segment b_segment (Some snorm) H).
Defined.





(** *** diameter_support_function *)

Lemma exec_sf_number_bind {U : Type} (s : option lp) (A : matrix) (b : vector) (d : list Q)
  (solver : string) (f : R -> prog U) (o : outcome U) :
  exec s (bind (support_function (PyList [PyMatrix A; PyVector b]) d false solver)
               (fun sf => bind (sf_number sf) f)) o <->
  (exists sol, optimal (sf_lp A b d) sol /\
               exec (Some (sf_lp A b d)) (f (objective_value sol)) o) \/
  ((forall sol, ~ optimal (sf_lp A b d) sol) /\ o = Raised MIPSolverException).
Proof.
  cbn [support_function nth_error]. unfold sf_solve. cbn [bind].
  rewrite !exec_Call_iff. simpl mip_step. fold (sf_lp A b d). split.
  - intro H. inversion H; subst.
    + left. eexists. split; [eassumption|]. assumption.
    + right. split; [assumption | reflexivity].
  - intros [[sol [Hs He]] | [Hno ->]].
    + eapply exec_Solve; [exact Hs | exact He].
    + now apply exec_Solve_fails.
Qed.

Lemma dot_at_identity_column (x : point) (n j : nat) :
  (j < n)%nat -> dot_at x (identity_column n j) 0 = x j.
Proof.
  intro Hj. unfold identity_column. rewrite dot_at_axis by exact Hj.
  rewrite Q2R_one. simpl. lra.
Qed.

Section DiameterSupportFunction.

Variables (A : matrix) (b : vector).

Lemma optimal_upper (n j : nat) (sol : solution) :
  (j < n)%nat ->
  optimal (sf_lp A b (identity_column n j)) sol -> coordinate_max A b j (objective_value sol).
Proof.
  intros Hj Hs. apply optimal_sf_lp in Hs. destruct Hs as (F & V & M).
  rewrite dot_at_identity_column in V by exact Hj. split.
  - intros x Hx. specialize (M x Hx). now rewrite dot_at_identity_column in M.
  - exists (x_of (get_values sol)). split; [exact F | now rewrite V].
Qed.

Lemma optimal_lower (n j : nat) (sol : solution) :
  (j < n)%nat ->
  optimal (sf_lp A b (vneg (identity_column n j))) sol -> coordinate_min A b j (- objective_value sol).
Proof.
  intros Hj Hs. apply optimal_sf_lp in Hs. destruct Hs as (F & V & M).
  rewrite dot_at_vneg, dot_at_identity_column in V by exact Hj. split.
  - intros x Hx. specialize (M x Hx).
    rewrite dot_at_vneg, dot_at_identity_column in M by exact Hj. lra.
  - exists (x_of (get_values sol)). split; [exact F | rewrite V; lra].
Qed.

Lemma dsf_lower_returned (n : nat) (range : list nat) (s : option lp) (l0 l : list R) :
  Forall (fun j => (j < n)%nat) range ->
  exec s (dsf_lower (PyMatrix A) (PyVector b) n range l0) (Returned l) ->
  exists vs, l = l0 ++ vs /\ Forall2 (coordinate_min A b) range vs.
Proof.
  intro Hr. revert s l0. induction Hr as [|j range Hj _ IH]; intros s l0 H.
  - apply exec_Return_iff in H. injection H as <-. exists []. now rewrite app_nil_r.
  - cbn [dsf_lower] in H. apply exec_sf_number_bind in H.
    destruct H as [(sol & Hs & H) | [_ H]]; [|discriminate].
    apply IH in H. destruct H as (vs & -> & Hvs).
    exists (- objective_value sol :: vs). rewrite <- app_assoc. split; [reflexivity|].
    constructor; [now apply (optimal_lower n) | exact Hvs].
Qed.

Lemma dsf_upper_returned (n : nat) (range : list nat) (s : option lp) (u0 u : list R) :
  Forall (fun j => (j < n)%nat) range ->
  exec s (dsf_upper (PyMatrix A) (PyVector b) n range u0) (Returned u) ->
  exists vs, u = u0 ++ vs /\ Forall2 (coordinate_max A b) range vs.
Proof.
  intro Hr. revert s u0. induction Hr as [|j range Hj _ IH]; intros s u0 H.
  - apply exec_Return_iff in H. injection H as <-. exists []. now rewrite app_nil_r.
  - cbn [dsf_upper] in H. apply exec_sf_number_bind in H.
    destruct H as [(sol & Hs & H) | [_ H]]; [|discriminate].
    apply IH in H. destruct H as (vs & -> & Hvs).
    exists (objective_value sol :: vs). rewrite <- app_assoc. split; [reflexivity|].
    constructor; [now apply (optimal_upper n) | exact Hvs].
Qed.

End DiameterSupportFunction.

Lemma exec_bind_inv {T U : Type} (p : prog T) (f : T -> prog U) (s : option lp)
  (o : outcome U) :
  exec s (bind p f) o ->
  (exists v s', exec s p (Returned v) /\ exec s' (f v) o) \/
  (exists e, exec s p (Raised e) /\ o = Raised e).
Proof.
  revert s. induction p as [v | e | c k IH | k IH]; intros s H; cbn [bind] in H.
  - left. exists v, s. split; [constructor | exact H].
  - right. exists e. apply exec_Raise_iff in H. split; [constructor | exact H].
  - apply exec_Call_iff in H. apply IH in H.
    destruct H as [(v & s' & H & Hf) | (e & H & ->)].
    + left. exists v, s'. split; [now apply exec_Call_iff | exact Hf].
    + right. exists e. split; [now apply exec_Call_iff | reflexivity].
  - inversion H; subst.
    + match goal with He : exec _ (bind _ _) _ |- _ => apply IH in He;
        destruct He as [(v & s' & He & Hf) | (e & He & ->)] end.
      * left. exists v, s'. split; [eapply exec_Solve; eassumption | exact Hf].
      * right. exists e. split; [eapply exec_Solve; eassumption | reflexivity].
    + right. exists MIPSolverException. split; [now apply exec_Solve_fails | reflexivity].
Qed.

Lemma Forall2_seq_nth {T : Type} (P : nat -> T -> Prop) (d : T) (n a : nat) (l : list T) :
  Forall2 P (seq a n) l ->
  List.length l = n /\ forall j, (j < n)%nat -> P (a + j)%nat (nth j l d).
Proof.
  revert a l. induction n as [|n IH]; intros a l H; inversion H; subst.
  - split; [reflexivity | intros j Hj; lia].
  - match goal with H' : Forall2 _ (seq (S a) n) _ |- _ =>
      apply IH in H'; destruct H' as [Hl Hn] end.
    split; [simpl; now rewrite Hl|].
    intros [|j] Hj; simpl.
    + now rewrite Nat.add_0_r.
    + replace (a + S j)%nat with (S a + j)%nat by lia. apply Hn. lia.
Qed.

Lemma fold_left_Rmax (ws : list R) (w0 : R) :
  (forall v, In v (w0 :: ws) -> v <= fold_left Rmax ws w0) /\
  In (fold_left Rmax ws w0) (w0 :: ws).
Proof.
  revert w0. induction ws as [|w ws IH]; intro w0; cbn [fold_left].
  - split; [intros v [<- | []]; lra | now left].
  - destruct (IH (Rmax w0 w)) as [Hub Hin]. split.
    + intros v [<- | [<- | Hv]].
      * eapply Rle_trans; [apply Rmax_l | apply Hub; now left].
      * eapply Rle_trans; [apply Rmax_r | apply Hub; now left].
      * apply Hub. now right.
    + destruct Hin as [Hin | Hin]; [|now right; right].
      rewrite <- Hin. unfold Rmax. destruct (Rle_dec w0 w); [right; now left | now left].
Qed.

Lemma nth_vsub_R (u l : list R) (j : nat) :
  List.length u = List.length l -> (j < List.length u)%nat ->
  nth j (vsub_R u l) 0 = nth j u 0 - nth j l 0.
Proof.
  revert l j. induction u as [|a u IH]; intros [|c l] j Hl Hj; try discriminate;
    simpl in Hj; [lia|].
  destruct j as [|j]; [reflexivity|]. simpl. apply IH; simpl in *; lia.
Qed.

(** What a returned tuple [(diam, u, l)] holds. *)
Lemma diameter_support_function_returned (A : matrix) (b : vector) (diam : R)
  (u l : list R) :
  runs (diameter_support_function (PyMatrix A) (PyVector b)) (Returned (diam, u, l)) ->
  List.length u = ncols A /\ List.length l = ncols A /\
  (forall j, (j < ncols A)%nat ->
             coordinate_min A b j (nth j l 0) /\ coordinate_max A b j (nth j u 0)) /\
  (forall j, (j < ncols A)%nat -> nth j u 0 - nth j l 0 <= diam) /\
  (exists j, (j < ncols A)%nat /\ diam = nth j u 0 - nth j l 0).
Proof.
  unfold runs, diameter_support_function. intro H.
  apply exec_bind_inv in H. destruct H as [(l' & s1 & Hl & H) | (e & _ & E)]; [|discriminate].
  apply exec_bind_inv in H. destruct H as [(u' & s2 & Hu & H) | (e & _ & E)]; [|discriminate].
  apply dsf_lower_returned in Hl; [|apply seq_below].
  apply dsf_upper_returned in Hu; [|apply seq_below].
  destruct Hl as (vl & -> & Hl). destruct Hu as (vu & -> & Hu). cbn [app] in H.
  apply (Forall2_seq_nth _ 0) in Hl. destruct Hl as [Ll Hl].
  apply (Forall2_seq_nth _ 0) in Hu. destruct Hu as [Lu Hu].
  destruct (max_of (vsub_R vu vl)) as [m | e] eqn:Hm;
    [|apply exec_Raise_iff in H; discriminate].
  apply exec_Return_iff in H. injection H as <- <- <-.
  split; [exact Lu|]. split; [exact Ll|]. split; [intros k Hk; split; [exact (Hl k Hk) | exact (Hu k Hk)]|].
  unfold max_of in Hm. destruct (vsub_R u l) as [|w0 ws] eqn:Hw; [discriminate|].
  injection Hm as <-. destruct (fold_left_Rmax ws w0) as [Hub Hin].
  assert (Hlen : List.length (w0 :: ws) = ncols A).
  { rewrite <- Hw. unfold vsub_R. rewrite length_map, length_combine. lia. }
  assert (Hnth : forall j, (j < ncols A)%nat -> nth j (w0 :: ws) 0 = nth j u 0 - nth j l 0).
  { intros j Hj. rewrite <- Hw. apply nth_vsub_R; lia. }
  split.
  - intros j Hj. rewrite <- Hnth by exact Hj. apply Hub. apply nth_In. lia.
  - destruct (In_nth _ _ 0 Hin) as (j & Hj & E). exists j.
    rewrite Hlen in Hj. split; [exact Hj|]. now rewrite <- Hnth, E.
Qed.

Section DiameterSupportValues.

Variables (A : matrix) (b : vector).

Lemma dsf_lower_values (n : nat) (range : list nat) (s : option lp) (l0 l : list R) :
  exec s (dsf_lower (PyMatrix A) (PyVector b) n range l0) (Returned l) ->
  exists vs,
    l = l0 ++ vs /\
    Forall2 (fun j v =>
               runs (support_function (PyList [PyMatrix A; PyVector b])
                       (vneg (identity_column n j)) false "GLPK")
                    (Returned (Value (- v)))) range vs.
Proof.
  revert s l0. induction range as [|j range IH]; intros s l0 H.
  - apply exec_Return_iff in H. injection H as <-. exists []. now rewrite app_nil_r.
  - cbn [dsf_lower] in H. apply exec_sf_number_bind in H.
    destruct H as [(sol & Hs & H) | [_ H]]; [|discriminate].
    apply IH in H. destruct H as (vs & -> & Hvs).
    exists (- objective_value sol :: vs). rewrite <- app_assoc. split; [reflexivity|].
    constructor; [|exact Hvs]. rewrite Ropp_involutive.
    now apply runs_support_function_optimal.
Qed.

Lemma dsf_upper_values (n : nat) (range : list nat) (s : option lp) (u0 u : list R) :
  exec s (dsf_upper (PyMatrix A) (PyVector b) n range u0) (Returned u) ->
  exists vs,
    u = u0 ++ vs /\
    Forall2 (fun j v =>
               runs (support_function (PyList [PyMatrix A; PyVector b])
                       (identity_column n j) false "GLPK")
                    (Returned (Value v))) range vs.
Proof.
  revert s u0. induction range as [|j range IH]; intros s u0 H.
  - apply exec_Return_iff in H. injection H as <-. exists []. now rewrite app_nil_r.
  - cbn [dsf_upper] in H. apply exec_sf_number_bind in H.
    destruct H as [(sol & Hs & H) | [_ H]]; [|discriminate].
    apply IH in H. destruct H as (vs & -> & Hvs).
    exists (objective_value sol :: vs). rewrite <- app_assoc. split; [reflexivity|].
    constructor; [|exact Hvs]. now apply runs_support_function_optimal.
Qed.

End DiameterSupportValues.

Lemma exec_bind_intro {T U : Type} (p : prog T) (f : T -> prog U) (v : T)
  (o : outcome U) (s : option lp) :
  exec s p (Returned v) -> (forall s', exec s' (f v) o) -> exec s (bind p f) o.
Proof.
  intros H Hf. revert s H. induction p as [w | e | c k IH | k IH]; intros s H; cbn [bind].
  - apply exec_Return_iff in H. injection H as <-. apply Hf.
  - apply exec_Raise_iff in H. discriminate.
  - apply exec_Call_iff. apply IH. now apply exec_Call_iff in H.
  - inversion H; subst. eapply exec_Solve; [eassumption|]. now apply IH.
Qed.

(** Two steps that do not depend on the state of the solver interface. *)
Lemma exec_bind_det {T U : Type} (p : prog T) (f : T -> prog U) (v : T) (o0 : outcome U) :
  (forall s o, exec s p o <-> o = Returned v) ->
  (forall s o, exec s (f v) o <-> o = o0) ->
  forall s o, exec s (bind p f) o <-> o = o0.
Proof.
  intros Hp Hf s o. split.
  - intro H. apply exec_bind_inv in H.
    destruct H as [(w & s' & Hw & H) | (e & He & _)].
    + apply Hp in Hw. injection Hw as ->. now apply Hf in H.
    + apply Hp in He. discriminate.
  - intros ->. apply (exec_bind_intro p f v).
    + now apply Hp.
    + intro s'. now apply Hf.
Qed.

Section DiameterSupportFunctionRuns.

Variables (A : matrix) (b : vector) (n : nat).
Hypothesis nonempty : exists x, Hrep_holds A b x.
Hypothesis bounded :
  exists M, forall x, Hrep_holds A b x -> forall j, (j < n)%nat -> Rabs (x j) <= M.

Lemma dsf_lower_runs (range : list nat) :
  Forall (fun j => (j < n)%nat) range ->
  exists vs, forall s l0 o,
    exec s (dsf_lower (PyMatrix A) (PyVector b) n range l0) o <-> o = Returned (l0 ++ vs).
Proof.
  destruct bounded as [M HM].
  induction 1 as [|j range Hj _ [vs IH]].
  - exists []. intros s l0 o. rewrite app_nil_r. apply exec_Return_iff.
  - destruct (lp_attains A b (vneg (identity_column n j)) nonempty) as [sol Hs].
    { exists M. intros x Hx. rewrite dot_at_vneg, dot_at_identity_column by exact Hj.
      specialize (HM x Hx j Hj). pose proof (Rle_abs (- x j)).
      rewrite Rabs_Ropp in H. lra. }
    exists (- objective_value sol :: vs). intros s l0 o.
    cbn [dsf_lower]. rewrite exec_sf_number_bind. split.
    + intros [(t & Ht & H) | [Hno _]]; [|now elim (Hno sol)].
      rewrite (optimal_value_unique A b _ t sol Ht Hs) in H.
      apply IH in H. now rewrite <- app_assoc in H.
    + intros ->. left. exists sol. split; [exact Hs|].
      apply IH. now rewrite <- app_assoc.
Qed.

Lemma dsf_upper_runs (range : list nat) :
  Forall (fun j => (j < n)%nat) range ->
  exists vs, forall s u0 o,
    exec s (dsf_upper (PyMatrix A) (PyVector b) n range u0) o <-> o = Returned (u0 ++ vs).
Proof.
  destruct bounded as [M HM].
  induction 1 as [|j range Hj _ [vs IH]].
  - exists []. intros s u0 o. rewrite app_nil_r. apply exec_Return_iff.
  - destruct (lp_attains A b (identity_column n j) nonempty) as [sol Hs].
    { exists M. intros x Hx. rewrite dot_at_identity_column by exact Hj.
      specialize (HM x Hx j Hj). pose proof (Rle_abs (x j)). lra. }
    exists (objective_value sol :: vs). intros s u0 o.
    cbn [dsf_upper]. rewrite exec_sf_number_bind. split.
    + intros [(t & Ht & H) | [Hno _]]; [|now elim (Hno sol)].
      rewrite (optimal_value_unique A b _ t sol Ht Hs) in H.
      apply IH in H. now rewrite <- app_assoc in H.
    + intros ->. left. exists sol. split; [exact Hs|].
      apply IH. now rewrite <- app_assoc.
Qed.

End DiameterSupportFunctionRuns.

(** When the set has a point and is bounded, with a column in [A]: one
    outcome, a tuple. *)
Lemma diameter_support_function_runs (A : matrix) (b : vector) :
  ncols A <> O ->
  (exists x, Hrep_holds A b x) ->
  (exists M, forall x, Hrep_holds A b x ->
                       forall j, (j < ncols A)%nat -> Rabs (x j) <= M) ->
  exists diam u l, forall o,
    runs (diameter_support_function (PyMatrix A) (PyVector b)) o
    <-> o = Returned (diam, u, l).
Proof.
  intros Hn Hne Hb.
  destruct (dsf_lower_runs A b (ncols A) Hne Hb _ (seq_below _)) as [l Hl].
  destruct (dsf_upper_runs A b (ncols A) Hne Hb _ (seq_below _)) as [u Hu].
  assert (Ll : List.length l = ncols A).
  { specialize (Hl None [] (Returned l)). cbn [app] in Hl.
    assert (H : exec None (dsf_lower (PyMatrix A) (PyVector b) (ncols A)
                             (seq 0 (ncols A)) []) (Returned l)) by now apply Hl.
    apply dsf_lower_returned in H; [|apply seq_below].
    destruct H as (vs & E & H). cbn [app] in E. subst vs.
    apply Forall2_length in H. now rewrite length_seq in H. }
  assert (Lu : List.length u = ncols A).
  { specialize (Hu None [] (Returned u)). cbn [app] in Hu.
    assert (H : exec None (dsf_upper (PyMatrix A) (PyVector b) (ncols A)
                             (seq 0 (ncols A)) []) (Returned u)) by now apply Hu.
    apply dsf_upper_returned in H; [|apply seq_below].
    destruct H as (vs & E & H). cbn [app] in E. subst vs.
    apply Forall2_length in H. now rewrite length_seq in H. }
  destruct (vsub_R u l) as [|w0 ws] eqn:Hw.
  { exfalso. apply (f_equal (@List.length R)) in Hw. unfold vsub_R in Hw.
    rewrite length_map, length_combine in Hw. simpl in Hw. lia. }
  exists (fold_left Rmax ws w0), u, l. intro o. unfold runs, diameter_support_function.
  apply (exec_bind_det _ _ l); [intros s o'; apply (Hl s []) |].
  intros s o'.
  apply (exec_bind_det _ _ u); [intros s' o''; apply (Hu s' []) |].
  intros s' o''. rewrite Hw. cbn [max_of]. apply exec_Return_iff.
Qed.

(** X25: the vectors [u] and [l] that [diameter_support_function] returns
    have one entry for each column of [A]: [u_j] is the value that
    [support_function] returns on [[A, b]] in the direction [e_j], and
    [l_j] the opposite of the value it returns in the direction [-e_j]. *)
Theorem diameter_support_function_support_values (A : matrix) (b : vector) (diam : R)
  (u l : list R) :
  runs (diameter_support_function (PyMatrix A) (PyVector b)) (Returned (diam, u, l)) ->
  List.length u = ncols A /\ List.length l = ncols A /\
  forall j, (j < ncols A)%nat ->
    runs (support_function (PyList [PyMatrix A; PyVector b])
            (identity_column (ncols A) j) false "GLPK")
         (Returned (Value (nth j u 0))) /\
    runs (support_function (PyList [PyMatrix A; PyVector b])
            (vneg (identity_column (ncols A) j)) false "GLPK")
         (Returned (Value (- nth j l 0))).
Proof.
  unfold runs at 1. unfold diameter_support_function. intro H.
  apply exec_bind_inv in H. destruct H as [(l' & s1 & Hl & H) | (e & _ & E)]; [|discriminate].
  apply exec_bind_inv in H. destruct H as [(u' & s2 & Hu & H) | (e & _ & E)]; [|discriminate].
  apply dsf_lower_values in Hl. apply dsf_upper_values in Hu.
  destruct Hl as (vl & -> & Hl). destruct Hu as (vu & -> & Hu). cbn [app] in H.
  apply (Forall2_seq_nth _ 0) in Hl. destruct Hl as [Ll Hl].
  apply (Forall2_seq_nth _ 0) in Hu. destruct Hu as [Lu Hu].
  destruct (max_of (vsub_R vu vl)) as [m | e];
    [|apply exec_Raise_iff in H; discriminate].
  apply exec_Return_iff in H. injection H as <- <- <-.
  split; [exact Lu|]. split; [exact Ll|].
  intros j Hj. split; [exact (Hu j Hj) | exact (Hl j Hj)].
Qed.

Lemma diameter_support_function_support_values_witness :
  exists diam u l,
    runs (diameter_support_function (PyMatrix A_segment) (PyVector b_segment))
         (Returned (diam, u, l)) /\
    List.length u = ncols A_segment /\ List.length l = ncols A_segment /\
    forall j, (j < ncols A_segment)%nat ->
      runs (support_function (PyList [PyMatrix A_segment; PyVector b_segment])
              (identity_column (ncols A_segment) j) false "GLPK")
           (Returned (Value (nth j u 0))) /\
      runs (support_function (PyList [PyMatrix A_segment; PyVector b_segment])
              (vneg (identity_column (ncols A_segment) j)) false "GLPK")
           (Returned (Value (- nth j l 0))).
Proof.
  destruct (diameter_support_function_runs A_segment b_segment
              ltac:(discriminate) segment_nonempty segment_bounded)
    as (diam & u & l & Hrun).
  exists diam, u, l.
  assert (H : runs (diameter_support_function (PyMatrix A_segment) (PyVector b_segment))
                   (Returned (diam, u, l))) by (apply Hrun; reflexivity).
  split; [exact H|].
  exact (diameter_support_function_support_values A_segment b_segment diam u l H).
Defined.



(** X28: on one list [[A, b]], the diameter that
    [diameter_support_function] returns is at most twice the radius that
    [radius] returns. *)
Theorem diameter_le_twice_radius (RDF_round : Q -> Q) (A : matrix) (b : vector)
  (r diam : R) (u l : list R) :
  (RDF_round 1 == 1)%Q -> (RDF_round (-1) == -1)%Q ->
  runs (radius RDF_round (PyList [PyMatrix A; PyVector b])) (Returned (Some r)) ->
  runs (diameter_support_function (PyMatrix A) (PyVector b)) (Returned (diam, u, l)) ->
  diam <= 2 * r.
Proof.
  intros H1 Hm1 Hr Hd.
  apply (radius_returned RDF_round A b (Some r) H1 Hm1) in Hr.
  destruct Hr as (snorm & E & _ & Hub & _). injection E as <-.
  apply diameter_support_function_returned in Hd.
  destruct Hd as (_ & _ & Hbox & _ & (j & Hj & ->)).
  destruct (Hbox j Hj) as [[_ (y & Hy & <-)] [_ (x & Hx & <-)]].
  pose proof (Hub x Hx j Hj) as Bx. pose proof (Hub y Hy j Hj) as By.
  apply Rabs_le_both in Bx. apply Rabs_le_both in By. lra.
Qed.

Lemma diameter_le_twice_radius_witness :
  exists r diam u l,
    runs (radius (fun q => q) (PyList [PyMatrix A_segment; PyVector b_segment]))
         (Returned (Some r)) /\
    runs (diameter_support_function (PyMatrix A_segment) (PyVector b_segment))
         (Returned (diam, u, l)) /\
    diam <= 2 * r.
Proof.
  destruct (radius_runs (fun q => q) A_segment b_segment (Qeq_refl 1) (Qeq_refl (-1))
              segment_nonempty segment_bounded) as [r Hr].
  destruct (diameter_support_function_runs A_segment b_segment
              ltac:(discriminate) segment_nonempty segment_bounded)
    as (diam & u & l & Hd).
  assert (H1 : runs (radius (fun q => q) (PyList [PyMatrix A_segment; PyVector b_segment]))
                    (Returned (Some r))) by (apply Hr; reflexivity).
  assert (H2 : runs (diameter_support_function (PyMatrix A_segment) (PyVector b_segment))
                    (Returned (diam, u, l))) by (apply Hd; reflexivity).
  exists r, diam, u, l. split; [exact H1|]. split; [exact H2|].
  exact (diameter_le_twice_radius (fun q => q) A_segment b_segment r diam u l
           (Qeq_refl 1) (Qeq_refl (-1)) H1 H2).
Defined.



Lemma finite_bound (f : nat -> R) (n : nat) :
  exists M, forall j, (j < n)%nat -> f j <= M.
Proof.
  induction n as [|n [M HM]].
  - exists 0. intros j Hj. lia.
  - exists (Rmax M (f n)). intros j Hj.
    destruct (Nat.eq_dec j n) as [-> | Hne].
    + apply Rmax_r.
    + eapply Rle_trans; [apply HM; lia | apply Rmax_l].
Qed.

(** X30: the box by centre [c] and radius [r >= 0] over [QQ], in at least
    one dimension, handed as [[A, b]] to [diameter_support_function]: the
    call has one outcome, a returned tuple (the box has a point and is
    bounded, so that no LP fails). *)
Theorem BoxInfty_diameter_support_function_returns
  (RDF_round : Q -> Q)
  (Polyhedron : list (list Q) -> ring -> nat -> string -> polyhedron)
  (center : list Q) (radius : Q) :
  center <> [] ->
  (0 <= radius)%Q ->
  exists A b diam u l,
    BoxInfty RDF_round Polyhedron None (Some (NumberList center)) (Some (Number radius))
      QQ true = Ok (BoxHrep A b) /\
    forall o, runs (diameter_support_function (PyMatrix A) (PyVector b)) o
              <-> o = Returned (diam, u, l).
Proof.
  intros Hc Hr0.
  destruct (BoxInfty_center_radius_points RDF_round Polyhedron center radius QQ)
    as (A & b & E & _ & _ & Hcols & _ & Hbox).
  cbn [cast] in Hbox.
  apply Qle_Rle in Hr0. change (Q2R 0) with (Q2R 0%Q) in Hr0. rewrite Q2R_zero in Hr0.
  set (r := Q2R radius) in *.
  set (c := fun j => Q2R (nth j center 0%Q)) in *.
  assert (Hn : ncols A <> O).
  { rewrite Hcols. destruct center; [congruence | discriminate]. }
  assert (Hne : exists x, Hrep_holds A b x).
  { exists c. apply (proj2 (Hbox _)). intros i Hi. fold (c i). lra. }
  assert (Hb : exists M, forall x, Hrep_holds A b x ->
                 forall j, (j < ncols A)%nat -> Rabs (x j) <= M).
  { destruct (finite_bound (fun j => Rabs (c j) + r) (ncols A)) as [M HM].
    exists M. intros x Hx j Hj. specialize (HM j Hj). cbv beta in HM.
    rewrite Hcols in Hj. pose proof (proj1 (Hbox x) Hx j Hj) as Hx'. fold (c j) in Hx'.
    apply Rabs_le. pose proof (Rle_abs (c j)). pose proof (Rle_abs (- c j)) as H'.
    rewrite Rabs_Ropp in H'. lra. }
  destruct (diameter_support_function_runs A b Hn Hne Hb) as (diam & u & l & Hrun).
  exists A, b, diam, u, l. split; [exact E | exact Hrun].
Qed.

Lemma BoxInfty_diameter_support_function_returns_witness :
  exists A b diam u l,
    BoxInfty (fun q => q) Polyhedron_of_rows None (Some (NumberList [1; 2; 3]%Q))
      (Some (Number 1%Q)) QQ true = Ok (BoxHrep A b) /\
    forall o, runs (diameter_support_function (PyMatrix A) (PyVector b)) o
              <-> o = Returned (diam, u, l).
Proof.
  apply (BoxInfty_diameter_support_function_returns (fun q => q) Polyhedron_of_rows
           [1; 2; 3]%Q 1%Q).
  - discriminate.
  - unfold Qle. simpl. lia.
Defined.

